(** * Chladni plate explorer: mode catalog, frequency mapping, field sampling

    A shallow embedding of [physics.js], of the class [ChladniRenderer] of
    [render.js] (catalogs, frequency mapping, field sampling, the drawing
    calls of the outline and of the nodal points, the animation clock and
    the canvas sizing) and of [syncParamsToRenderer] of [ui.js].

    Numbers.  JavaScript numbers are idealised as real numbers: [Math.log],
    [Math.exp], [Math.cos], [Math.sqrt] are [ln], [exp], [cos], [sqrt] of the
    Standard Library, and rounding (including the [Float32Array] store of
    the amplitudes), infinities, NaN and the sign of zero are left out.
    Integer-valued quantities (mode indices, array indices, the canvas
    client size and the size of its backing store) are kept as [Z] or [nat]
    and injected with [IZR] / [INR] where the source mixes them with
    fractional numbers.

    Objects.  The entries of the two catalogs are objects that the blend
    descriptor shares with the catalogs and that [updateModeFrequencies]
    writes in place.  The catalogs are the store of these objects, and the
    descriptor the renderer holds refers to them by catalog and position
    ([ModeRef], [BlendObject]); [BlendInfo] is a descriptor as it is read
    in a given state. *)

From Stdlib Require Import Reals Lra Lia ZArith List Bool Permutation.
From Stdlib Require Import Sorting.Sorted.
Import ListNotations.

Open Scope R_scope.

(* ================================================================= *)
(** ** The [Math] functions used by the source *)

Module Math.

Definition max (a b : R) : R := Rmax a b.
Definition min (a b : R) : R := Rmin a b.
Definition abs (a : R) : R := Rabs a.
Definition log (a : R) : R := ln a.
Definition floor (a : R) : Z := Zfloor a.

(** [Math.hypot(x, y)]: the square root of the sum of the squares. *)
Definition hypot (x y : R) : R := sqrt (x * x + y * y).

(** [Math.atan2(y, x)]: the angle of the point [(x, y)], in [(-PI, PI]].
    At the origin JavaScript's result depends on the signs of the two
    zeros: [0] (or [-0]) for a positive zero [x], [PI] or [- PI] for a
    negative zero [x]; and on the negative [x] axis it is [- PI] for
    [y = -0], where the model, which has one zero, gives [PI].  The source
    uses the angle only under the cosine of a whole multiple of it, which is
    the same for [PI] and [- PI].  The model takes [atan2(0, 0) = 0]; what
    is stated of the centre of the circular plate is stated for each of the
    three angles. *)
Definition atan2 (y x : R) : R :=
  if Rlt_dec 0 x then atan (y / x)
  else if Rlt_dec x 0 then
    (if Rle_dec 0 y then atan (y / x) + PI else atan (y / x) - PI)
  else if Rlt_dec 0 y then PI / 2
  else if Rlt_dec y 0 then - (PI / 2)
  else 0.

End Math.

(** [x || d] on numbers: [d] replaces a falsy [x], that is [0]. *)
Definition orElse (x d : R) : R := if Req_dec_T x 0 then d else x.

(** [a[i]] on an array, [undefined] (here [None]) out of range. *)
Definition at_index {A : Type} (a : list A) (i : Z) : option A :=
  if (i <? 0)%Z then None else nth_error a (Z.to_nat i).

(* ================================================================= *)
(** ** render.js: constants *)

Definition F_MIN : R := 20.
Definition F_MAX : R := 20000.
Definition LOG_F_MIN : R := Math.log F_MIN.
Definition LOG_F_MAX : R := Math.log F_MAX.

(* ================================================================= *)
(** ** Mode records

    [Entry] is an element of [tmp] before the frequency loop
    ([{ m, n, modeIndex }]); [Mode.t] is the finished catalog entry.  The
    second index is the property [n] of a square mode and the property
    [nRadial] of a circular one. *)

Module Entry.
Record t : Type := mk { m : Z; n : Z; modeIndex : R }.
End Entry.

Module Mode.
Record t : Type := mk {
  m : Z;
  n : Z;
  modeIndex : R;
  baseFreq : R;
  eigenFreq : R
}.
Definition nRadial (md : t) : Z := n md.
End Mode.

(* ================================================================= *)
(** ** [Array.prototype.sort] with a numeric comparator

    The runtime's sort is stable (ECMAScript 2019); for a comparator that
    is a difference of keys its result is the stable ordering by key.  It is
    modelled by the stable insertion sort: [x] goes before the first [y]
    with [cmp x y <= 0]. *)

Section Sort.
Context {A : Type} (cmp : A -> A -> R).

Fixpoint sort_insert (x : A) (l : list A) : list A :=
  match l with
  | [] => [x]
  | y :: r => if Rle_dec (cmp x y) 0 then x :: y :: r
              else y :: sort_insert x r
  end.

Fixpoint array_sort (l : list A) : list A :=
  match l with
  | [] => []
  | x :: r => sort_insert x (array_sort r)
  end.
End Sort.

(* ================================================================= *)
(** ** Catalog construction *)

(** The integers [lo, lo+1, ..., hi] walked by [for (let k = lo; k <= hi; k++)]. *)
Definition range (lo : Z) (hi : nat) : list Z :=
  map (fun k => (lo + Z.of_nat k)%Z) (seq 0 (Z.to_nat (Z.of_nat hi - lo + 1))).

Definition modeIndexOf (a b : Z) : R := sqrt (IZR a * IZR a + IZR b * IZR b).

Definition byModeIndex (a b : Entry.t) : R :=
  Entry.modeIndex a - Entry.modeIndex b.

(** The frequency loop [for (let i = 0; i < N; i++)] over the sorted [tmp]. *)
Definition baseFreqAt (N i : nat) : R :=
  let t := if (1 <? N)%nat then INR i / (INR N - 1) else 0 in
  let logF := LOG_F_MIN + t * (LOG_F_MAX - LOG_F_MIN) in
  exp logF.

Fixpoint assignFrom (N i : nat) (tmp : list Entry.t) : list Mode.t :=
  match tmp with
  | [] => []
  | e :: r =>
      let baseFreq := baseFreqAt N i in
      Mode.mk (Entry.m e) (Entry.n e) (Entry.modeIndex e) baseFreq baseFreq
        :: assignFrom N (S i) r
  end.

Definition assignFrequencies (tmp : list Entry.t) : list Mode.t :=
  assignFrom (length tmp) 0 tmp.

Definition squareEntries (maxM maxN : nat) : list Entry.t :=
  flat_map (fun m =>
    flat_map (fun n =>
      if (m =? n)%Z then []
      else [Entry.mk m n (modeIndexOf m n)])
      (range 1 maxN))
    (range 1 maxM).

Definition buildSquareModes (maxM maxN : nat) : list Mode.t :=
  assignFrequencies (array_sort byModeIndex (squareEntries maxM maxN)).

Definition circleEntries (maxM maxRadial : nat) : list Entry.t :=
  flat_map (fun m =>
    flat_map (fun nRadial => [Entry.mk m nRadial (modeIndexOf m nRadial)])
      (range 1 maxRadial))
    (range 0 maxM).

Definition buildCircleModes (maxM maxRadial : nat) : list Mode.t :=
  assignFrequencies (array_sort byModeIndex (circleEntries maxM maxRadial)).

(* ================================================================= *)
(** ** physics.js *)

Definition squareModeDisplacement (xNorm yNorm : R) (m n : Z) : R :=
  let X := (xNorm + 1) * 0.5 in
  let Y := (yNorm + 1) * 0.5 in
  if (m =? n)%Z then 0
  else
    let term1 := cos (IZR n * PI * X) * cos (IZR m * PI * Y) in
    let term2 := cos (IZR m * PI * X) * cos (IZR n * PI * Y) in
    term1 - term2.

Definition F0_SQUARE : R := 80.

Definition squareEigenFreq (m n : Z) (plateSize : R) : R :=
  let k := sqrt (IZR m * IZR m + IZR n * IZR n) in
  let L := plateSize in
  (F0_SQUARE * k) / L.

Definition F0_CIRCLE : R := 90.

Definition radialMode (r : R) (nRadial : Z) : R :=
  cos (IZR nRadial * PI * r) * exp (- 1.2 * r * r).

Definition circleModeDisplacement (xNorm yNorm : R) (m nRadial : Z) : R :=
  let r := Math.hypot xNorm yNorm in
  if Rlt_dec 1 r then 0
  else
    let theta := Math.atan2 yNorm xNorm in
    let angular := cos (IZR m * theta) in
    radialMode r nRadial * angular.

Definition circleEigenFreq (m nRadial : Z) (plateSize : R) : R :=
  let k := sqrt (IZR m * IZR m + IZR nRadial * IZR nRadial) in
  let R := plateSize in
  (F0_CIRCLE * k) / R.

(* ================================================================= *)
(** ** render.js: the renderer state

    Only the fields read or written by the computational methods are kept
    (the 2D context, the animation handle and the clock are drawing state).
    [shape] is a string in the source, compared with ["square"] only: every
    other value takes the circular branch. *)

Inductive Shape : Type := square | circle.

Module Params.
Record t : Type := mk { shape : Shape; plateSize : R; freqHz : R }.
End Params.

(** The fields of a blend descriptor as they are read in a given state:
    [mode0] and [mode1] are the fields of the two objects at that moment. *)
Module BlendInfo.
Record t : Type := mk {
  shape : Shape;
  freqHz : R;
  plateSize : R;
  mode0 : option Mode.t;
  mode1 : option Mode.t;
  alpha : R
}.
End BlendInfo.

(** A catalog object.  The two arrays are built once, by the constructor
    (lines 99-100); afterwards no entry is added, removed, replaced or moved,
    and only the [eigenFreq] of the entries is written (lines 132-137).  An
    object of a catalog is therefore identified by its array and its
    position in it. *)
Module ModeRef.
Record t : Type := mk { catalog : Shape; index : nat }.
End ModeRef.

(** The descriptor object [computeBlendInfo] returns and [this.blendInfo]
    holds: its [mode0] and [mode1] are the catalog's own objects
    ([modes[i0]], [modes[i1]], lines 205-208), not copies of them, so a
    later write to a catalog entry is seen through the descriptor. *)
Module BlendObject.
Record t : Type := mk {
  shape : Shape;
  freqHz : R;
  plateSize : R;
  mode0 : option ModeRef.t;
  mode1 : option ModeRef.t;
  alpha : R
}.
End BlendObject.

Module Renderer.
Record t : Type := mk {
  clientWidth : Z;           (* this.canvas.clientWidth *)
  clientHeight : Z;          (* this.canvas.clientHeight *)
  resolution : nat;
  nodeThreshold : R;
  params : Params.t;
  cx : R;
  cy : R;
  halfPlatePix : R;
  nodalPoints : list R;      (* px0, py0, px1, py1, ... *)
  squareModes : list Mode.t;
  circleModes : list Mode.t;
  blendInfo : option BlendObject.t
}.
End Renderer.

(** Reading through a reference: the object's fields in the state [st]. *)
Definition catalogOf (st : Renderer.t) (shape : Shape) : list Mode.t :=
  match shape with
  | square => Renderer.squareModes st
  | circle => Renderer.circleModes st
  end.

Definition modeAt (st : Renderer.t) (r : ModeRef.t) : option Mode.t :=
  nth_error (catalogOf st (ModeRef.catalog r)) (ModeRef.index r).

Definition readMode (st : Renderer.t) (r : option ModeRef.t) : option Mode.t :=
  match r with
  | Some r => modeAt st r
  | None => None
  end.

Definition readBlend (st : Renderer.t) (b : BlendObject.t) : BlendInfo.t :=
  BlendInfo.mk (BlendObject.shape b) (BlendObject.freqHz b)
    (BlendObject.plateSize b)
    (readMode st (BlendObject.mode0 b)) (readMode st (BlendObject.mode1 b))
    (BlendObject.alpha b).

(** [this.blendInfo] as read in the state [st]. *)
Definition storedBlend (st : Renderer.t) : option BlendInfo.t :=
  match Renderer.blendInfo st with
  | Some b => Some (readBlend st b)
  | None => None
  end.

(** The state left by the constructor, before its first
    [updateModeFrequencies] and [recomputeField], on a canvas of the given
    client size. *)
Definition constructed (clientWidth clientHeight : Z) : Renderer.t :=
  Renderer.mk clientWidth clientHeight 320 0.08
    (Params.mk square 0.9 440)
    0 0 0 []
    (buildSquareModes 7 7) (buildCircleModes 7 7)
    None.

(* ----------------------------------------------------------------- *)
(** *** updateModeFrequencies

    The write [m.eigenFreq = ...] goes to the objects of the two arrays.
    [this.blendInfo] is not assigned, so it holds the same two objects as
    before, and reading it afterwards ([storedBlend]) shows the new
    [eigenFreq]. *)

Definition rescale (scale : R) (m : Mode.t) : Mode.t :=
  Mode.mk (Mode.m m) (Mode.n m) (Mode.modeIndex m) (Mode.baseFreq m)
    (Mode.baseFreq m * scale).

Definition updateModeFrequencies (st : Renderer.t) : Renderer.t :=
  let L := orElse (Params.plateSize (Renderer.params st)) 1 in
  let scale := 1 / (L * L) in
  Renderer.mk
    (Renderer.clientWidth st) (Renderer.clientHeight st)
    (Renderer.resolution st) (Renderer.nodeThreshold st)
    (Renderer.params st)
    (Renderer.cx st) (Renderer.cy st) (Renderer.halfPlatePix st)
    (Renderer.nodalPoints st)
    (map (rescale scale) (Renderer.squareModes st))
    (map (rescale scale) (Renderer.circleModes st))
    (Renderer.blendInfo st).

(* ----------------------------------------------------------------- *)
(** *** computeBlendInfo *)

Definition activeModes (st : Renderer.t) : list Mode.t :=
  match Params.shape (Renderer.params st) with
  | square => Renderer.squareModes st
  | circle => Renderer.circleModes st
  end.

Definition effectiveSize (pr : Params.t) : R := orElse (Params.plateSize pr) 1.

Definition driveFrequency (pr : Params.t) : R :=
  Math.max F_MIN (Math.min F_MAX (Params.freqHz pr)).

(** The interpolation index [p] of a catalog of [N] modes (lines 188-199). *)
Definition blendPosition (pr : Params.t) (N : nat) : R :=
  let plateSize := effectiveSize pr in
  let driveHz := driveFrequency pr in
  let fBase := driveHz * plateSize * plateSize in
  let logFBase := Math.log (Math.max F_MIN (Math.min F_MAX fBase)) in
  let t := (logFBase - LOG_F_MIN) / (LOG_F_MAX - LOG_F_MIN) in
  let tClamped := Math.max 0 (Math.min 1 t) in
  tClamped * (INR N - 1).

(** [computeBlendInfo], by the fields of the descriptor it returns, read
    when it returns. *)
Definition computeBlendInfo (st : Renderer.t) : BlendInfo.t :=
  let pr := Renderer.params st in
  let shape := Params.shape pr in
  let modes := activeModes st in
  let N := length modes in
  if (N =? 0)%nat then
    BlendInfo.mk shape (Params.freqHz pr) (Params.plateSize pr) None None 0
  else
    let p := blendPosition pr N in
    let i0 := Math.floor p in
    let i1 := Z.min (i0 + 1) (Z.of_nat N - 1) in
    let alpha := p - IZR i0 in
    BlendInfo.mk shape (driveFrequency pr) (effectiveSize pr)
      (at_index modes i0) (at_index modes i1) alpha.

(** [modes[i]] as an object: the entry at position [i] of the catalog of
    that shape, [undefined] out of range. *)
Definition objectAt (shape : Shape) (modes : list Mode.t) (i : Z)
    : option ModeRef.t :=
  match at_index modes i with
  | Some _ => Some (ModeRef.mk shape (Z.to_nat i))
  | None => None
  end.

(** [computeBlendInfo], by the descriptor object it returns. *)
Definition computeBlendObject (st : Renderer.t) : BlendObject.t :=
  let pr := Renderer.params st in
  let shape := Params.shape pr in
  let modes := activeModes st in
  let N := length modes in
  if (N =? 0)%nat then
    BlendObject.mk shape (Params.freqHz pr) (Params.plateSize pr) None None 0
  else
    let p := blendPosition pr N in
    let i0 := Math.floor p in
    let i1 := Z.min (i0 + 1) (Z.of_nat N - 1) in
    let alpha := p - IZR i0 in
    BlendObject.mk shape (driveFrequency pr) (effectiveSize pr)
      (objectAt shape modes i0) (objectAt shape modes i1) alpha.

(* ----------------------------------------------------------------- *)
(** *** recomputeField *)

Definition Rleb (a b : R) : bool := if Rle_dec a b then true else false.

(** [step = 2 / (res - 1)].  With [res = 1] the source divides by zero and
    the coordinates are not numbers; the grid is modelled for the other
    resolutions. *)
Definition gridStep (res : nat) : R := 2 / (INR res - 1).

Definition gridCoord (res k : nat) : R := -1 + INR k * gridStep res.

(** The pairs [(j, i)] in the order of the two nested loops. *)
Definition gridIndices (res : nat) : list (nat * nat) :=
  flat_map (fun j => map (fun i => (j, i)) (seq 0 res)) (seq 0 res).

Definition insidePlate (shape : Shape) (xNorm yNorm : R) : bool :=
  match shape with
  | square => Rleb (Math.abs xNorm) 1 && Rleb (Math.abs yNorm) 1
  | circle => Rleb (Math.hypot xNorm yNorm) 1
  end.

Definition blendedValue (shape : Shape) (mode0 mode1 : Mode.t) (alpha : R)
    (xNorm yNorm : R) : R :=
  match shape with
  | square =>
      let v0 := squareModeDisplacement xNorm yNorm (Mode.m mode0) (Mode.n mode0) in
      let v1 := squareModeDisplacement xNorm yNorm (Mode.m mode1) (Mode.n mode1) in
      (1 - alpha) * v0 + alpha * v1
  | circle =>
      let v0 := circleModeDisplacement xNorm yNorm (Mode.m mode0) (Mode.nRadial mode0) in
      let v1 := circleModeDisplacement xNorm yNorm (Mode.m mode1) (Mode.nRadial mode1) in
      (1 - alpha) * v0 + alpha * v1
  end.

(** One iteration of the first pair of loops; the state is the prefix of
    [amplitudes] written so far and [maxAbs]. *)
Definition sampleStep (shape : Shape) (mode0 mode1 : Mode.t) (alpha : R)
    (res : nat) (acc : list R * R) (ji : nat * nat) : list R * R :=
  let '(amplitudes, maxAbs) := acc in
  let yNorm := gridCoord res (fst ji) in
  let xNorm := gridCoord res (snd ji) in
  if negb (insidePlate shape xNorm yNorm) then (amplitudes ++ [0], maxAbs)
  else
    let val := blendedValue shape mode0 mode1 alpha xNorm yNorm in
    let absVal := Math.abs val in
    (amplitudes ++ [val], if Rlt_dec maxAbs absVal then absVal else maxAbs).

Definition samplePass (shape : Shape) (mode0 mode1 : Mode.t) (alpha : R)
    (res : nat) : list R * R :=
  fold_left (sampleStep shape mode0 mode1 alpha res) (gridIndices res) ([], 0).

Definition thresholdOf (nodeThreshold maxAbs : R) : R :=
  nodeThreshold * (if Rlt_dec 0 maxAbs then maxAbs else 1).

(** One iteration of the second pair of loops; the state is [idx] and
    [nodalPoints].  A read past the end of [amplitudes] would give
    [undefined], whose comparison fails. *)
Definition collectStep (amplitudes : list R) (threshold cx cy halfPlatePix : R)
    (res : nat) (acc : nat * list R) (ji : nat * nat) : nat * list R :=
  let '(idx, nodalPoints) := acc in
  let yNorm := gridCoord res (fst ji) in
  let xNorm := gridCoord res (snd ji) in
  match nth_error amplitudes idx with
  | Some val =>
      if Rleb (Math.abs val) threshold then
        let px := cx + xNorm * halfPlatePix in
        let py := cy - yNorm * halfPlatePix in
        (S idx, nodalPoints ++ [px; py])
      else (S idx, nodalPoints)
  | None => (S idx, nodalPoints)
  end.

Definition collectPass (amplitudes : list R) (threshold cx cy halfPlatePix : R)
    (res : nat) : list R :=
  snd (fold_left (collectStep amplitudes threshold cx cy halfPlatePix res)
         (gridIndices res) (0%nat, [])).

(** What one run of the sampling code (lines 222-309) computes. *)
Module Pass.
Record t : Type := mk {
  cx : R;
  cy : R;
  halfPlatePix : R;
  amplitudes : list R;
  maxAbs : R;
  threshold : R;
  nodalPoints : list R
}.
End Pass.

Definition samplingPass (st : Renderer.t) (bi : BlendInfo.t)
    (mode0 mode1 : Mode.t) : Pass.t :=
  let width := IZR (Renderer.clientWidth st) in
  let height := IZR (Renderer.clientHeight st) in
  let minDim := Math.min width height in
  let halfPlatePix := 0.45 * minDim * BlendInfo.plateSize bi in
  let cx := width / 2 in
  let cy := height / 2 in
  let res := Renderer.resolution st in
  let '(amplitudes, maxAbs) :=
    samplePass (BlendInfo.shape bi) mode0 mode1 (BlendInfo.alpha bi) res in
  let threshold := thresholdOf (Renderer.nodeThreshold st) maxAbs in
  Pass.mk cx cy halfPlatePix amplitudes maxAbs threshold
    (collectPass amplitudes threshold cx cy halfPlatePix res).

(** The sampling pass of [recomputeField], [None] on the early return. *)
Definition fieldPass (st : Renderer.t) : option Pass.t :=
  let bi := computeBlendInfo st in
  if (Renderer.clientWidth st =? 0)%Z || (Renderer.clientHeight st =? 0)%Z
  then None
  else
    match BlendInfo.mode0 bi, BlendInfo.mode1 bi with
    | Some mode0, Some mode1 => Some (samplingPass st bi mode0 mode1)
    | _, _ => None
    end.

Definition recomputeField (st : Renderer.t) : Renderer.t :=
  let blendInfo := computeBlendObject st in
  match fieldPass st with
  | None =>
      Renderer.mk
        (Renderer.clientWidth st) (Renderer.clientHeight st)
        (Renderer.resolution st) (Renderer.nodeThreshold st)
        (Renderer.params st)
        (Renderer.cx st) (Renderer.cy st) (Renderer.halfPlatePix st)
        []
        (Renderer.squareModes st) (Renderer.circleModes st)
        (Some blendInfo)
  | Some ps =>
      Renderer.mk
        (Renderer.clientWidth st) (Renderer.clientHeight st)
        (Renderer.resolution st) (Renderer.nodeThreshold st)
        (Renderer.params st)
        (Pass.cx ps) (Pass.cy ps) (Pass.halfPlatePix ps)
        (Pass.nodalPoints ps)
        (Renderer.squareModes st) (Renderer.circleModes st)
        (Some blendInfo)
  end.

(** The renderer the constructor returns: the catalogs are rescaled for the
    initial plate size and the field is computed once. *)
Definition newRenderer (clientWidth clientHeight : Z) : Renderer.t :=
  recomputeField (updateModeFrequencies (constructed clientWidth clientHeight)).

(* ----------------------------------------------------------------- *)
(** *** updateParams

    [newParams] carries any subset of the three parameters. *)

Module NewParams.
Record t : Type := mk {
  shape : option Shape;
  plateSize : option R;
  freqHz : option R
}.
End NewParams.

Definition assignParams (pr : Params.t) (np : NewParams.t) : Params.t :=
  Params.mk
    (match NewParams.shape np with Some s => s | None => Params.shape pr end)
    (match NewParams.plateSize np with Some s => s | None => Params.plateSize pr end)
    (match NewParams.freqHz np with Some f => f | None => Params.freqHz pr end).

Definition withParams (st : Renderer.t) (pr : Params.t) : Renderer.t :=
  Renderer.mk
    (Renderer.clientWidth st) (Renderer.clientHeight st)
    (Renderer.resolution st) (Renderer.nodeThreshold st)
    pr
    (Renderer.cx st) (Renderer.cy st) (Renderer.halfPlatePix st)
    (Renderer.nodalPoints st)
    (Renderer.squareModes st) (Renderer.circleModes st)
    (Renderer.blendInfo st).

Definition updateParams (st : Renderer.t) (newParams : NewParams.t) : Renderer.t :=
  let oldSize := Params.plateSize (Renderer.params st) in
  let st1 := withParams st (assignParams (Renderer.params st) newParams) in
  let st2 :=
    match NewParams.plateSize newParams with
    | Some s => if Req_dec_T s oldSize then st1 else updateModeFrequencies st1
    | None => st1
    end in
  recomputeField st2.

(* ----------------------------------------------------------------- *)
(** *** getActiveModeSummary *)

Module Weighted.
(** [{ ...mode, weight }] *)
Record t : Type := mk { mode : Mode.t; weight : R }.
End Weighted.

Module Summary.
Record t : Type := mk {
  shape : Shape;
  freqHz : R;
  plateSize : R;
  alpha : R;
  mode0 : option Mode.t;
  mode1 : option Mode.t;
  primaryMode : option Weighted.t;
  secondaryMode : option Weighted.t;
  closestMode : option Mode.t;
  closestEigenFreq : option R;
  detuning : option R
}.
End Summary.

(** The scan for the closest eigenfrequency; [bestDiff = None] is the
    initial [Infinity]. *)
Definition closestStep (freqHz : R) (acc : option Mode.t * option R)
    (m : Mode.t) : option Mode.t * option R :=
  let '(closest, bestDiff) := acc in
  let diff := Math.abs (Mode.eigenFreq m - freqHz) in
  match bestDiff with
  | None => (Some m, Some diff)
  | Some best => if Rlt_dec diff best then (Some m, Some diff)
                 else (closest, bestDiff)
  end.

Definition labelModes (mode0 mode1 : option Mode.t) (alpha : R)
    : option Weighted.t * option Weighted.t :=
  match mode0, mode1 with
  | Some mode0, Some mode1 =>
      if Rlt_dec alpha 0.5 then
        (Some (Weighted.mk mode0 (1 - alpha)), Some (Weighted.mk mode1 alpha))
      else
        (Some (Weighted.mk mode1 alpha), Some (Weighted.mk mode0 (1 - alpha)))
  | _, _ => (None, None)
  end.

(** The blend descriptor the summary is made from, as the method reads it:
    the stored one, or a fresh one when none is stored (the method then
    stores it, which does not change what it returns). *)
Definition currentBlend (st : Renderer.t) : BlendInfo.t :=
  match storedBlend st with
  | Some bi => bi
  | None => computeBlendInfo st
  end.

Definition getActiveModeSummary (st : Renderer.t) : Summary.t :=
  let bi := currentBlend st in
  let shape := BlendInfo.shape bi in
  let freqHz := BlendInfo.freqHz bi in
  let alpha := BlendInfo.alpha bi in
  let modes :=
    match shape with
    | square => Renderer.squareModes st
    | circle => Renderer.circleModes st
    end in
  let '(closest, bestDiff) := fold_left (closestStep freqHz) modes (None, None) in
  let '(primary, secondary) :=
    labelModes (BlendInfo.mode0 bi) (BlendInfo.mode1 bi) alpha in
  Summary.mk shape freqHz (BlendInfo.plateSize bi) alpha
    (BlendInfo.mode0 bi) (BlendInfo.mode1 bi)
    primary secondary
    closest
    (match closest with Some c => Some (Mode.eigenFreq c) | None => None end)
    (match closest with Some _ => bestDiff | None => None end).

(* ================================================================= *)
(** ** Predicates and concrete states used in the statements *)

Definition emptyCatalogState (f L : R) : Renderer.t :=
  Renderer.mk 600 400 320 0.08 (Params.mk circle L f) 0 0 0 [1; 2] [] [] None.

(** What a rescaling by plate size [L] does to one catalog entry. *)
Definition rescaled (L : R) (old new : Mode.t) : Prop :=
  Mode.eigenFreq new = Mode.baseFreq old / L ^ 2 /\
  Mode.baseFreq new = Mode.baseFreq old /\
  Mode.m new = Mode.m old /\
  Mode.n new = Mode.n old /\
  Mode.modeIndex new = Mode.modeIndex old.

(** What a rescaling by plate size [L] does to what a reference designates:
    the object it designated before, rescaled. *)
Definition rescaledThrough (L : R) (old new : option Mode.t) : Prop :=
  match old, new with
  | Some a, Some b => rescaled L a b
  | None, None => True
  | _, _ => False
  end.

(** The first two entries of the square catalog, rescaled for the plate
    size [0.9], and a renderer whose stored descriptor holds these two
    objects with the given [alpha]. *)
Definition tieMode0 : Mode.t :=
  Mode.mk 1 2 (modeIndexOf 1 2) (baseFreqAt 42 0) (baseFreqAt 42 0 / 0.9 ^ 2).
Definition tieMode1 : Mode.t :=
  Mode.mk 2 1 (modeIndexOf 2 1) (baseFreqAt 42 1) (baseFreqAt 42 1 / 0.9 ^ 2).

Definition tieState (alpha : R) : Renderer.t :=
  Renderer.mk 600 400 320 0.08 (Params.mk square 0.9 440) 300 200 162 []
    (map (rescale (1 / (0.9 * 0.9))) (buildSquareModes 7 7))
    (map (rescale (1 / (0.9 * 0.9))) (buildCircleModes 7 7))
    (Some (BlendObject.mk square 440 0.9
             (Some (ModeRef.mk square 0)) (Some (ModeRef.mk square 1)) alpha)).

(** The entries of key [k]. *)
Definition hasKey {A : Type} (key : A -> R) (k : R) (a : A) : bool :=
  if Req_dec_T (key a) k then true else false.

(** The [{ m, n, modeIndex }] part of a catalog entry. *)
Definition entryOf (md : Mode.t) : Entry.t :=
  Entry.mk (Mode.m md) (Mode.n md) (Mode.modeIndex md).

(** A catalog [catalog] built from the enumeration [entries]: its
    [modeIndex] sequence is non-decreasing, every [modeIndex] is the square
    root of the sum of the squares of the two indices, and the entries of
    any one [modeIndex] are those of the enumeration, in the same order. *)
Definition sortedCatalog (entries : list Entry.t) (catalog : list Mode.t) : Prop :=
  (forall i j a b, (i <= j)%nat ->
     nth_error catalog i = Some a -> nth_error catalog j = Some b ->
     Mode.modeIndex a <= Mode.modeIndex b) /\
  (forall md, In md catalog ->
     Mode.modeIndex md = sqrt (IZR (Mode.m md) ^ 2 + IZR (Mode.n md) ^ 2)) /\
  Permutation entries (map entryOf catalog) /\
  (forall k, filter (hasKey Entry.modeIndex k) (map entryOf catalog)
             = filter (hasKey Entry.modeIndex k) entries).

(** A catalog of [N] modes with log-uniform base frequencies. *)
Definition logUniformCatalog (catalog : list Mode.t) : Prop :=
  forall i md, nth_error catalog i = Some md ->
    (i <= length catalog - 1)%nat /\
    (length catalog <> 1%nat ->
     Mode.baseFreq md
       = exp (ln 20 + INR i / (INR (length catalog) - 1) * (ln 20000 - ln 20))) /\
    (length catalog = 1%nat -> Mode.baseFreq md = 20) /\
    Mode.eigenFreq md = Mode.baseFreq md.

(** The enumeration and the sort on the integer pairs alone: the sort key is
    the sum of the squares. *)
Definition mkEntry (p : Z * Z) : Entry.t :=
  Entry.mk (fst p) (snd p) (modeIndexOf (fst p) (snd p)).

Definition sumSquares (p : Z * Z) : Z := (fst p * fst p + snd p * snd p)%Z.

Definition squarePairs (maxM maxN : nat) : list (Z * Z) :=
  flat_map (fun m =>
    flat_map (fun n => if (m =? n)%Z then [] else [(m, n)]) (range 1 maxN))
    (range 1 maxM).

Definition circlePairs (maxM maxRadial : nat) : list (Z * Z) :=
  flat_map (fun m => flat_map (fun nRadial => [(m, nRadial)]) (range 1 maxRadial))
    (range 0 maxM).

Fixpoint insertPair (x : Z * Z) (l : list (Z * Z)) : list (Z * Z) :=
  match l with
  | [] => [x]
  | y :: r => if (sumSquares x <=? sumSquares y)%Z then x :: y :: r
              else y :: insertPair x r
  end.

Fixpoint sortPairs (l : list (Z * Z)) : list (Z * Z) :=
  match l with
  | [] => []
  | x :: r => insertPair x (sortPairs r)
  end.

(** The amplitude the first pass stores for the grid point [(j, i)]. *)
Definition sampleValue (shape : Shape) (mode0 mode1 : Mode.t) (alpha : R)
    (res : nat) (ji : nat * nat) : R :=
  let yNorm := gridCoord res (fst ji) in
  let xNorm := gridCoord res (snd ji) in
  if insidePlate shape xNorm yNorm
  then blendedValue shape mode0 mode1 alpha xNorm yNorm
  else 0.

(** What the second pass pushes for the grid point [(j, i)] whose stored
    amplitude is [val]. *)
Definition pushed (threshold cx cy halfPlatePix : R) (res : nat)
    (ji : nat * nat) (val : R) : list R :=
  if Rleb (Math.abs val) threshold
  then [cx + gridCoord res (snd ji) * halfPlatePix;
        cy - gridCoord res (fst ji) * halfPlatePix]
  else [].

(** [(px, py)] is one of the points of the flat array [pts], as
    [drawNodalPoints] reads it: [pts[2k]] and [pts[2k+1]]. *)
Definition holdsPoint (pts : list R) (px py : R) : Prop :=
  exists k : nat,
    nth_error pts (2 * k) = Some px /\ nth_error pts (2 * k + 1) = Some py.

(** The catalog entry of indices [(m, n)] at position [k] of [N], as it is
    right after construction. *)
Definition catalogMode (N k : nat) (m n : Z) : Mode.t :=
  Mode.mk m n (modeIndexOf m n) (baseFreqAt N k) (baseFreqAt N k).

(** A renderer with the constructor's catalogs and threshold fraction, on
    the circular plate of size [1] driven at [20] Hz, sampled on a
    [res] x [res] grid, on a canvas of the given client size. *)
Definition circleAt20 (clientWidth clientHeight : Z) (res : nat) : Renderer.t :=
  Renderer.mk clientWidth clientHeight res 0.08 (Params.mk circle 1 20)
    0 0 0 [] (buildSquareModes 7 7) (buildCircleModes 7 7) None.

(* ----------------------------------------------------------------- *)
(** *** drawOutline

    The path that is stroked; the line width and the colour are left out. *)

Inductive Outline : Type :=
| StrokeRect (x y w h : R)
| StrokeArc (x y radius startAngle endAngle : R).

Definition drawOutline (st : Renderer.t) : Outline :=
  let shape := Params.shape (Renderer.params st) in
  let cx := Renderer.cx st in
  let cy := Renderer.cy st in
  let half := Renderer.halfPlatePix st in
  match shape with
  | square => StrokeRect (cx - half) (cy - half) (2 * half) (2 * half)
  | circle => StrokeArc cx cy half 0 (PI * 2)
  end.

(* ----------------------------------------------------------------- *)
(** *** drawNodalPoints

    The rectangles that are filled, in order, for the dot size [dot]
    ([this.dotSize]).  A last point without its second coordinate would be
    filled with a coordinate that is not a number, which draws nothing. *)

Module Rect.
Record t : Type := mk { x : R; y : R; w : R; h : R }.
End Rect.

Fixpoint fillRects (dot : R) (points : list R) : list Rect.t :=
  match points with
  | x :: y :: rest =>
      Rect.mk (x - dot * 0.5) (y - dot * 0.5) dot dot :: fillRects dot rest
  | _ => []
  end.

Definition drawNodalPoints (dot : R) (st : Renderer.t) : list Rect.t :=
  fillRects dot (Renderer.nodalPoints st).

(** The grid points whose stored amplitude passes the test of the second
    pass, in grid order. *)
Definition nodalGrid (amplitudes : list R) (threshold : R) (res : nat)
    : list (nat * nat) :=
  filter (fun ji =>
            match nth_error amplitudes (fst ji * res + snd ji) with
            | Some val => Rleb (Math.abs val) threshold
            | None => false
            end)
    (gridIndices res).

(** The canvas position of the grid point [(j, i)]. *)
Definition canvasPoint (cx cy halfPlatePix : R) (res : nat) (ji : nat * nat)
    : R * R :=
  (cx + gridCoord res (snd ji) * halfPlatePix,
   cy - gridCoord res (fst ji) * halfPlatePix).

(* ----------------------------------------------------------------- *)
(** *** ui.js: syncParamsToRenderer

    The renderer part: the three controls are read and passed on together
    ([updateModeInfo] then formats [getActiveModeSummary] for display). *)

Definition syncParamsToRenderer (st : Renderer.t) (shape : Shape)
    (plateSize freqHz : R) : Renderer.t :=
  updateParams st (NewParams.mk (Some shape) (Some plateSize) (Some freqHz)).

(** The distance the summary's scan minimises. *)
Definition detuningOf (freqHz : R) (m : Mode.t) : R :=
  Math.abs (Mode.eigenFreq m - freqHz).

(** The catalog the summary scans: the one of the descriptor's shape. *)
Definition summaryModes (st : Renderer.t) : list Mode.t :=
  match BlendInfo.shape (currentBlend st) with
  | square => Renderer.squareModes st
  | circle => Renderer.circleModes st
  end.

(* ----------------------------------------------------------------- *)
(** *** updateCanvasSize

    [pixelRatio] is [window.devicePixelRatio || 1].  The result is the size
    of the backing store after the two assignments and the scale left on
    the context by [setTransform(1, 0, 0, 1, 0, 0)] followed by
    [scale(pixelRatio, pixelRatio)].

    [canvas.width] and [canvas.height] are [unsigned long] attributes of the
    DOM.  The number assigned is converted as Web IDL prescribes: truncated
    towards zero and taken modulo [2^32]; and, the attribute reflecting a
    content attribute, a value above 2147483647 is replaced by the
    attribute's default, 300 for the width and 150 for the height. *)

Module Canvas.
Record t : Type := mk { width : Z; height : Z; scaleX : R; scaleY : R }.
End Canvas.

Definition pixelRatioOf (devicePixelRatio : R) : R := orElse devicePixelRatio 1.

Definition toUnsignedLong (x : R) : Z :=
  ((if Rle_dec 0 x then Zfloor x else Zceil x) mod 2 ^ 32)%Z.

Definition setDimension (default : Z) (x : R) : Z :=
  let v := toUnsignedLong x in
  if (v <=? 2147483647)%Z then v else default.

Definition updateCanvasSize (clientWidth clientHeight : Z) (pixelRatio : R)
    : Canvas.t :=
  let cssWidth := orElse (IZR clientWidth) 600 in
  let cssHeight := orElse (IZR clientHeight) 400 in
  Canvas.mk (setDimension 300 (cssWidth * pixelRatio))
    (setDimension 150 (cssHeight * pixelRatio))
    (1 * pixelRatio) (1 * pixelRatio).

(* ----------------------------------------------------------------- *)
(** *** start, stop, loop

    The animation fields of the renderer, which no other method touches.
    Each method returns the new fields and the calls it makes on the window;
    [handle] is what [requestAnimationFrame] returns if it is called. *)

Module Animation.
Record t : Type := mk {
  time : R;
  lastTimestamp : option R;
  animationFrameId : option Z
}.
End Animation.

Inductive FrameCall : Type :=
| RequestAnimationFrame
| CancelAnimationFrame (id : Z).

Definition start (an : Animation.t) (handle : Z) : Animation.t * list FrameCall :=
  match Animation.animationFrameId an with
  | None => (Animation.mk (Animation.time an) None (Some handle),
             [RequestAnimationFrame])
  | Some _ => (an, [])
  end.

Definition stop (an : Animation.t) : Animation.t * list FrameCall :=
  match Animation.animationFrameId an with
  | Some id => (Animation.mk (Animation.time an) (Animation.lastTimestamp an) None,
                [CancelAnimationFrame id])
  | None => (an, [])
  end.

Definition loop (an : Animation.t) (timestamp : R) (handle : Z)
    : Animation.t * list FrameCall :=
  let lastTimestamp :=
    match Animation.lastTimestamp an with
    | None => timestamp
    | Some l => l
    end in
  let dt := (timestamp - lastTimestamp) / 1000 in
  (Animation.mk (Animation.time an + dt) (Some timestamp) (Some handle),
   [RequestAnimationFrame]).

(** The frames fired one after the other, each with its timestamp and the
    handle its request returns. *)
Definition frames (an : Animation.t) (fired : list (R * Z)) : Animation.t :=
  fold_left (fun a th => fst (loop a (fst th) (snd th))) fired an.

(* ================================================================= *)
(** * Properties *)

(* ----------------------------------------------------------------- *)
(** ** Helper facts on the numeric layer *)

Lemma clamp_le (lo hi a b : R) :
  a <= b -> Math.max lo (Math.min hi a) <= Math.max lo (Math.min hi b).
Proof.
  intros Hab. unfold Math.max, Math.min, Rmax, Rmin.
  repeat destruct (Rle_dec _ _); lra.
Qed.

Lemma clamp_lower (lo hi a : R) : lo <= Math.max lo (Math.min hi a).
Proof. unfold Math.max. apply Rmax_l. Qed.

Lemma clamp_inside (lo hi a : R) :
  lo <= a <= hi -> Math.max lo (Math.min hi a) = a.
Proof.
  intros [H1 H2]. unfold Math.max, Math.min, Rmax, Rmin.
  repeat destruct (Rle_dec _ _); lra.
Qed.

Lemma log_span_pos : 0 < LOG_F_MAX - LOG_F_MIN.
Proof.
  unfold LOG_F_MAX, LOG_F_MIN, Math.log, F_MAX, F_MIN.
  assert (ln 20 < ln 20000) by (apply ln_increasing; lra). lra.
Qed.

Lemma log_le (a b : R) : 0 < a -> a <= b -> Math.log a <= Math.log b.
Proof.
  intros Ha [Hlt | ->]; [|lra].
  left. now apply ln_increasing.
Qed.

Lemma Rleb_true (a b : R) : Rleb a b = true <-> a <= b.
Proof. unfold Rleb. destruct (Rle_dec a b); split; intros; auto; discriminate. Qed.

Lemma Rleb_false (a b : R) : Rleb a b = false <-> b < a.
Proof.
  unfold Rleb. destruct (Rle_dec a b); split; intros; auto; try discriminate; lra.
Qed.

(* ----------------------------------------------------------------- *)
(** ** The model of [Math.atan2] is the polar angle *)

Lemma hypot_factor (x y : R) :
  x <> 0 -> Math.hypot x y = Rabs x * sqrt (1 + (y / x)²).
Proof.
  intros Hx. unfold Math.hypot.
  replace (x * x + y * y) with (x² * (1 + (y / x)²))
    by (unfold Rsqr; field; exact Hx).
  pose proof (Rle_0_sqr x). pose proof (Rle_0_sqr (y / x)).
  rewrite sqrt_mult by lra. now rewrite sqrt_Rsqr_abs.
Qed.

Lemma atan2_polar (x y : R) :
  Math.hypot x y * cos (Math.atan2 y x) = x /\
  Math.hypot x y * sin (Math.atan2 y x) = y.
Proof.
  unfold Math.atan2.
  destruct (Rlt_dec 0 x) as [Hpos | Hnpos]; [| destruct (Rlt_dec x 0) as [Hneg | Hnneg]].
  - rewrite hypot_factor by lra. rewrite cos_atan, sin_atan, Rabs_pos_eq by lra.
    pose proof (Rle_0_sqr (y / x)).
    assert (Hs : 0 < sqrt (1 + (y / x)²)) by (apply sqrt_lt_R0; lra).
    split; field; lra.
  - rewrite hypot_factor by lra. rewrite Rabs_left by lra.
    pose proof (Rle_0_sqr (y / x)).
    assert (Hs : 0 < sqrt (1 + (y / x)²)) by (apply sqrt_lt_R0; lra).
    destruct (Rle_dec 0 y).
    + rewrite neg_cos, neg_sin, cos_atan, sin_atan. split; field; lra.
    + unfold Rminus. rewrite cos_plus, sin_plus, cos_neg, sin_neg.
      rewrite cos_PI, sin_PI, cos_atan, sin_atan. split; field; lra.
  - assert (x = 0) as -> by lra.
    unfold Math.hypot. replace (0 * 0 + y * y) with (y * y) by ring.
    destruct (Rlt_dec 0 y) as [Hy | Hy]; [| destruct (Rlt_dec y 0) as [Hy' | Hy']].
    + rewrite sqrt_square by lra. rewrite cos_PI2, sin_PI2. split; ring.
    + replace (y * y) with (- y * - y) by ring. rewrite sqrt_square by lra.
      rewrite cos_neg, sin_neg, cos_PI2, sin_PI2. split; ring.
    + assert (y = 0) as -> by lra.
      rewrite Rmult_0_l, sqrt_0, cos_0, sin_0. split; ring.
Qed.

Lemma atan2_range (x y : R) : - PI < Math.atan2 y x <= PI.
Proof.
  pose proof PI_RGT_0 as Hpi. unfold Math.atan2.
  destruct (Rlt_dec 0 x) as [Hpos | Hnpos]; [| destruct (Rlt_dec x 0) as [Hneg | Hnneg]].
  - pose proof (atan_bound (y / x)). lra.
  - pose proof (atan_bound (y / x)) as Hb.
    destruct (Rle_dec 0 y) as [Hy | Hy].
    + assert (Ht : y / x <= 0).
      { unfold Rdiv. assert (/ x < 0) by (apply Rinv_lt_0_compat; lra). nra. }
      assert (atan (y / x) <= 0).
      { destruct Ht as [Ht | ->]; [| rewrite atan_0; lra].
        rewrite <- atan_0. left. now apply atan_increasing. }
      lra.
    + assert (Ht : 0 < y / x).
      { unfold Rdiv. assert (/ x < 0) by (apply Rinv_lt_0_compat; lra). nra. }
      assert (0 < atan (y / x)).
      { rewrite <- atan_0. now apply atan_increasing. }
      lra.
  - destruct (Rlt_dec 0 y); [lra |]. destruct (Rlt_dec y 0); lra.
Qed.

(* ----------------------------------------------------------------- *)
(** ** physics.js *)

(** C4.  At every normalized point and for all integer indices, the square
    displacement is exactly [0] when [m = n], and otherwise is
    [cos(n pi X) cos(m pi Y) - cos(m pi X) cos(n pi Y)] with [X = (xn+1)/2]
    and [Y = (yn+1)/2]. *)
Theorem squareModeDisplacement_cases (xn yn : R) (m n : Z) :
  (m = n -> squareModeDisplacement xn yn m n = 0) /\
  (m <> n ->
   squareModeDisplacement xn yn m n =
     cos (IZR n * PI * ((xn + 1) / 2)) * cos (IZR m * PI * ((yn + 1) / 2))
     - cos (IZR m * PI * ((xn + 1) / 2)) * cos (IZR n * PI * ((yn + 1) / 2))).
Proof.
  unfold squareModeDisplacement. split; intros H.
  - apply Z.eqb_eq in H. now rewrite H.
  - apply Z.eqb_neq in H. rewrite H.
    replace ((xn + 1) * 0.5) with ((xn + 1) / 2) by lra.
    replace ((yn + 1) * 0.5) with ((yn + 1) / 2) by lra.
    reflexivity.
Qed.

Lemma squareModeDisplacement_cases_witness :
  squareModeDisplacement (1 / 3) (- 1 / 4) 5 5 = 0 /\
  squareModeDisplacement 1 (- 1) 1 2 =
    cos (2 * PI * ((1 + 1) / 2)) * cos (1 * PI * ((- 1 + 1) / 2))
    - cos (1 * PI * ((1 + 1) / 2)) * cos (2 * PI * ((- 1 + 1) / 2)).
Proof.
  split.
  - apply (proj1 (squareModeDisplacement_cases (1 / 3) (- 1 / 4) 5 5)). reflexivity.
  - apply (proj2 (squareModeDisplacement_cases 1 (- 1) 1 2)). lia.
Defined.

(** C5.  At every normalized point and for all integer indices, the circular
    displacement is exactly [0] when [hypot(xn, yn) > 1], and otherwise is
    [cos(m theta) cos(nr pi r) exp(-1.2 r^2)] with [r = hypot(xn, yn)] and
    [theta = atan2(yn, xn)]. *)
Theorem circleModeDisplacement_cases (xn yn : R) (m nr : Z) :
  (Math.hypot xn yn > 1 -> circleModeDisplacement xn yn m nr = 0) /\
  (Math.hypot xn yn <= 1 ->
   circleModeDisplacement xn yn m nr =
     cos (IZR m * Math.atan2 yn xn)
     * cos (IZR nr * PI * Math.hypot xn yn)
     * exp (- 1.2 * (Math.hypot xn yn) ^ 2)).
Proof.
  unfold circleModeDisplacement, radialMode. split; intros H.
  - destruct (Rlt_dec 1 (Math.hypot xn yn)); [reflexivity | lra].
  - destruct (Rlt_dec 1 (Math.hypot xn yn)); [lra |].
    replace (- 1.2 * Math.hypot xn yn * Math.hypot xn yn)
      with (- 1.2 * Math.hypot xn yn ^ 2) by ring.
    ring.
Qed.

Lemma hypot_3_4 : Math.hypot 3 4 = 5.
Proof.
  unfold Math.hypot. replace (3 * 3 + 4 * 4) with (5 * 5) by lra.
  apply sqrt_square. lra.
Qed.

Lemma hypot_0_0 : Math.hypot 0 0 = 0.
Proof.
  unfold Math.hypot. replace (0 * 0 + 0 * 0) with 0 by lra. apply sqrt_0.
Qed.

Lemma circleModeDisplacement_cases_witness :
  circleModeDisplacement 3 4 2 1 = 0 /\
  circleModeDisplacement 0 0 2 1 =
    cos (2 * Math.atan2 0 0) * cos (1 * PI * Math.hypot 0 0)
    * exp (- 1.2 * (Math.hypot 0 0) ^ 2).
Proof.
  split.
  - apply (proj1 (circleModeDisplacement_cases 3 4 2 1)). rewrite hypot_3_4. lra.
  - apply (proj2 (circleModeDisplacement_cases 0 0 2 1)). rewrite hypot_0_0. lra.
Defined.

(* ----------------------------------------------------------------- *)
(** ** computeBlendInfo *)

(** C3.  For a fixed plate size and a catalog of [N >= 1] modes, the
    interpolation index [p = t * (N - 1)] does not decrease when the driving
    frequency increases, and neither does the lower mode index
    [i0 = floor p]. *)
Theorem blendPosition_monotone (sh : Shape) (L f1 f2 : R) (N : nat) :
  (1 <= N)%nat -> f1 <= f2 ->
  blendPosition (Params.mk sh L f1) N <= blendPosition (Params.mk sh L f2) N /\
  (Math.floor (blendPosition (Params.mk sh L f1) N)
   <= Math.floor (blendPosition (Params.mk sh L f2) N))%Z.
Proof.
  intros HN Hf.
  assert (Hp : blendPosition (Params.mk sh L f1) N
               <= blendPosition (Params.mk sh L f2) N).
  { unfold blendPosition, driveFrequency, effectiveSize. cbn [Params.plateSize Params.freqHz].
    set (s := orElse L 1).
    assert (HN0 : 0 <= INR N - 1).
    { apply le_INR in HN. simpl in HN. lra. }
    apply Rmult_le_compat_r; [exact HN0 |].
    apply clamp_le.
    apply Rmult_le_compat_r; [left; apply Rinv_0_lt_compat, log_span_pos |].
    apply Rplus_le_compat_r.
    apply log_le.
    - pose proof (clamp_lower F_MIN F_MAX
        (Math.max F_MIN (Math.min F_MAX f1) * s * s)) as Hlo.
      unfold F_MIN in *. lra.
    - apply clamp_le.
      pose proof (clamp_le F_MIN F_MAX f1 f2 Hf) as Hd.
      assert (0 <= s * s) by nra.
      rewrite !Rmult_assoc. now apply Rmult_le_compat_r. }
  split; [exact Hp |].
  unfold Math.floor. now apply Zfloor_le.
Qed.

Lemma blendPosition_monotone_witness :
  blendPosition (Params.mk square 0.9 20) 42
    <= blendPosition (Params.mk square 0.9 440) 42 /\
  (Math.floor (blendPosition (Params.mk square 0.9 20) 42)
   <= Math.floor (blendPosition (Params.mk square 0.9 440) 42))%Z.
Proof.
  apply (blendPosition_monotone square 0.9 20 440 42); [lia | lra].
Defined.

(** The descriptor of a non-empty catalog is read off [blendPosition]. *)
Lemma computeBlendInfo_nonempty (st : Renderer.t) :
  activeModes st <> [] ->
  let p := blendPosition (Renderer.params st) (length (activeModes st)) in
  let i0 := Math.floor p in
  let bi := computeBlendInfo st in
  BlendInfo.alpha bi = p - IZR i0 /\
  BlendInfo.mode0 bi = at_index (activeModes st) i0 /\
  BlendInfo.mode1 bi =
    at_index (activeModes st)
      (Z.min (i0 + 1) (Z.of_nat (length (activeModes st)) - 1)) /\
  BlendInfo.shape bi = Params.shape (Renderer.params st) /\
  BlendInfo.plateSize bi = effectiveSize (Renderer.params st).
Proof.
  intros Hne. unfold computeBlendInfo.
  destruct (activeModes st) as [| a l] eqn:E; [congruence |].
  cbn [length Nat.eqb]. cbv zeta. cbn. repeat split; reflexivity.
Qed.

(* ----------------------------------------------------------------- *)
(** ** The descriptor object and its fields *)

Lemma readMode_objectAt (st : Renderer.t) (i : Z) :
  readMode st (objectAt (Params.shape (Renderer.params st)) (activeModes st) i)
  = at_index (activeModes st) i.
Proof.
  unfold objectAt, at_index.
  destruct (i <? 0)%Z; [reflexivity |].
  destruct (nth_error (activeModes st) (Z.to_nat i)) as [md |] eqn:E;
    [| reflexivity].
  cbn [readMode]. unfold modeAt. cbn [ModeRef.catalog ModeRef.index].
  exact E.
Qed.

(** Read when it is returned, the descriptor object has the fields
    [computeBlendInfo] gives. *)
Lemma readBlend_computeBlendObject (st : Renderer.t) :
  readBlend st (computeBlendObject st) = computeBlendInfo st.
Proof.
  unfold computeBlendObject, computeBlendInfo, readBlend.
  destruct (length (activeModes st) =? 0)%nat; [reflexivity |].
  cbn [BlendObject.shape BlendObject.freqHz BlendObject.plateSize
       BlendObject.mode0 BlendObject.mode1 BlendObject.alpha].
  now rewrite !readMode_objectAt.
Qed.

Lemma readBlend_same_catalogs (st st' : Renderer.t) (b : BlendObject.t) :
  Renderer.squareModes st' = Renderer.squareModes st ->
  Renderer.circleModes st' = Renderer.circleModes st ->
  readBlend st' b = readBlend st b.
Proof.
  intros Hs Hc.
  assert (H : forall r, readMode st' r = readMode st r).
  { intros [[sh i] |]; [| reflexivity].
    unfold readMode, modeAt, catalogOf. cbn [ModeRef.catalog ModeRef.index].
    destruct sh; congruence. }
  unfold readBlend. now rewrite !H.
Qed.

Lemma recomputeField_stored (st : Renderer.t) :
  Renderer.blendInfo (recomputeField st) = Some (computeBlendObject st) /\
  Renderer.squareModes (recomputeField st) = Renderer.squareModes st /\
  Renderer.circleModes (recomputeField st) = Renderer.circleModes st.
Proof.
  unfold recomputeField. destruct (fieldPass st); repeat split; reflexivity.
Qed.

(** After [recomputeField] the stored descriptor reads as the descriptor of
    the state it was computed in. *)
Lemma storedBlend_recomputeField (st : Renderer.t) :
  storedBlend (recomputeField st) = Some (computeBlendInfo st).
Proof.
  destruct (recomputeField_stored st) as (Hb & Hs & Hc).
  unfold storedBlend. rewrite Hb. f_equal.
  rewrite (readBlend_same_catalogs st (recomputeField st) _ Hs Hc).
  apply readBlend_computeBlendObject.
Qed.

(* ----------------------------------------------------------------- *)
(** ** Empty catalog *)

Lemma computeBlendInfo_empty (st : Renderer.t) :
  activeModes st = [] ->
  computeBlendInfo st =
    BlendInfo.mk (Params.shape (Renderer.params st))
      (Params.freqHz (Renderer.params st))
      (Params.plateSize (Renderer.params st)) None None 0.
Proof. intros E. unfold computeBlendInfo. now rewrite E. Qed.

(** C8.  With an empty catalog, [computeBlendInfo] returns a descriptor
    without modes and with [alpha = 0], and [recomputeField] stores that
    descriptor and an empty nodal point set, whatever the frequency and the
    plate size are.  Both operations are total functions of the state. *)
Theorem empty_catalog_blank_field (st : Renderer.t) :
  activeModes st = [] ->
  BlendInfo.mode0 (computeBlendInfo st) = None /\
  BlendInfo.mode1 (computeBlendInfo st) = None /\
  BlendInfo.alpha (computeBlendInfo st) = 0 /\
  fieldPass st = None /\
  Renderer.nodalPoints (recomputeField st) = [] /\
  storedBlend (recomputeField st) = Some (computeBlendInfo st).
Proof.
  intros E.
  assert (Hp : fieldPass st = None).
  { unfold fieldPass. rewrite (computeBlendInfo_empty st E). cbn.
    now destruct (_ || _). }
  split; [| split; [| split; [| split; [| split]]]].
  - now rewrite (computeBlendInfo_empty st E).
  - now rewrite (computeBlendInfo_empty st E).
  - now rewrite (computeBlendInfo_empty st E).
  - exact Hp.
  - unfold recomputeField. now rewrite Hp.
  - apply storedBlend_recomputeField.
Qed.

Lemma empty_catalog_blank_field_witness :
  BlendInfo.mode0 (computeBlendInfo (emptyCatalogState 440 0.9)) = None /\
  BlendInfo.mode1 (computeBlendInfo (emptyCatalogState 440 0.9)) = None /\
  BlendInfo.alpha (computeBlendInfo (emptyCatalogState 440 0.9)) = 0 /\
  fieldPass (emptyCatalogState 440 0.9) = None /\
  Renderer.nodalPoints (recomputeField (emptyCatalogState 440 0.9)) = [] /\
  storedBlend (recomputeField (emptyCatalogState 440 0.9))
    = Some (computeBlendInfo (emptyCatalogState 440 0.9)).
Proof.
  apply (empty_catalog_blank_field (emptyCatalogState 440 0.9)). reflexivity.
Defined.

(* ----------------------------------------------------------------- *)
(** ** updateModeFrequencies *)

Lemma rescale_rescaled (L : R) (md : Mode.t) :
  L <> 0 -> rescaled L md (rescale (1 / (L * L)) md).
Proof.
  intros HL. unfold rescaled, rescale. cbn. repeat split. field. exact HL.
Qed.

Lemma map_rescale_Forall2 (L : R) (l : list Mode.t) :
  L <> 0 -> Forall2 (rescaled L) l (map (rescale (1 / (L * L))) l).
Proof.
  intros HL. induction l as [| md l IH]; cbn; constructor; auto.
  now apply rescale_rescaled.
Qed.

Lemma orElse_nonzero (x d : R) : x <> 0 -> orElse x d = x.
Proof. intros H. unfold orElse. destruct (Req_dec_T x 0); [contradiction | reflexivity]. Qed.

(** A rescaling reaches every catalog object, hence whatever a reference
    designates. *)
Lemma modeAt_updateModeFrequencies (st : Renderer.t) (r : ModeRef.t) :
  let L := orElse (Params.plateSize (Renderer.params st)) 1 in
  modeAt (updateModeFrequencies st) r
  = option_map (rescale (1 / (L * L))) (modeAt st r).
Proof.
  destruct r as [sh i]. unfold modeAt, updateModeFrequencies.
  cbn [ModeRef.catalog ModeRef.index].
  destruct sh; cbn [catalogOf Renderer.squareModes Renderer.circleModes];
    apply nth_error_map.
Qed.

Lemma readMode_rescaled (st : Renderer.t) (r : option ModeRef.t) :
  0 < Params.plateSize (Renderer.params st) ->
  rescaledThrough (Params.plateSize (Renderer.params st))
    (readMode st r) (readMode (updateModeFrequencies st) r).
Proof.
  intros HL. destruct r as [r |]; [| exact I]. cbn [readMode].
  rewrite modeAt_updateModeFrequencies. rewrite orElse_nonzero by lra.
  destruct (modeAt st r) as [md |]; cbn [option_map rescaledThrough];
    [| exact I].
  apply rescale_rescaled. lra.
Qed.

(** C9.  For a strictly positive plate size [L], [updateModeFrequencies]
    sets [eigenFreq = baseFreq / L^2] in every entry of both catalogs, in
    place: entry by entry and in the same order, with [baseFreq], the two
    integer indices and [modeIndex] of every entry as before.  The write
    goes to the catalog objects themselves, so whatever a reference
    designates is rescaled with them: the stored blend descriptor keeps its
    two objects, its shape, frequency, size and [alpha], and reading its two
    modes afterwards shows their new [eigenFreq].  Every other field of the
    renderer is as before. *)
Theorem updateModeFrequencies_frame (st : Renderer.t) :
  0 < Params.plateSize (Renderer.params st) ->
  let L := Params.plateSize (Renderer.params st) in
  let st' := updateModeFrequencies st in
  Forall2 (rescaled L) (Renderer.squareModes st) (Renderer.squareModes st') /\
  Forall2 (rescaled L) (Renderer.circleModes st) (Renderer.circleModes st') /\
  (forall r : ModeRef.t, rescaledThrough L (modeAt st r) (modeAt st' r)) /\
  Renderer.blendInfo st' = Renderer.blendInfo st /\
  (forall bi : BlendInfo.t, storedBlend st = Some bi ->
     exists bi' : BlendInfo.t,
       storedBlend st' = Some bi' /\
       rescaledThrough L (BlendInfo.mode0 bi) (BlendInfo.mode0 bi') /\
       rescaledThrough L (BlendInfo.mode1 bi) (BlendInfo.mode1 bi') /\
       (BlendInfo.shape bi', BlendInfo.freqHz bi',
        BlendInfo.plateSize bi', BlendInfo.alpha bi')
       = (BlendInfo.shape bi, BlendInfo.freqHz bi,
          BlendInfo.plateSize bi, BlendInfo.alpha bi)) /\
  Renderer.params st' = Renderer.params st /\
  Renderer.nodalPoints st' = Renderer.nodalPoints st /\
  (Renderer.clientWidth st', Renderer.clientHeight st',
   Renderer.resolution st', Renderer.nodeThreshold st')
  = (Renderer.clientWidth st, Renderer.clientHeight st,
     Renderer.resolution st, Renderer.nodeThreshold st) /\
  (Renderer.cx st', Renderer.cy st', Renderer.halfPlatePix st')
  = (Renderer.cx st, Renderer.cy st, Renderer.halfPlatePix st).
Proof.
  intros HL L st'.
  assert (Hsq : Forall2 (rescaled L) (Renderer.squareModes st)
                  (Renderer.squareModes st')).
  { subst L st'. unfold updateModeFrequencies. cbn [Renderer.squareModes].
    rewrite orElse_nonzero by lra. apply map_rescale_Forall2. lra. }
  assert (Hci : Forall2 (rescaled L) (Renderer.circleModes st)
                  (Renderer.circleModes st')).
  { subst L st'. unfold updateModeFrequencies. cbn [Renderer.circleModes].
    rewrite orElse_nonzero by lra. apply map_rescale_Forall2. lra. }
  assert (Hrd : forall r, rescaledThrough L (readMode st r) (readMode st' r)).
  { intros r. apply readMode_rescaled. exact HL. }
  split; [exact Hsq |]. split; [exact Hci |].
  split; [intros r; exact (Hrd (Some r)) |].
  split; [reflexivity |].
  split; [| repeat split; reflexivity].
  intros bi Hbi. unfold storedBlend in Hbi |- *.
  change (Renderer.blendInfo st') with (Renderer.blendInfo st).
  destruct (Renderer.blendInfo st) as [b |]; [| discriminate Hbi].
  assert (E : bi = readBlend st b) by congruence. subst bi.
  exists (readBlend st' b). split; [reflexivity |].
  unfold readBlend.
  cbn [BlendInfo.mode0 BlendInfo.mode1 BlendInfo.shape BlendInfo.freqHz
       BlendInfo.plateSize BlendInfo.alpha].
  split; [apply Hrd |]. split; [apply Hrd | reflexivity].
Qed.

Lemma updateModeFrequencies_frame_witness :
  let st := tieState 0.25 in
  let st' := updateModeFrequencies st in
  Forall2 (rescaled 0.9) (Renderer.squareModes st) (Renderer.squareModes st') /\
  Forall2 (rescaled 0.9) (Renderer.circleModes st) (Renderer.circleModes st') /\
  (forall r : ModeRef.t, rescaledThrough 0.9 (modeAt st r) (modeAt st' r)) /\
  Renderer.blendInfo st' = Renderer.blendInfo st /\
  (forall bi : BlendInfo.t, storedBlend st = Some bi ->
     exists bi' : BlendInfo.t,
       storedBlend st' = Some bi' /\
       rescaledThrough 0.9 (BlendInfo.mode0 bi) (BlendInfo.mode0 bi') /\
       rescaledThrough 0.9 (BlendInfo.mode1 bi) (BlendInfo.mode1 bi') /\
       (BlendInfo.shape bi', BlendInfo.freqHz bi',
        BlendInfo.plateSize bi', BlendInfo.alpha bi')
       = (BlendInfo.shape bi, BlendInfo.freqHz bi,
          BlendInfo.plateSize bi, BlendInfo.alpha bi)) /\
  Renderer.params st' = Renderer.params st /\
  Renderer.nodalPoints st' = Renderer.nodalPoints st /\
  (Renderer.clientWidth st', Renderer.clientHeight st',
   Renderer.resolution st', Renderer.nodeThreshold st')
  = (Renderer.clientWidth st, Renderer.clientHeight st,
     Renderer.resolution st, Renderer.nodeThreshold st) /\
  (Renderer.cx st', Renderer.cy st', Renderer.halfPlatePix st')
  = (Renderer.cx st, Renderer.cy st, Renderer.halfPlatePix st).
Proof.
  apply (updateModeFrequencies_frame (tieState 0.25)).
  cbn [tieState Renderer.params Params.plateSize]. lra.
Defined.

(* ----------------------------------------------------------------- *)
(** ** getActiveModeSummary *)

Lemma summary_labels (st : Renderer.t) :
  (Summary.primaryMode (getActiveModeSummary st),
   Summary.secondaryMode (getActiveModeSummary st))
  = labelModes (BlendInfo.mode0 (currentBlend st))
      (BlendInfo.mode1 (currentBlend st)) (BlendInfo.alpha (currentBlend st)).
Proof.
  unfold getActiveModeSummary.
  destruct (fold_left _ _ _) as [closest bestDiff].
  destruct (labelModes _ _ _) as [primary secondary]. reflexivity.
Qed.

(** C2, as the code has it.  When both modes of the blend descriptor are
    present, the summary's primary mode is the one whose blend weight is at
    least [0.5] ([mode0] weighs [1 - alpha], [mode1] weighs [alpha]), the
    other one is the secondary mode, and each carries its weight: [mode0] is
    primary exactly when [alpha < 0.5], and from [alpha = 0.5] on, the tie
    included, [mode1] is primary. *)
Theorem summary_primary_by_weight (st : Renderer.t) (m0 m1 : Mode.t) :
  BlendInfo.mode0 (currentBlend st) = Some m0 ->
  BlendInfo.mode1 (currentBlend st) = Some m1 ->
  let alpha := BlendInfo.alpha (currentBlend st) in
  let s := getActiveModeSummary st in
  (alpha < 0.5 ->
   Summary.primaryMode s = Some (Weighted.mk m0 (1 - alpha)) /\
   Summary.secondaryMode s = Some (Weighted.mk m1 alpha)) /\
  (0.5 <= alpha ->
   Summary.primaryMode s = Some (Weighted.mk m1 alpha) /\
   Summary.secondaryMode s = Some (Weighted.mk m0 (1 - alpha))) /\
  (exists p q,
     Summary.primaryMode s = Some p /\ Summary.secondaryMode s = Some q /\
     0.5 <= Weighted.weight p /\ Weighted.weight q <= 0.5 /\
     Weighted.weight p + Weighted.weight q = 1).
Proof.
  intros H0 H1 alpha s.
  pose proof (summary_labels st) as Hl. fold s in Hl.
  rewrite H0, H1 in Hl. fold alpha in Hl. unfold labelModes in Hl.
  destruct (Rlt_dec alpha 0.5) as [Hlt | Hge];
    injection Hl as Hp Hs; rewrite Hp, Hs.
  - split; [| split].
    + intros _. split; reflexivity.
    + intros Hge. lra.
    + eexists. eexists. repeat split; cbn; lra.
  - split; [| split].
    + intros Hlt. lra.
    + intros _. split; reflexivity.
    + eexists. eexists. repeat split; cbn; lra.
Qed.

(* ----------------------------------------------------------------- *)
(** ** The sort, for a comparator that is a difference of keys *)

Section SortByKey.
Context {A : Type} (key : A -> R).

Let cmp (a b : A) : R := key a - key b.
Let below (a b : A) : Prop := key a <= key b.

Lemma sort_insert_perm (x : A) (l : list A) :
  Permutation (x :: l) (sort_insert cmp x l).
Proof.
  induction l as [| y r IH]; cbn; [reflexivity |].
  destruct (Rle_dec (cmp x y) 0); [reflexivity |].
  rewrite perm_swap. now constructor.
Qed.

Lemma array_sort_perm (l : list A) : Permutation l (array_sort cmp l).
Proof.
  induction l as [| x r IH]; cbn; [constructor |].
  rewrite <- sort_insert_perm. now constructor.
Qed.

Lemma array_sort_length (l : list A) : length (array_sort cmp l) = length l.
Proof. symmetry. apply Permutation_length, array_sort_perm. Qed.

Lemma sort_insert_sorted (x : A) (l : list A) :
  StronglySorted below l -> StronglySorted below (sort_insert cmp x l).
Proof.
  induction 1 as [| y r Hr IH Hy]; cbn.
  - repeat constructor.
  - destruct (Rle_dec (cmp x y) 0) as [Hle | Hgt].
    + constructor; [now constructor |].
      constructor; [unfold below, cmp in *; lra |].
      eapply Forall_impl; [| exact Hy].
      unfold below, cmp in *. intros; lra.
    + constructor; [exact IH |].
      eapply Permutation_Forall; [apply sort_insert_perm |].
      constructor; [unfold below, cmp in *; lra | exact Hy].
Qed.

Lemma array_sort_sorted (l : list A) : StronglySorted below (array_sort cmp l).
Proof.
  induction l as [| x r IH]; cbn; [constructor |].
  now apply sort_insert_sorted.
Qed.

(** Insertion moves [x] past entries of strictly smaller key only, so the
    entries of any one key keep their order. *)
Lemma sort_insert_filter (k : R) (x : A) (l : list A) :
  filter (hasKey key k) (sort_insert cmp x l) = filter (hasKey key k) (x :: l).
Proof.
  induction l as [| y r IH]; [reflexivity |].
  cbn [sort_insert]. destruct (Rle_dec (cmp x y) 0) as [Hle | Hgt];
    [reflexivity |].
  cbn [filter] in *. rewrite IH.
  unfold hasKey, cmp in *.
  destruct (Req_dec_T (key y) k), (Req_dec_T (key x) k);
    try reflexivity; lra.
Qed.

Lemma array_sort_stable (k : R) (l : list A) :
  filter (hasKey key k) (array_sort cmp l) = filter (hasKey key k) l.
Proof.
  induction l as [| x r IH]; [reflexivity |].
  cbn [array_sort]. rewrite sort_insert_filter. cbn [filter].
  now rewrite IH.
Qed.

Lemma sorted_by_index (l : list A) :
  StronglySorted below l ->
  forall i j a b, (i <= j)%nat ->
    nth_error l i = Some a -> nth_error l j = Some b -> key a <= key b.
Proof.
  induction 1 as [| y r Hr IH Hy]; intros i j a b Hij Ha Hb.
  - destruct i; discriminate.
  - destruct i as [| i], j as [| j]; cbn in Ha, Hb.
    + injection Ha as <-. injection Hb as <-. lra.
    + injection Ha as <-. apply nth_error_In in Hb.
      rewrite Forall_forall in Hy. now apply Hy.
    + exfalso. lia.
    + apply (IH i j a b); [lia | assumption | assumption].
Qed.
End SortByKey.

(* ----------------------------------------------------------------- *)
(** ** Catalog construction *)

Lemma entryOf_assignFrom (N i : nat) (tmp : list Entry.t) :
  map entryOf (assignFrom N i tmp) = tmp.
Proof.
  revert i. induction tmp as [| e r IH]; intros i; cbn; [reflexivity |].
  rewrite IH. now destruct e.
Qed.

Lemma assignFrom_length (N i : nat) (tmp : list Entry.t) :
  length (assignFrom N i tmp) = length tmp.
Proof. rewrite <- (entryOf_assignFrom N i tmp) at 2. now rewrite length_map. Qed.

Lemma assignFrom_nth (N i k : nat) (tmp : list Entry.t) (md : Mode.t) :
  nth_error (assignFrom N i tmp) k = Some md ->
  Mode.baseFreq md = baseFreqAt N (i + k) /\
  Mode.eigenFreq md = Mode.baseFreq md.
Proof.
  revert i k. induction tmp as [| e r IH]; intros i k H.
  - destruct k; discriminate.
  - destruct k as [| k]; cbn in H.
    + injection H as <-. cbn. now rewrite Nat.add_0_r.
    + apply IH in H. now rewrite Nat.add_succ_r.
Qed.

Lemma baseFreqAt_formula (N i : nat) :
  (i < N)%nat -> N <> 1%nat ->
  baseFreqAt N i = exp (ln 20 + INR i / (INR N - 1) * (ln 20000 - ln 20)).
Proof.
  intros Hi HN. unfold baseFreqAt, LOG_F_MAX, LOG_F_MIN, Math.log, F_MAX, F_MIN.
  destruct (1 <? N)%nat eqn:E; [reflexivity |].
  apply Nat.ltb_ge in E. lia.
Qed.

Lemma baseFreqAt_single : baseFreqAt 1 0 = 20.
Proof.
  unfold baseFreqAt, LOG_F_MIN, Math.log, F_MIN. cbn [Nat.ltb Nat.leb].
  rewrite Rmult_0_l, Rplus_0_r. apply exp_ln. lra.
Qed.

Lemma assignFrequencies_logUniform (tmp : list Entry.t) :
  logUniformCatalog (assignFrequencies tmp).
Proof.
  unfold logUniformCatalog, assignFrequencies. intros i md H.
  rewrite assignFrom_length.
  assert (Hi : (i < length tmp)%nat).
  { rewrite <- (assignFrom_length (length tmp) 0 tmp).
    apply nth_error_Some. congruence. }
  apply assignFrom_nth in H. destruct H as [Hb He]. cbn in Hb.
  repeat split.
  - lia.
  - intros H1. rewrite Hb. now apply baseFreqAt_formula.
  - intros H1. rewrite Hb, H1 in *. assert (i = 0%nat) as -> by lia.
    apply baseFreqAt_single.
  - exact He.
Qed.

(** C6.  In the catalog of either shape, whatever the bounds, the entry at
    index [i] (with [0 <= i <= N - 1], [N] the number of modes) has base
    frequency [exp(log 20 + (i / (N - 1)) * (log 20000 - log 20))]; when
    [N = 1] the single entry has base frequency [20]; and right after
    construction [eigenFreq] equals [baseFreq]. *)
Theorem catalogs_log_uniform (maxM maxN : nat) :
  logUniformCatalog (buildSquareModes maxM maxN) /\
  logUniformCatalog (buildCircleModes maxM maxN).
Proof. split; apply assignFrequencies_logUniform. Qed.

Lemma modeIndexOf_squares (a b : Z) :
  modeIndexOf a b = sqrt (IZR (sumSquares (a, b))).
Proof.
  unfold modeIndexOf, sumSquares. cbn [fst snd].
  now rewrite plus_IZR, !mult_IZR.
Qed.

Lemma sumSquares_nonneg (p : Z * Z) : 0 <= IZR (sumSquares p).
Proof. apply IZR_le. unfold sumSquares. nia. Qed.

(** The comparator on the real keys decides as the integer keys do. *)
Lemma byModeIndex_sumSquares (p q : Z * Z) :
  byModeIndex (mkEntry p) (mkEntry q) <= 0 <-> (sumSquares p <= sumSquares q)%Z.
Proof.
  unfold byModeIndex, mkEntry. cbn [Entry.modeIndex].
  destruct p as [a b], q as [c d]. cbn [fst snd].
  rewrite !modeIndexOf_squares.
  pose proof (sumSquares_nonneg (a, b)) as Hp.
  pose proof (sumSquares_nonneg (c, d)) as Hq.
  split; intros H.
  - apply le_IZR. apply sqrt_le_0; [exact Hp | exact Hq | lra].
  - apply IZR_le in H. apply sqrt_le_1 in H; [lra | exact Hp | exact Hq].
Qed.

Lemma sort_insert_pairs (x : Z * Z) (l : list (Z * Z)) :
  sort_insert byModeIndex (mkEntry x) (map mkEntry l)
  = map mkEntry (insertPair x l).
Proof.
  induction l as [| y r IH]; [reflexivity |].
  cbn [map sort_insert insertPair].
  destruct (Rle_dec (byModeIndex (mkEntry x) (mkEntry y)) 0) as [H | H];
    destruct (sumSquares x <=? sumSquares y)%Z eqn:E.
  - reflexivity.
  - apply byModeIndex_sumSquares in H. apply Z.leb_gt in E. lia.
  - apply Z.leb_le in E. apply byModeIndex_sumSquares in E. contradiction.
  - cbn [map]. now rewrite IH.
Qed.

Lemma array_sort_pairs (l : list (Z * Z)) :
  array_sort byModeIndex (map mkEntry l) = map mkEntry (sortPairs l).
Proof.
  induction l as [| x r IH]; [reflexivity |].
  cbn [map array_sort sortPairs]. rewrite IH. apply sort_insert_pairs.
Qed.

Lemma map_flat_map_comm {A B C : Type} (f : B -> C) (g : A -> list B) (l : list A) :
  map f (flat_map g l) = flat_map (fun a => map f (g a)) l.
Proof.
  induction l as [| a r IH]; [reflexivity |].
  cbn. now rewrite map_app, IH.
Qed.

Lemma squareEntries_pairs (maxM maxN : nat) :
  squareEntries maxM maxN = map mkEntry (squarePairs maxM maxN).
Proof.
  unfold squareEntries, squarePairs. rewrite map_flat_map_comm.
  apply flat_map_ext. intros m. rewrite map_flat_map_comm.
  apply flat_map_ext. intros n. now destruct (m =? n)%Z.
Qed.

Lemma circleEntries_pairs (maxM maxRadial : nat) :
  circleEntries maxM maxRadial = map mkEntry (circlePairs maxM maxRadial).
Proof.
  unfold circleEntries, circlePairs. rewrite map_flat_map_comm.
  apply flat_map_ext. intros m. rewrite map_flat_map_comm.
  now apply flat_map_ext.
Qed.

Lemma entries_modeIndex (l : list (Z * Z)) (e : Entry.t) :
  In e (map mkEntry l) ->
  Entry.modeIndex e = sqrt (IZR (Entry.m e) ^ 2 + IZR (Entry.n e) ^ 2).
Proof.
  intros H. apply in_map_iff in H. destruct H as [[a b] [<- _]].
  unfold mkEntry, modeIndexOf. cbn. f_equal. ring.
Qed.

Lemma assignFrequencies_sorted (ps : list (Z * Z)) :
  sortedCatalog (map mkEntry ps)
    (assignFrequencies (array_sort byModeIndex (map mkEntry ps))).
Proof.
  unfold sortedCatalog, assignFrequencies.
  set (tmp := array_sort byModeIndex (map mkEntry ps)).
  set (cat := assignFrom (length tmp) 0 tmp).
  assert (Hcat : map entryOf cat = tmp) by apply entryOf_assignFrom.
  assert (Hperm : Permutation (map mkEntry ps) tmp)
    by apply (array_sort_perm Entry.modeIndex).
  repeat split.
  - intros i j a b Hij Ha Hb.
    apply (map_nth_error entryOf) in Ha, Hb. rewrite Hcat in Ha, Hb.
    exact (sorted_by_index Entry.modeIndex tmp
             (array_sort_sorted Entry.modeIndex _) i j _ _ Hij Ha Hb).
  - intros md Hmd.
    apply (in_map entryOf) in Hmd. rewrite Hcat in Hmd.
    apply (Permutation_in _ (Permutation_sym Hperm)) in Hmd.
    exact (entries_modeIndex ps _ Hmd).
  - now rewrite Hcat.
  - intros k. rewrite Hcat. apply (array_sort_stable Entry.modeIndex).
Qed.

(** C7.  For both plate shapes, whatever the bounds, the [modeIndex]
    sequence of the built catalog (the square root of the sum of the squares
    of the two integer indices) is non-decreasing from the first entry to the
    last, and the catalog is the enumeration of the two nested loops
    reordered stably: the entries of any one [modeIndex] value appear in
    their enumeration order. *)
Theorem catalogs_sorted_stable (maxM maxN : nat) :
  sortedCatalog (squareEntries maxM maxN) (buildSquareModes maxM maxN) /\
  sortedCatalog (circleEntries maxM maxN) (buildCircleModes maxM maxN).
Proof.
  unfold buildSquareModes, buildCircleModes.
  rewrite squareEntries_pairs, circleEntries_pairs.
  split; apply assignFrequencies_sorted.
Qed.

(* ----------------------------------------------------------------- *)
(** ** recomputeField: the two passes over the grid *)

Section Passes.
Variables (shape : Shape) (mode0 mode1 : Mode.t) (alpha : R) (res : nat).

Let step := sampleStep shape mode0 mode1 alpha res.
Let value := sampleValue shape mode0 mode1 alpha res.

Lemma sampleStep_value (amps : list R) (M : R) (ji : nat * nat) :
  step (amps, M) ji
  = (amps ++ [value ji],
     if insidePlate shape (gridCoord res (snd ji)) (gridCoord res (fst ji))
     then (if Rlt_dec M (Math.abs (value ji)) then Math.abs (value ji) else M)
     else M).
Proof.
  unfold step, value, sampleStep, sampleValue.
  destruct (insidePlate _ _ _); reflexivity.
Qed.

Lemma sample_fold_amplitudes (l : list (nat * nat)) (amps : list R) (M : R) :
  fst (fold_left step l (amps, M)) = amps ++ map value l.
Proof.
  revert amps M. induction l as [| ji l IH]; intros amps M; cbn [fold_left map].
  - now rewrite app_nil_r.
  - rewrite sampleStep_value, IH, <- app_assoc. reflexivity.
Qed.

Lemma sample_fold_lower (l : list (nat * nat)) (amps : list R) (M : R) :
  M <= snd (fold_left step l (amps, M)).
Proof.
  revert amps M. induction l as [| ji l IH]; intros amps M; cbn [fold_left].
  - cbn. lra.
  - rewrite sampleStep_value. eapply Rle_trans; [| apply IH].
    destruct (insidePlate _ _ _); [| lra].
    destruct (Rlt_dec _ _); lra.
Qed.

Lemma sample_fold_upper (l : list (nat * nat)) (amps : list R) (M : R) :
  0 <= M ->
  forall ji, In ji l -> Math.abs (value ji) <= snd (fold_left step l (amps, M)).
Proof.
  revert amps M. induction l as [| ji l IH]; intros amps M HM x Hx;
    [contradiction |].
  cbn [fold_left]. rewrite sampleStep_value.
  set (M' := if insidePlate _ _ _ then _ else M).
  assert (HM' : M <= M' /\ Math.abs (value ji) <= M').
  { subst M'. unfold value, sampleValue in *.
    destruct (insidePlate _ _ _).
    - fold value. destruct (Rlt_dec _ _); lra.
    - unfold Math.abs. rewrite Rabs_R0. lra. }
  destruct Hx as [<- | Hx].
  - eapply Rle_trans; [apply HM' | apply sample_fold_lower].
  - apply IH; [lra | exact Hx].
Qed.

Lemma sample_fold_attained (l : list (nat * nat)) (amps : list R) (M : R) :
  snd (fold_left step l (amps, M)) = M \/
  exists ji, In ji l /\ snd (fold_left step l (amps, M)) = Math.abs (value ji).
Proof.
  revert amps M. induction l as [| ji l IH]; intros amps M; cbn [fold_left].
  - now left.
  - rewrite sampleStep_value.
    set (M' := if insidePlate _ _ _ then _ else M).
    destruct (IH (amps ++ [value ji]) M') as [H | [x [Hx H]]].
    + rewrite H. subst M'.
      destruct (insidePlate _ _ _); [| now left].
      destruct (Rlt_dec _ _); [| now left].
      right. exists ji. split; [now left | reflexivity].
    + right. exists x. split; [now right | exact H].
Qed.

(** The first pass: every grid point gets its amplitude, in grid order, and
    [maxAbs] is the largest absolute amplitude. *)
Lemma samplePass_spec :
  let grid := gridIndices res in
  let amplitudes := fst (samplePass shape mode0 mode1 alpha res) in
  let maxAbs := snd (samplePass shape mode0 mode1 alpha res) in
  amplitudes = map value grid /\
  0 <= maxAbs /\
  (forall a, In a amplitudes -> Math.abs a <= maxAbs) /\
  (maxAbs = 0 \/ exists a, In a amplitudes /\ Math.abs a = maxAbs).
Proof.
  cbv zeta. unfold samplePass. fold step.
  rewrite sample_fold_amplitudes. cbn [app].
  repeat split.
  - apply sample_fold_lower.
  - intros a Ha. apply in_map_iff in Ha. destruct Ha as [ji [<- Hji]].
    apply sample_fold_upper; [lra | exact Hji].
  - destruct (sample_fold_attained (gridIndices res) [] 0) as [H | [ji [Hji H]]].
    + now left.
    + right. exists (value ji). split; [now apply in_map | now rewrite H].
Qed.

Variables (threshold cx cy halfPlatePix : R).

Let collect (amplitudes : list R) :=
  collectStep amplitudes threshold cx cy halfPlatePix res.
Let push := pushed threshold cx cy halfPlatePix res.

(** The second pass reads the amplitudes back in the order they were
    written. *)
Lemma collect_fold (f : nat * nat -> R) (l2 l1 : list (nat * nat)) (pts : list R) :
  fold_left (collect (map f (l1 ++ l2))) l2 (length l1, pts)
  = (length (l1 ++ l2), pts ++ flat_map (fun ji => push ji (f ji)) l2).
Proof.
  revert l1 pts. induction l2 as [| ji l2 IH]; intros l1 pts.
  - cbn. now rewrite !app_nil_r.
  - cbn [fold_left flat_map].
    assert (Hn : nth_error (map f (l1 ++ ji :: l2)) (length l1) = Some (f ji)).
    { rewrite map_app, nth_error_app2 by (rewrite length_map; lia).
      rewrite length_map, Nat.sub_diag. reflexivity. }
    unfold collect at 2, collectStep. rewrite Hn.
    replace (l1 ++ ji :: l2) with ((l1 ++ [ji]) ++ l2)
      by (rewrite <- app_assoc; reflexivity).
    assert (Hl : S (length l1) = length (l1 ++ [ji]))
      by (rewrite length_app; cbn; lia).
    assert (Hp : push ji (f ji)
                 = if Rleb (Math.abs (f ji)) threshold
                   then [cx + gridCoord res (snd ji) * halfPlatePix;
                         cy - gridCoord res (fst ji) * halfPlatePix]
                   else []) by reflexivity.
    rewrite Hp.
    destruct (Rleb (Math.abs (f ji)) threshold); rewrite Hl, IH.
    + f_equal. now rewrite <- app_assoc.
    + reflexivity.
Qed.

Lemma collectPass_spec (f : nat * nat -> R) :
  collectPass (map f (gridIndices res)) threshold cx cy halfPlatePix res
  = flat_map (fun ji => push ji (f ji)) (gridIndices res).
Proof.
  unfold collectPass.
  pose proof (collect_fold f (gridIndices res) [] []) as H.
  cbn [app length] in H. unfold collect in H. now rewrite H.
Qed.

Lemma pushed_even (f : nat * nat -> R) (l : list (nat * nat)) :
  exists k : nat,
    length (flat_map (fun ji => push ji (f ji)) l) = (2 * k)%nat.
Proof.
  induction l as [| ji l [k IH]]; [now exists 0%nat |].
  cbn [flat_map]. rewrite length_app, IH. unfold push, pushed.
  destruct (Rleb _ _); cbn [length].
  - exists (S k). lia.
  - exists k. lia.
Qed.

(** A grid point whose amplitude passes the test is one of the points. *)
Lemma pushed_holdsPoint (f : nat * nat -> R) (l : list (nat * nat)) (ji : nat * nat) :
  In ji l -> Math.abs (f ji) <= threshold ->
  holdsPoint (flat_map (fun ji => push ji (f ji)) l)
    (cx + gridCoord res (snd ji) * halfPlatePix)
    (cy - gridCoord res (fst ji) * halfPlatePix).
Proof.
  intros Hin Hle. apply in_split in Hin. destruct Hin as [l1 [l2 ->]].
  rewrite flat_map_app. cbn [flat_map].
  destruct (pushed_even f l1) as [k Hk]. exists k.
  assert (Hp : push ji (f ji)
               = [cx + gridCoord res (snd ji) * halfPlatePix;
                  cy - gridCoord res (fst ji) * halfPlatePix]).
  { unfold push, pushed. apply Rleb_true in Hle. now rewrite Hle. }
  rewrite Hp.
  split.
  - rewrite nth_error_app2 by lia. rewrite Hk, Nat.sub_diag. reflexivity.
  - rewrite nth_error_app2 by lia. rewrite Hk.
    replace (2 * k + 1 - 2 * k)%nat with 1%nat by lia. reflexivity.
Qed.

End Passes.

(* ----------------------------------------------------------------- *)
(** ** recomputeField: one sampling pass *)

Lemma samplingPass_fields (st : Renderer.t) (bi : BlendInfo.t) (mode0 mode1 : Mode.t) :
  let ps := samplingPass st bi mode0 mode1 in
  let sp := samplePass (BlendInfo.shape bi) mode0 mode1 (BlendInfo.alpha bi)
              (Renderer.resolution st) in
  Pass.amplitudes ps = fst sp /\
  Pass.maxAbs ps = snd sp /\
  Pass.threshold ps = thresholdOf (Renderer.nodeThreshold st) (snd sp) /\
  Pass.nodalPoints ps
    = collectPass (fst sp) (Pass.threshold ps) (Pass.cx ps) (Pass.cy ps)
        (Pass.halfPlatePix ps) (Renderer.resolution st) /\
  Pass.cx ps = IZR (Renderer.clientWidth st) / 2 /\
  Pass.cy ps = IZR (Renderer.clientHeight st) / 2 /\
  Pass.halfPlatePix ps
    = 0.45 * Math.min (IZR (Renderer.clientWidth st)) (IZR (Renderer.clientHeight st))
      * BlendInfo.plateSize bi.
Proof.
  cbv zeta. unfold samplingPass.
  destruct (samplePass _ _ _ _ _) as [amplitudes maxAbs].
  cbn. repeat split; reflexivity.
Qed.

Lemma thresholdOf_pos (tau M : R) : 0 < M -> thresholdOf tau M = tau * M.
Proof. intros H. unfold thresholdOf. destruct (Rlt_dec 0 M); [reflexivity | lra]. Qed.

Lemma thresholdOf_zero (tau M : R) : M <= 0 -> thresholdOf tau M = tau.
Proof. intros H. unfold thresholdOf. destruct (Rlt_dec 0 M); lra. Qed.

Lemma thresholdOf_nonneg (tau M : R) : 0 <= tau -> 0 <= M -> 0 <= thresholdOf tau M.
Proof.
  intros Ht HM. unfold thresholdOf. destruct (Rlt_dec 0 M); nra.
Qed.

(** C1, as the code has it.  In every sampling pass, [maxAbs] is the largest
    absolute blended displacement stored for the grid ([0] when all are
    zero), and the threshold is the threshold fraction times [maxAbs] when
    [maxAbs > 0], and the fraction itself (times [1]) when [maxAbs = 0], in
    particular when the field is uniformly zero.  It is the fraction times
    [max(maxAbs, 1)] when [maxAbs = 0] or [maxAbs >= 1]. *)
Theorem threshold_follows_maxAbs (st : Renderer.t) (bi : BlendInfo.t)
    (mode0 mode1 : Mode.t) :
  let ps := samplingPass st bi mode0 mode1 in
  let tau := Renderer.nodeThreshold st in
  Pass.amplitudes ps
    = map (sampleValue (BlendInfo.shape bi) mode0 mode1 (BlendInfo.alpha bi)
             (Renderer.resolution st))
        (gridIndices (Renderer.resolution st)) /\
  (forall a, In a (Pass.amplitudes ps) -> Math.abs a <= Pass.maxAbs ps) /\
  (Pass.maxAbs ps = 0 \/
   exists a, In a (Pass.amplitudes ps) /\ Math.abs a = Pass.maxAbs ps) /\
  (0 < Pass.maxAbs ps -> Pass.threshold ps = tau * Pass.maxAbs ps) /\
  (Pass.maxAbs ps = 0 -> Pass.threshold ps = tau) /\
  ((forall a, In a (Pass.amplitudes ps) -> a = 0) ->
   Pass.maxAbs ps = 0 /\ Pass.threshold ps = tau) /\
  (Pass.maxAbs ps = 0 \/ 1 <= Pass.maxAbs ps ->
   Pass.threshold ps = tau * Math.max (Pass.maxAbs ps) 1).
Proof.
  intros ps tau.
  destruct (samplingPass_fields st bi mode0 mode1)
    as (Ha & HM & Ht & _). fold ps in Ha, HM, Ht.
  destruct (samplePass_spec (BlendInfo.shape bi) mode0 mode1 (BlendInfo.alpha bi)
              (Renderer.resolution st)) as (Hv & H0 & Hup & Hat).
  rewrite <- Ha in Hv, Hup, Hat. rewrite <- HM in H0, Hup, Hat, Ht.
  fold tau in Ht.
  assert (Hzero : Pass.maxAbs ps = 0 -> Pass.threshold ps = tau).
  { intros E. rewrite Ht. apply thresholdOf_zero. lra. }
  assert (Hpos : 0 < Pass.maxAbs ps -> Pass.threshold ps = tau * Pass.maxAbs ps).
  { intros E. rewrite Ht. now apply thresholdOf_pos. }
  repeat split; try assumption.
  - destruct Hat as [E | [a [Hin E]]]; [exact E |].
    rewrite <- E, (H a Hin). unfold Math.abs. apply Rabs_R0.
  - apply Hzero.
    destruct Hat as [E | [a [Hin E]]]; [exact E |].
    rewrite <- E, (H a Hin). unfold Math.abs. apply Rabs_R0.
  - intros [E | E].
    + rewrite (Hzero E), E. unfold Math.max. rewrite Rmax_right by lra. lra.
    + rewrite Hpos by lra. unfold Math.max. now rewrite Rmax_left by lra.
Qed.

Lemma fieldPass_sampling (st : Renderer.t) (mode0 mode1 : Mode.t) :
  Renderer.clientWidth st <> 0%Z -> Renderer.clientHeight st <> 0%Z ->
  BlendInfo.mode0 (computeBlendInfo st) = Some mode0 ->
  BlendInfo.mode1 (computeBlendInfo st) = Some mode1 ->
  fieldPass st = Some (samplingPass st (computeBlendInfo st) mode0 mode1).
Proof.
  intros Hw Hh H0 H1. unfold fieldPass.
  apply Z.eqb_neq in Hw, Hh. rewrite Hw, Hh, H0, H1. reflexivity.
Qed.

Lemma recomputeField_pass (st : Renderer.t) (ps : Pass.t) :
  fieldPass st = Some ps ->
  Renderer.nodalPoints (recomputeField st) = Pass.nodalPoints ps /\
  Renderer.cx (recomputeField st) = Pass.cx ps /\
  Renderer.cy (recomputeField st) = Pass.cy ps /\
  Renderer.halfPlatePix (recomputeField st) = Pass.halfPlatePix ps.
Proof. intros H. unfold recomputeField. rewrite H. cbn. repeat split; reflexivity. Qed.

Lemma recomputeField_early (st : Renderer.t) :
  fieldPass st = None -> Renderer.nodalPoints (recomputeField st) = [].
Proof. intros H. unfold recomputeField. now rewrite H. Qed.

Lemma computeBlendInfo_shape (st : Renderer.t) :
  BlendInfo.shape (computeBlendInfo st) = Params.shape (Renderer.params st).
Proof. unfold computeBlendInfo. now destruct (_ =? _)%nat. Qed.

(* ----------------------------------------------------------------- *)
(** ** The grid *)

Lemma gridIndices_In (res j i : nat) :
  In (j, i) (gridIndices res) <-> (j < res)%nat /\ (i < res)%nat.
Proof.
  unfold gridIndices. rewrite in_flat_map. split.
  - intros [j' [Hj Hi]]. apply in_map_iff in Hi.
    destruct Hi as [i' [E Hi]]. injection E as <- <-.
    apply in_seq in Hj, Hi. lia.
  - intros [Hj Hi]. exists j. split; [apply in_seq; lia |].
    apply in_map. apply in_seq. lia.
Qed.

Lemma rows_nth (c : nat) (rows : list nat) (j i jv : nat) :
  nth_error rows j = Some jv -> (i < c)%nat ->
  nth_error (flat_map (fun j => map (fun i => (j, i)) (seq 0 c)) rows) (j * c + i)
  = Some (jv, i).
Proof.
  revert j. induction rows as [| r0 rows IH]; intros j Hj Hi.
  - destruct j; discriminate.
  - cbn [flat_map]. destruct j as [| j]; cbn in Hj.
    + injection Hj as <-. cbn [Nat.mul Nat.add].
      rewrite nth_error_app1 by (rewrite length_map, length_seq; exact Hi).
      rewrite nth_error_map, nth_error_seq.
      apply Nat.ltb_lt in Hi. rewrite Hi. reflexivity.
    + rewrite nth_error_app2 by (rewrite length_map, length_seq; lia).
      rewrite length_map, length_seq.
      replace (S j * c + i - c)%nat with (j * c + i)%nat by lia.
      now apply IH.
Qed.

Lemma gridIndices_nth (res j i : nat) :
  (j < res)%nat -> (i < res)%nat ->
  nth_error (gridIndices res) (j * res + i) = Some (j, i).
Proof.
  intros Hj Hi. unfold gridIndices. apply rows_nth; [| exact Hi].
  rewrite nth_error_seq. apply Nat.ltb_lt in Hj. now rewrite Hj.
Qed.

(* ----------------------------------------------------------------- *)
(** ** The two catalogs of the constructor *)

Lemma assignFrom_nth_entry (N i k : nat) (tmp : list Entry.t) (e : Entry.t) :
  nth_error tmp k = Some e ->
  nth_error (assignFrom N i tmp) k
  = Some (Mode.mk (Entry.m e) (Entry.n e) (Entry.modeIndex e)
            (baseFreqAt N (i + k)) (baseFreqAt N (i + k))).
Proof.
  revert i k. induction tmp as [| e0 r IH]; intros i k H.
  - destruct k; discriminate.
  - destruct k as [| k]; cbn in H |- *.
    + injection H as <-. now rewrite Nat.add_0_r.
    + rewrite (IH (S i) k H). now rewrite Nat.add_succ_r.
Qed.

Lemma catalog_of_pairs_nth (ps : list (Z * Z)) (k : nat) (p : Z * Z) :
  nth_error ps k = Some p ->
  nth_error (assignFrequencies (map mkEntry ps)) k
  = Some (catalogMode (length ps) k (fst p) (snd p)).
Proof.
  intros H. unfold assignFrequencies.
  rewrite (assignFrom_nth_entry _ 0 k _ (mkEntry p)).
  - rewrite length_map. reflexivity.
  - now rewrite nth_error_map, H.
Qed.

Lemma buildSquareModes_pairs (maxM maxN : nat) :
  buildSquareModes maxM maxN
  = assignFrequencies (map mkEntry (sortPairs (squarePairs maxM maxN))).
Proof.
  unfold buildSquareModes. now rewrite squareEntries_pairs, array_sort_pairs.
Qed.

Lemma buildCircleModes_pairs (maxM maxRadial : nat) :
  buildCircleModes maxM maxRadial
  = assignFrequencies (map mkEntry (sortPairs (circlePairs maxM maxRadial))).
Proof.
  unfold buildCircleModes. now rewrite circleEntries_pairs, array_sort_pairs.
Qed.

Lemma catalog_of_pairs_indices (ps : list (Z * Z)) :
  map (fun md => (Mode.m md, Mode.n md)) (assignFrequencies (map mkEntry ps)) = ps.
Proof.
  unfold assignFrequencies. generalize (length (map mkEntry ps)) 0%nat.
  induction ps as [| [a b] r IH]; intros N i; cbn; [reflexivity |].
  now rewrite IH.
Qed.

(** The square catalog of the constructor: 42 modes, in this order. *)
Lemma square_catalog_indices :
  map (fun md => (Mode.m md, Mode.n md)) (buildSquareModes 7 7)
  = [(1, 2); (2, 1); (1, 3); (3, 1); (2, 3); (3, 2); (1, 4); (4, 1);
     (2, 4); (4, 2); (3, 4); (4, 3); (1, 5); (5, 1); (2, 5); (5, 2);
     (3, 5); (5, 3); (1, 6); (6, 1); (2, 6); (6, 2); (4, 5); (5, 4);
     (3, 6); (6, 3); (1, 7); (7, 1); (4, 6); (6, 4); (2, 7); (7, 2);
     (3, 7); (7, 3); (5, 6); (6, 5); (4, 7); (7, 4); (5, 7); (7, 5);
     (6, 7); (7, 6)]%Z.
Proof.
  rewrite buildSquareModes_pairs, catalog_of_pairs_indices.
  vm_compute. reflexivity.
Qed.

(** The circular catalog of the constructor: 56 modes, in this order. *)
Lemma circle_catalog_indices :
  map (fun md => (Mode.m md, Mode.nRadial md)) (buildCircleModes 7 7)
  = [(0, 1); (1, 1); (0, 2); (1, 2); (2, 1); (2, 2); (0, 3); (1, 3);
     (3, 1); (2, 3); (3, 2); (0, 4); (1, 4); (4, 1); (3, 3); (2, 4);
     (4, 2); (0, 5); (3, 4); (4, 3); (1, 5); (5, 1); (2, 5); (5, 2);
     (4, 4); (3, 5); (5, 3); (0, 6); (1, 6); (6, 1); (2, 6); (6, 2);
     (4, 5); (5, 4); (3, 6); (6, 3); (0, 7); (1, 7); (5, 5); (7, 1);
     (4, 6); (6, 4); (2, 7); (7, 2); (3, 7); (7, 3); (5, 6); (6, 5);
     (4, 7); (7, 4); (6, 6); (5, 7); (7, 5); (6, 7); (7, 6); (7, 7)]%Z.
Proof.
  rewrite buildCircleModes_pairs.
  change (fun md => (Mode.m md, Mode.nRadial md))
    with (fun md => (Mode.m md, Mode.n md)).
  rewrite catalog_of_pairs_indices.
  vm_compute. reflexivity.
Qed.

Lemma catalogs_length :
  length (buildSquareModes 7 7) = 42%nat /\ length (buildCircleModes 7 7) = 56%nat.
Proof.
  split.
  - rewrite <- (length_map (fun md => (Mode.m md, Mode.n md))).
    now rewrite square_catalog_indices.
  - rewrite <- (length_map (fun md => (Mode.m md, Mode.nRadial md))).
    now rewrite circle_catalog_indices.
Qed.

Lemma circle_catalog_head :
  nth_error (buildCircleModes 7 7) 0 = Some (catalogMode 56 0 0 1) /\
  nth_error (buildCircleModes 7 7) 1 = Some (catalogMode 56 1 1 1).
Proof.
  rewrite buildCircleModes_pairs.
  split.
  - apply (catalog_of_pairs_nth (sortPairs (circlePairs 7 7)) 0 (0, 1)%Z).
    vm_compute. reflexivity.
  - apply (catalog_of_pairs_nth (sortPairs (circlePairs 7 7)) 1 (1, 1)%Z).
    vm_compute. reflexivity.
Qed.

(* ----------------------------------------------------------------- *)
(** ** A stored descriptor on the first two square modes *)

Lemma square_catalog_head :
  nth_error (buildSquareModes 7 7) 0 = Some (catalogMode 42 0 1 2) /\
  nth_error (buildSquareModes 7 7) 1 = Some (catalogMode 42 1 2 1).
Proof.
  rewrite buildSquareModes_pairs.
  split.
  - apply (catalog_of_pairs_nth (sortPairs (squarePairs 7 7)) 0 (1, 2)%Z).
    vm_compute. reflexivity.
  - apply (catalog_of_pairs_nth (sortPairs (squarePairs 7 7)) 1 (2, 1)%Z).
    vm_compute. reflexivity.
Qed.

Lemma tieState_modes (alpha : R) :
  modeAt (tieState alpha) (ModeRef.mk square 0) = Some tieMode0 /\
  modeAt (tieState alpha) (ModeRef.mk square 1) = Some tieMode1.
Proof.
  destruct square_catalog_head as [H0 H1].
  unfold modeAt, tieState.
  cbn [catalogOf ModeRef.catalog ModeRef.index Renderer.squareModes].
  rewrite !nth_error_map, H0, H1. cbn [option_map].
  unfold rescale, catalogMode, tieMode0, tieMode1.
  cbn [Mode.m Mode.n Mode.modeIndex Mode.baseFreq].
  split; do 2 f_equal; lra.
Qed.

(** The stored descriptor of [tieState alpha], as read: the two rescaled
    entries and [alpha]. *)
Lemma currentBlend_tieState (alpha : R) :
  currentBlend (tieState alpha)
  = BlendInfo.mk square 440 0.9 (Some tieMode0) (Some tieMode1) alpha.
Proof.
  destruct (tieState_modes alpha) as [H0 H1].
  unfold currentBlend, storedBlend.
  change (Renderer.blendInfo (tieState alpha))
    with (Some (BlendObject.mk square 440 0.9
                  (Some (ModeRef.mk square 0)) (Some (ModeRef.mk square 1))
                  alpha)).
  unfold readBlend.
  cbn [BlendObject.shape BlendObject.freqHz BlendObject.plateSize
       BlendObject.mode0 BlendObject.mode1 BlendObject.alpha readMode].
  now rewrite H0, H1.
Qed.

Lemma summary_primary_by_weight_witness :
  let st := tieState 0.25 in
  let alpha := BlendInfo.alpha (currentBlend st) in
  let s := getActiveModeSummary st in
  (alpha < 0.5 ->
   Summary.primaryMode s = Some (Weighted.mk tieMode0 (1 - alpha)) /\
   Summary.secondaryMode s = Some (Weighted.mk tieMode1 alpha)) /\
  (0.5 <= alpha ->
   Summary.primaryMode s = Some (Weighted.mk tieMode1 alpha) /\
   Summary.secondaryMode s = Some (Weighted.mk tieMode0 (1 - alpha))) /\
  (exists p q,
     Summary.primaryMode s = Some p /\ Summary.secondaryMode s = Some q /\
     0.5 <= Weighted.weight p /\ Weighted.weight q <= 0.5 /\
     Weighted.weight p + Weighted.weight q = 1).
Proof.
  exact (summary_primary_by_weight (tieState 0.25) tieMode0 tieMode1
           (f_equal BlendInfo.mode0 (currentBlend_tieState 0.25))
           (f_equal BlendInfo.mode1 (currentBlend_tieState 0.25))).
Defined.

(** C2, as the claim has it, fails at the tie: with [alpha = 0.5] both
    weights are [0.5] and the summary labels [mode1], not [mode0], as the
    primary mode. *)
Lemma summary_tie_prefers_mode1 :
  BlendInfo.mode0 (currentBlend (tieState 0.5)) = Some tieMode0 /\
  BlendInfo.mode1 (currentBlend (tieState 0.5)) = Some tieMode1 /\
  BlendInfo.alpha (currentBlend (tieState 0.5)) = 0.5 /\
  Summary.primaryMode (getActiveModeSummary (tieState 0.5))
    = Some (Weighted.mk tieMode1 0.5) /\
  Summary.primaryMode (getActiveModeSummary (tieState 0.5))
    <> Some (Weighted.mk tieMode0 (1 - 0.5)).
Proof.
  pose proof (summary_labels (tieState 0.5)) as Hl.
  rewrite !currentBlend_tieState in Hl |- *.
  cbn [BlendInfo.mode0 BlendInfo.mode1 BlendInfo.alpha labelModes] in Hl |- *.
  destruct (Rlt_dec 0.5 0.5) as [Hlt | _]; [lra |].
  assert (Hp := f_equal fst Hl). cbn [fst] in Hp.
  repeat split; try exact Hp.
  rewrite Hp. intros Heq.
  assert (Hm : Mode.m tieMode1 = Mode.m tieMode0) by congruence.
  cbn in Hm. discriminate Hm.
Qed.

(* ----------------------------------------------------------------- *)
(** ** The circular plate at 20 Hz and size 1 *)

Lemma blendPosition_bottom (sh : Shape) (N : nat) :
  blendPosition (Params.mk sh 1 20) N = 0.
Proof.
  unfold blendPosition, driveFrequency, effectiveSize.
  cbn [Params.plateSize Params.freqHz].
  rewrite orElse_nonzero by lra.
  assert (Hd : Math.max F_MIN (Math.min F_MAX 20) = 20)
    by (apply clamp_inside; unfold F_MIN, F_MAX; lra).
  rewrite Hd. replace (20 * 1 * 1) with 20 by lra. rewrite Hd.
  unfold LOG_F_MIN at 1, F_MIN at 1.
  replace (Math.log 20 - Math.log 20) with 0 by lra.
  unfold Rdiv. rewrite Rmult_0_l.
  rewrite clamp_inside by lra. apply Rmult_0_l.
Qed.

Lemma computeBlendInfo_circleAt20 (w h : Z) (res : nat) :
  computeBlendInfo (circleAt20 w h res)
  = BlendInfo.mk circle 20 1
      (Some (catalogMode 56 0 0 1)) (Some (catalogMode 56 1 1 1)) 0.
Proof.
  unfold computeBlendInfo, circleAt20, activeModes.
  cbn [Renderer.params Params.shape Renderer.circleModes].
  destruct catalogs_length as [_ Hlen]. rewrite Hlen. cbn [Nat.eqb].
  rewrite blendPosition_bottom. unfold Math.floor.
  rewrite (ZfloorZ 0).
  change (Z.min (0 + 1) (Z.of_nat 56 - 1)) with 1%Z.
  destruct circle_catalog_head as [H0 H1].
  change (nth_error (buildCircleModes 7 7) 0)
    with (at_index (buildCircleModes 7 7) 0) in H0.
  change (nth_error (buildCircleModes 7 7) 1)
    with (at_index (buildCircleModes 7 7) 1) in H1.
  rewrite H0, H1.
  unfold driveFrequency, effectiveSize. cbn [Params.plateSize Params.freqHz].
  rewrite orElse_nonzero by lra.
  rewrite clamp_inside by (unfold F_MIN, F_MAX; lra).
  f_equal. lra.
Qed.

(* ----------------------------------------------------------------- *)
(** ** Bounds on the circular displacement *)

Lemma hypot_nonneg (x y : R) : 0 <= Math.hypot x y.
Proof. unfold Math.hypot. apply sqrt_pos. Qed.

Lemma hypot_sqr (x y : R) : Math.hypot x y * Math.hypot x y = x * x + y * y.
Proof. unfold Math.hypot. apply sqrt_sqrt. nra. Qed.

Lemma abs_cos_le_1 (a : R) : Math.abs (cos a) <= 1.
Proof. unfold Math.abs. apply Rabs_le. apply COS_bound. Qed.

Lemma circle_value_lt_1 (x y : R) (m nr : Z) :
  x <> 0 -> Math.abs (circleModeDisplacement x y m nr) < 1.
Proof.
  intros Hx. unfold circleModeDisplacement, radialMode.
  destruct (Rlt_dec 1 (Math.hypot x y)) as [Hout | Hin].
  - unfold Math.abs. rewrite Rabs_R0. lra.
  - set (r := Math.hypot x y).
    assert (Hr : 0 < r * r) by (unfold r; rewrite hypot_sqr; nra).
    assert (He : exp (- 1.2 * r * r) < 1).
    { rewrite <- exp_0. apply exp_increasing. nra. }
    pose proof (exp_pos (- 1.2 * r * r)) as He0.
    pose proof (abs_cos_le_1 (IZR nr * PI * r)) as H1.
    pose proof (abs_cos_le_1 (IZR m * Math.atan2 y x)) as H2.
    unfold Math.abs in *. rewrite !Rabs_mult.
    rewrite (Rabs_pos_eq (exp _)) by lra.
    pose proof (Rabs_pos (cos (IZR nr * PI * r))) as P1.
    pose proof (Rabs_pos (cos (IZR m * Math.atan2 y x))) as P2.
    set (A := Rabs (cos (IZR nr * PI * r))) in *.
    set (B := Rabs (cos (IZR m * Math.atan2 y x))) in *.
    set (e := exp (- 1.2 * r * r)) in *.
    assert (Hae : A * e <= e) by nra.
    assert (Hae0 : 0 <= A * e) by nra.
    assert (Haeb : A * e * B <= A * e * 1)
      by (apply Rmult_le_compat_l; lra).
    lra.
Qed.

Lemma circle_fundamental_pos (x y : R) :
  x * x + y * y < 1 / 4 -> 0 < circleModeDisplacement x y 0 1.
Proof.
  intros Hs. unfold circleModeDisplacement, radialMode.
  pose proof (hypot_nonneg x y) as Hr0.
  pose proof (hypot_sqr x y) as Hr2.
  set (r := Math.hypot x y) in *.
  assert (Hr : r < 1 / 2) by nra.
  destruct (Rlt_dec 1 r) as [Hout | _]; [lra |].
  rewrite Rmult_0_l, cos_0, Rmult_1_r.
  apply Rmult_lt_0_compat; [| apply exp_pos].
  pose proof PI_RGT_0 as Hpi.
  apply cos_gt_0; nra.
Qed.

(* ----------------------------------------------------------------- *)
(** ** The default 320 x 320 grid *)

Lemma gridCoord_320 (i : nat) : gridCoord 320 i = -1 + IZR (Z.of_nat i) * (2 / 319).
Proof.
  unfold gridCoord, gridStep. rewrite !INR_IZR_INZ.
  change (Z.of_nat 320) with 320%Z. f_equal. f_equal. lra.
Qed.

(** The resolution is even, so no grid line passes through the centre. *)
Lemma gridCoord_320_nonzero (i : nat) : gridCoord 320 i <> 0.
Proof.
  rewrite gridCoord_320. intros H.
  assert (H2 : IZR (Z.of_nat i * 2) = IZR 319) by (rewrite mult_IZR; lra).
  apply eq_IZR in H2. lia.
Qed.

Lemma gridCoord_320_mid : gridCoord 320 159 = - (1 / 319).
Proof. rewrite gridCoord_320. change (Z.of_nat 159) with 159%Z. lra. Qed.

Lemma gridCoord_first (res : nat) : gridCoord res 0 = -1.
Proof. unfold gridCoord. cbn [INR]. lra. Qed.

Lemma hypot_corner : Math.hypot (-1) (-1) > 1.
Proof.
  unfold Math.hypot.
  assert (H : sqrt 1 < sqrt (-1 * -1 + -1 * -1)) by (apply sqrt_lt_1; lra).
  rewrite sqrt_1 in H. lra.
Qed.

(* ----------------------------------------------------------------- *)
(** ** recomputeField: the points outside the disc *)

Lemma sampleValue_outside (mode0 mode1 : Mode.t) (alpha : R) (res j i : nat) :
  Math.hypot (gridCoord res i) (gridCoord res j) > 1 ->
  sampleValue circle mode0 mode1 alpha res (j, i) = 0.
Proof.
  intros H. unfold sampleValue, insidePlate. cbn [fst snd].
  apply Rgt_lt, Rleb_false in H. now rewrite H.
Qed.

(** C10, as the code has it.  On the circular plate, with a grid resolution
    of at least [2], both blend modes present, a canvas whose client width
    and height are not zero and a non-negative threshold fraction, every grid
    point outside the unit disc is stored with amplitude [0], the threshold
    is non-negative, and the point is one of the nodal points left by
    [recomputeField], at its canvas position. *)
Theorem outside_points_are_nodal (st : Renderer.t) (mode0 mode1 : Mode.t)
    (j i : nat) :
  Params.shape (Renderer.params st) = circle ->
  (2 <= Renderer.resolution st)%nat ->
  Renderer.clientWidth st <> 0%Z ->
  Renderer.clientHeight st <> 0%Z ->
  0 <= Renderer.nodeThreshold st ->
  BlendInfo.mode0 (computeBlendInfo st) = Some mode0 ->
  BlendInfo.mode1 (computeBlendInfo st) = Some mode1 ->
  (j < Renderer.resolution st)%nat ->
  (i < Renderer.resolution st)%nat ->
  Math.hypot (gridCoord (Renderer.resolution st) i)
             (gridCoord (Renderer.resolution st) j) > 1 ->
  exists ps : Pass.t,
    fieldPass st = Some ps /\
    nth_error (Pass.amplitudes ps) (j * Renderer.resolution st + i) = Some 0 /\
    0 <= Pass.threshold ps /\
    holdsPoint (Renderer.nodalPoints (recomputeField st))
      (Renderer.cx (recomputeField st)
       + gridCoord (Renderer.resolution st) i
         * Renderer.halfPlatePix (recomputeField st))
      (Renderer.cy (recomputeField st)
       - gridCoord (Renderer.resolution st) j
         * Renderer.halfPlatePix (recomputeField st)).
Proof.
  intros Hshape _ Hw Hh Htau H0 H1 Hj Hi Hout.
  set (res := Renderer.resolution st) in *.
  set (bi := computeBlendInfo st) in *.
  exists (samplingPass st bi mode0 mode1).
  pose proof (fieldPass_sampling st mode0 mode1 Hw Hh H0 H1) as Hp.
  fold bi in Hp.
  destruct (recomputeField_pass st _ Hp) as (-> & -> & -> & ->).
  destruct (samplingPass_fields st bi mode0 mode1) as (Ha & HM & Ht & Hn & _).
  fold res in Ha, HM, Ht, Hn.
  assert (Hs : BlendInfo.shape bi = circle)
    by (unfold bi; now rewrite computeBlendInfo_shape).
  rewrite Hs in *.
  destruct (samplePass_spec circle mode0 mode1 (BlendInfo.alpha bi) res)
    as (Hv & HM0 & _).
  set (value := sampleValue circle mode0 mode1 (BlendInfo.alpha bi) res) in *.
  assert (Hval : value (j, i) = 0) by (now apply sampleValue_outside).
  assert (Hthr : 0 <= Pass.threshold (samplingPass st bi mode0 mode1)).
  { rewrite Ht. now apply thresholdOf_nonneg. }
  repeat split.
  - exact Hp.
  - rewrite Ha, Hv. rewrite nth_error_map, gridIndices_nth by assumption.
    cbn. now rewrite Hval.
  - exact Hthr.
  - rewrite Hn, Hv, collectPass_spec.
    apply (pushed_holdsPoint res _ _ _ _ value (gridIndices res) (j, i)).
    + now apply gridIndices_In.
    + rewrite Hval. unfold Math.abs. rewrite Rabs_R0. exact Hthr.
Qed.

Lemma outside_points_are_nodal_witness :
  exists ps : Pass.t,
    fieldPass (circleAt20 600 400 320) = Some ps /\
    nth_error (Pass.amplitudes ps)
      (0 * Renderer.resolution (circleAt20 600 400 320) + 0) = Some 0 /\
    0 <= Pass.threshold ps /\
    holdsPoint (Renderer.nodalPoints (recomputeField (circleAt20 600 400 320)))
      (Renderer.cx (recomputeField (circleAt20 600 400 320))
       + gridCoord (Renderer.resolution (circleAt20 600 400 320)) 0
         * Renderer.halfPlatePix (recomputeField (circleAt20 600 400 320)))
      (Renderer.cy (recomputeField (circleAt20 600 400 320))
       - gridCoord (Renderer.resolution (circleAt20 600 400 320)) 0
         * Renderer.halfPlatePix (recomputeField (circleAt20 600 400 320))).
Proof.
  apply (outside_points_are_nodal (circleAt20 600 400 320)
           (catalogMode 56 0 0 1) (catalogMode 56 1 1 1) 0 0).
  - reflexivity.
  - cbn [circleAt20 Renderer.resolution]. lia.
  - cbn [circleAt20 Renderer.clientWidth]. lia.
  - cbn [circleAt20 Renderer.clientHeight]. lia.
  - cbn [circleAt20 Renderer.nodeThreshold]. lra.
  - now rewrite computeBlendInfo_circleAt20.
  - now rewrite computeBlendInfo_circleAt20.
  - cbn [circleAt20 Renderer.resolution]. lia.
  - cbn [circleAt20 Renderer.resolution]. lia.
  - cbn [circleAt20 Renderer.resolution].
    rewrite gridCoord_first. exact hypot_corner.
Defined.

(** C10, as the claim has it, fails on a canvas that has no client area:
    shape, resolution and blend modes are as the claim asks, the corner of
    the grid is outside the disc, and [recomputeField] leaves no nodal
    point at all. *)
Lemma hidden_canvas_has_no_points :
  Params.shape (Renderer.params (circleAt20 0 0 320)) = circle /\
  (2 <= Renderer.resolution (circleAt20 0 0 320))%nat /\
  BlendInfo.mode0 (computeBlendInfo (circleAt20 0 0 320))
    = Some (catalogMode 56 0 0 1) /\
  BlendInfo.mode1 (computeBlendInfo (circleAt20 0 0 320))
    = Some (catalogMode 56 1 1 1) /\
  Math.hypot (gridCoord 320 0) (gridCoord 320 0) > 1 /\
  Renderer.nodalPoints (recomputeField (circleAt20 0 0 320)) = [] /\
  (forall px py : R,
     ~ holdsPoint (Renderer.nodalPoints (recomputeField (circleAt20 0 0 320)))
         px py).
Proof.
  assert (Hn : Renderer.nodalPoints (recomputeField (circleAt20 0 0 320)) = []).
  { apply recomputeField_early. reflexivity. }
  split; [reflexivity |].
  split; [cbn [circleAt20 Renderer.resolution]; lia |].
  split; [now rewrite computeBlendInfo_circleAt20 |].
  split; [now rewrite computeBlendInfo_circleAt20 |].
  split; [rewrite gridCoord_first; exact hypot_corner |].
  split; [exact Hn |].
  intros px py [k [Hk _]]. rewrite Hn in Hk. destruct (2 * k)%nat; discriminate.
Qed.

(* ----------------------------------------------------------------- *)
(** ** A pass whose largest amplitude is below one *)

Lemma sampleValue_pure_circle_lt_1 (mode0 mode1 : Mode.t) (res j i : nat) :
  gridCoord res i <> 0 ->
  Math.abs (sampleValue circle mode0 mode1 0 res (j, i)) < 1.
Proof.
  intros Hx. unfold sampleValue, blendedValue. cbn [fst snd].
  destruct (insidePlate _ _ _).
  - match goal with
    | |- Math.abs ((1 - 0) * ?v0 + 0 * ?v1) < 1 =>
        replace ((1 - 0) * v0 + 0 * v1) with v0 by ring
    end.
    now apply circle_value_lt_1.
  - unfold Math.abs. rewrite Rabs_R0. lra.
Qed.

Lemma sampleValue_320_inner :
  0 < sampleValue circle (catalogMode 56 0 0 1) (catalogMode 56 1 1 1) 0 320
        (159%nat, 159%nat).
Proof.
  unfold sampleValue, blendedValue, insidePlate. cbn [fst snd].
  rewrite gridCoord_320_mid.
  pose proof (hypot_nonneg (- (1 / 319)) (- (1 / 319))) as Hr0.
  pose proof (hypot_sqr (- (1 / 319)) (- (1 / 319))) as Hr2.
  assert (Hin : Rleb (Math.hypot (- (1 / 319)) (- (1 / 319))) 1 = true)
    by (apply Rleb_true; nra).
  rewrite Hin.
  match goal with
  | |- 0 < (1 - 0) * ?v0 + 0 * ?v1 =>
      replace ((1 - 0) * v0 + 0 * v1) with v0 by ring
  end.
  cbn [catalogMode Mode.m Mode.nRadial Mode.n].
  apply circle_fundamental_pos. lra.
Qed.

(** C1, as the claim has it, fails when the largest amplitude is strictly
    between [0] and [1]: on the default grid over the lowest circular mode
    (20 Hz, size 1) the largest amplitude is such a value, and the threshold
    is the fraction times that value, not the fraction times
    [max(maxAbs, 1)]. *)
Lemma threshold_below_unit_floor :
  exists ps : Pass.t,
    fieldPass (circleAt20 600 400 320) = Some ps /\
    0 < Pass.maxAbs ps < 1 /\
    Pass.threshold ps
      = Renderer.nodeThreshold (circleAt20 600 400 320) * Pass.maxAbs ps /\
    Pass.threshold ps
      <> Renderer.nodeThreshold (circleAt20 600 400 320)
         * Math.max (Pass.maxAbs ps) 1.
Proof.
  set (st := circleAt20 600 400 320).
  set (m0 := catalogMode 56 0 0 1). set (m1 := catalogMode 56 1 1 1).
  set (bi := BlendInfo.mk circle 20 1 (Some m0) (Some m1) 0).
  assert (Hbi : computeBlendInfo st = bi) by apply computeBlendInfo_circleAt20.
  set (ps := samplingPass st bi m0 m1).
  exists ps.
  assert (Hp : fieldPass st = Some ps).
  { unfold ps. rewrite <- Hbi. apply fieldPass_sampling.
    - cbn [st circleAt20 Renderer.clientWidth]. lia.
    - cbn [st circleAt20 Renderer.clientHeight]. lia.
    - now rewrite Hbi.
    - now rewrite Hbi. }
  destruct (samplingPass_fields st bi m0 m1) as (Ha & HM & Ht & _).
  fold ps in Ha, HM, Ht.
  change (BlendInfo.shape bi) with circle in Ha, HM, Ht.
  change (BlendInfo.alpha bi) with 0 in Ha, HM, Ht.
  change (Renderer.resolution st) with 320%nat in Ha, HM, Ht.
  change (Renderer.nodeThreshold st) with 0.08 in Ht.
  destruct (samplePass_spec circle m0 m1 0 320) as (Hv & HM0 & Hup & Hat).
  rewrite <- Ha in Hv, Hup, Hat. rewrite <- HM in HM0, Hup, Hat, Ht.
  assert (Hlow : 0 < Pass.maxAbs ps).
  { pose proof sampleValue_320_inner as Hpos. fold m0 m1 in Hpos.
    eapply Rlt_le_trans; [exact Hpos |].
    eapply Rle_trans; [apply Rle_abs |].
    apply Hup. rewrite Hv. apply in_map. apply gridIndices_In. lia. }
  assert (Hhigh : Pass.maxAbs ps < 1).
  { destruct Hat as [E | [a [Hin E]]]; [lra |].
    rewrite <- E. rewrite Hv in Hin. apply in_map_iff in Hin.
    destruct Hin as [[j i] [<- Hji]]. apply gridIndices_In in Hji.
    apply sampleValue_pure_circle_lt_1. apply gridCoord_320_nonzero. }
  assert (Hthr : Pass.threshold ps = 0.08 * Pass.maxAbs ps).
  { rewrite Ht. now apply thresholdOf_pos. }
  split; [exact Hp |]. split; [lra |].
  change (Renderer.nodeThreshold st) with 0.08.
  split; [exact Hthr |].
  rewrite Hthr. unfold Math.max. rewrite Rmax_right by lra. lra.
Qed.

(* ----------------------------------------------------------------- *)
(** ** The constructor's catalogs, as instances *)

Lemma catalogs_log_uniform_witness :
  Mode.baseFreq (catalogMode 56 1 1 1)
  = exp (ln 20 + INR 1 / (INR 56 - 1) * (ln 20000 - ln 20)).
Proof.
  destruct (catalogs_log_uniform 7 7) as [_ Hc].
  destruct (Hc 1%nat (catalogMode 56 1 1 1) (proj2 circle_catalog_head))
    as (_ & Hf & _).
  rewrite (proj2 catalogs_length) in Hf. apply Hf. lia.
Defined.

Lemma catalogs_sorted_stable_witness :
  Mode.modeIndex (catalogMode 56 0 0 1) <= Mode.modeIndex (catalogMode 56 1 1 1).
Proof.
  destruct (catalogs_sorted_stable 7 7) as [_ (Hs & _)].
  apply (Hs 0%nat 1%nat); [lia | apply circle_catalog_head ..].
Defined.

(** The lowest and the highest base frequency of a catalog of more than one
    mode are 20 Hz and 20000 Hz. *)
Lemma baseFreqAt_ends (N : nat) :
  (1 < N)%nat -> baseFreqAt N 0 = 20 /\ baseFreqAt N (N - 1) = 20000.
Proof.
  intros HN. unfold baseFreqAt.
  apply Nat.ltb_lt in HN. rewrite HN. apply Nat.ltb_lt in HN.
  unfold LOG_F_MIN, LOG_F_MAX, Math.log, F_MIN, F_MAX. split.
  - cbn [INR]. unfold Rdiv. rewrite !Rmult_0_l, Rplus_0_r. apply exp_ln. lra.
  - rewrite minus_INR by lia. cbn [INR].
    assert (Hne : INR N - 1 <> 0).
    { apply lt_INR in HN. cbn [INR] in HN. lra. }
    replace (ln 20 + (INR N - 1) / (INR N - 1) * (ln 20000 - ln 20))
      with (ln 20000) by (field; exact Hne).
    apply exp_ln. lra.
Qed.

(* ----------------------------------------------------------------- *)
(** ** updateParams: a change of plate size *)

Lemma recomputeField_catalogs (st : Renderer.t) :
  Renderer.squareModes (recomputeField st) = Renderer.squareModes st /\
  Renderer.circleModes (recomputeField st) = Renderer.circleModes st /\
  Renderer.params (recomputeField st) = Renderer.params st.
Proof. unfold recomputeField. destruct (fieldPass st); cbn; repeat split. Qed.

(** X20.  A call of [updateParams] that changes the plate size to [L > 0]
    rescales both catalogs for [L]; a call that names the size it already
    has leaves the catalogs as they are. *)
Lemma updateParams_plateSize (st : Renderer.t) (np : NewParams.t) (L : R) :
  NewParams.plateSize np = Some L -> 0 < L ->
  let st' := updateParams st np in
  Params.plateSize (Renderer.params st') = L /\
  (L <> Params.plateSize (Renderer.params st) ->
   Forall2 (rescaled L) (Renderer.squareModes st) (Renderer.squareModes st') /\
   Forall2 (rescaled L) (Renderer.circleModes st) (Renderer.circleModes st')) /\
  (L = Params.plateSize (Renderer.params st) ->
   Renderer.squareModes st' = Renderer.squareModes st /\
   Renderer.circleModes st' = Renderer.circleModes st).
Proof.
  intros Hnp HL st'. subst st'. unfold updateParams. rewrite Hnp.
  destruct (Req_dec_T L (Params.plateSize (Renderer.params st))) as [E | E].
  - destruct (recomputeField_catalogs
                (withParams st (assignParams (Renderer.params st) np)))
      as (-> & -> & ->).
    cbn. rewrite Hnp. repeat split; try reflexivity; contradiction.
  - destruct (recomputeField_catalogs
                (updateModeFrequencies
                   (withParams st (assignParams (Renderer.params st) np))))
      as (-> & -> & ->).
    cbn. rewrite Hnp. rewrite orElse_nonzero by lra.
    repeat split; try contradiction; apply map_rescale_Forall2; lra.
Qed.

(* ================================================================= *)
(** * Further properties of the frequency mapping *)

Lemma clamp_bounds (lo hi a : R) :
  lo <= hi -> lo <= Math.max lo (Math.min hi a) <= hi.
Proof.
  intros H. unfold Math.max, Math.min, Rmax, Rmin.
  repeat destruct (Rle_dec _ _); lra.
Qed.

Lemma clamp_idempotent (lo hi a : R) :
  lo <= hi ->
  Math.max lo (Math.min hi (Math.max lo (Math.min hi a)))
  = Math.max lo (Math.min hi a).
Proof. intros H. apply clamp_inside. now apply clamp_bounds. Qed.

Lemma blendPosition_bounds (pr : Params.t) (N : nat) :
  (1 <= N)%nat -> 0 <= blendPosition pr N <= INR N - 1.
Proof.
  intros HN. unfold blendPosition.
  set (t := (_ - LOG_F_MIN) / _).
  pose proof (clamp_bounds 0 1 t) as Ht.
  assert (H0 : 0 <= INR N - 1) by (apply le_INR in HN; cbn in HN; lra).
  split; [apply Rmult_le_pos; lra |].
  rewrite <- (Rmult_1_l (INR N - 1)) at 2.
  apply Rmult_le_compat_r; lra.
Qed.

Lemma at_index_nth {A : Type} (l : list A) (i : Z) :
  (0 <= i)%Z -> at_index l i = nth_error l (Z.to_nat i).
Proof. intros H. unfold at_index. apply Z.ltb_ge in H. now rewrite H. Qed.

Lemma nth_error_present {A : Type} (l : list A) (k : nat) :
  (k < length l)%nat -> exists a, nth_error l k = Some a /\ In a l.
Proof.
  intros H. destruct (nth_error l k) as [a |] eqn:E.
  - exists a. split; [reflexivity | now apply nth_error_In in E].
  - apply nth_error_None in E. lia.
Qed.

Lemma clamp_low (lo hi a : R) : lo <= hi -> a <= lo -> Math.max lo (Math.min hi a) = lo.
Proof.
  intros H Ha. unfold Math.max, Math.min, Rmax, Rmin.
  repeat destruct (Rle_dec _ _); lra.
Qed.

Lemma clamp_high (lo hi a : R) : lo <= hi -> hi <= a -> Math.max lo (Math.min hi a) = hi.
Proof.
  intros H Ha. unfold Math.max, Math.min, Rmax, Rmin.
  repeat destruct (Rle_dec _ _); lra.
Qed.

(** [p] as a function of the projected frequency [driveHz * L * L]. *)
Lemma blendPosition_of_base (pr : Params.t) (N : nat) :
  let fBase := driveFrequency pr * effectiveSize pr * effectiveSize pr in
  (fBase <= 20 -> blendPosition pr N = 0) /\
  (20000 <= fBase -> blendPosition pr N = INR N - 1) /\
  (20 <= fBase <= 20000 ->
   0 <= (ln fBase - ln 20) / (ln 20000 - ln 20) <= 1 /\
   blendPosition pr N = (ln fBase - ln 20) / (ln 20000 - ln 20) * (INR N - 1)).
Proof.
  intros fBase. pose proof log_span_pos as Hspan.
  unfold blendPosition. fold fBase.
  unfold LOG_F_MAX, LOG_F_MIN, Math.log, F_MAX, F_MIN in *.
  split; [| split].
  - intros H. rewrite (clamp_low 20 20000 fBase) by lra.
    replace ((ln 20 - ln 20) / (ln 20000 - ln 20)) with 0 by (field; lra).
    rewrite (clamp_inside 0 1 0) by lra. ring.
  - intros H. rewrite (clamp_high 20 20000 fBase) by lra.
    replace ((ln 20000 - ln 20) / (ln 20000 - ln 20)) with 1 by (field; lra).
    rewrite (clamp_inside 0 1 1) by lra. ring.
  - intros [H1 H2]. rewrite (clamp_inside 20 20000 fBase) by lra.
    assert (Hlo : ln 20 <= ln fBase) by (apply log_le; lra).
    assert (Hhi : ln fBase <= ln 20000) by (apply log_le; lra).
    assert (Ht : 0 <= (ln fBase - ln 20) / (ln 20000 - ln 20) <= 1).
    { split.
      - apply Rmult_le_pos; [lra | left; apply Rinv_0_lt_compat; lra].
      - apply (Rmult_le_reg_r (ln 20000 - ln 20)); [lra |].
        unfold Rdiv. rewrite Rmult_assoc, Rinv_l by lra. lra. }
    split; [exact Ht |]. now rewrite clamp_inside.
Qed.

Lemma floor_INR (k : nat) : Math.floor (INR k) = Z.of_nat k.
Proof. unfold Math.floor. rewrite INR_IZR_INZ. apply ZfloorZ. Qed.

Lemma floor_INR_pred (N : nat) :
  (1 <= N)%nat -> Math.floor (INR N - 1) = (Z.of_nat N - 1)%Z.
Proof.
  intros H. replace (INR N - 1) with (INR (N - 1)).
  - rewrite floor_INR. lia.
  - rewrite minus_INR by lia. reflexivity.
Qed.

Lemma computeBlendObject_nonempty (st : Renderer.t) :
  activeModes st <> [] ->
  let shape := Params.shape (Renderer.params st) in
  let p := blendPosition (Renderer.params st) (length (activeModes st)) in
  let i0 := Math.floor p in
  let b := computeBlendObject st in
  BlendObject.mode0 b = objectAt shape (activeModes st) i0 /\
  BlendObject.mode1 b =
    objectAt shape (activeModes st)
      (Z.min (i0 + 1) (Z.of_nat (length (activeModes st)) - 1)).
Proof.
  intros Hne. unfold computeBlendObject.
  destruct (activeModes st) as [| a l] eqn:E; [congruence |].
  cbn [length Nat.eqb]. cbv zeta. split; reflexivity.
Qed.

Lemma objectAt_present (shape : Shape) (modes : list Mode.t) (k : nat) :
  (k < length modes)%nat ->
  objectAt shape modes (Z.of_nat k) = Some (ModeRef.mk shape k).
Proof.
  intros H. unfold objectAt. rewrite at_index_nth by lia.
  rewrite Nat2Z.id.
  destruct (nth_error_present modes k H) as (a & -> & _). reflexivity.
Qed.

(** X1.  For a non-empty catalog of [N] modes and the interpolation index
    [p] of lines 188-199: [0 <= p <= N - 1], and with [i0 = floor p] (so
    [i0 <= p < i0 + 1]) and [i1 = min (i0 + 1) (N - 1)] the descriptor's
    [mode0] and [mode1] are the catalog's entries at the positions [i0] and
    [i1], both present, the descriptor object holding these two objects of
    the catalog, and [alpha = p - i0], hence [0 <= alpha < 1].  When the
    projected frequency [driveHz * L * L] is inside [20, 20000], [p] is
    [(ln fBase - ln 20) / (ln 20000 - ln 20) * (N - 1)].  The descriptor's
    frequency is inside [20, 20000] and its plate size is not zero. *)
Theorem blend_modes_present (st : Renderer.t) :
  activeModes st <> [] ->
  let pr := Renderer.params st in
  let modes := activeModes st in
  let N := length modes in
  let p := blendPosition pr N in
  let i0 := Z.to_nat (Math.floor p) in
  let i1 := Nat.min (i0 + 1) (N - 1) in
  let fBase := driveFrequency pr * effectiveSize pr * effectiveSize pr in
  let bi := computeBlendInfo st in
  0 <= p <= INR N - 1 /\
  INR i0 <= p < INR i0 + 1 /\
  (i0 < N)%nat /\ (i1 < N)%nat /\
  BlendInfo.mode0 bi = nth_error modes i0 /\
  BlendInfo.mode1 bi = nth_error modes i1 /\
  (exists m0 m1 : Mode.t,
     nth_error modes i0 = Some m0 /\ nth_error modes i1 = Some m1) /\
  BlendObject.mode0 (computeBlendObject st)
  = Some (ModeRef.mk (Params.shape pr) i0) /\
  BlendObject.mode1 (computeBlendObject st)
  = Some (ModeRef.mk (Params.shape pr) i1) /\
  BlendInfo.alpha bi = p - INR i0 /\
  0 <= BlendInfo.alpha bi < 1 /\
  (20 <= fBase <= 20000 ->
   p = (ln fBase - ln 20) / (ln 20000 - ln 20) * (INR N - 1)) /\
  20 <= BlendInfo.freqHz bi <= 20000 /\
  BlendInfo.plateSize bi <> 0.
Proof.
  intros Hne pr modes N p i0 i1 fBase bi.
  destruct (computeBlendInfo_nonempty st Hne) as (Ha & H0 & H1 & _ & Hs).
  destruct (computeBlendObject_nonempty st Hne) as (Ho0 & Ho1).
  assert (HN : (1 <= N)%nat).
  { unfold N, modes. destruct (activeModes st); [contradiction | cbn; lia]. }
  fold pr modes N p bi in Ha, H0, H1, Hs, Ho0, Ho1.
  pose proof (blendPosition_bounds pr N HN) as Hp. fold p in Hp.
  pose proof (Zfloor_bound p) as Hfl.
  assert (Hz : (0 <= Math.floor p <= Z.of_nat N - 1)%Z).
  { unfold Math.floor. split.
    - apply Zfloor_lub. lra.
    - apply le_IZR. rewrite minus_IZR, <- INR_IZR_INZ. lra. }
  assert (Hi0 : INR i0 = IZR (Math.floor p)).
  { unfold i0. rewrite INR_IZR_INZ, Z2Nat.id by lia. reflexivity. }
  assert (Hz0 : Math.floor p = Z.of_nat i0) by (unfold i0; lia).
  assert (Hz1 : Z.min (Math.floor p + 1) (Z.of_nat N - 1) = Z.of_nat i1)
    by (unfold i1; lia).
  assert (Hlt0 : (i0 < N)%nat) by (unfold i0; lia).
  assert (Hlt1 : (i1 < N)%nat) by (unfold i1; lia).
  rewrite Hz1 in H1, Ho1. rewrite Hz0 in H0, Ho0.
  rewrite at_index_nth, Nat2Z.id in H0, H1 by lia.
  split; [exact Hp |].
  split; [rewrite Hi0; unfold Math.floor; lra |].
  split; [exact Hlt0 |]. split; [exact Hlt1 |].
  split; [exact H0 |]. split; [exact H1 |].
  split.
  { destruct (nth_error_present modes i0 Hlt0) as (m0 & Hm0 & _).
    destruct (nth_error_present modes i1 Hlt1) as (m1 & Hm1 & _).
    now exists m0, m1. }
  split; [rewrite Ho0; now apply objectAt_present |].
  split; [rewrite Ho1; now apply objectAt_present |].
  split; [rewrite Ha, Hi0; reflexivity |].
  split; [rewrite Ha; unfold Math.floor; lra |].
  split.
  { intros Hf. exact (proj2 (proj2 (proj2 (blendPosition_of_base pr N)) Hf)). }
  split.
  - unfold bi, computeBlendInfo. fold modes. fold N.
    destruct (N =? 0)%nat eqn:E; [apply Nat.eqb_eq in E; lia |].
    cbn [BlendInfo.freqHz]. unfold driveFrequency. fold pr.
    pose proof (clamp_bounds F_MIN F_MAX (Params.freqHz pr)) as Hc.
    unfold F_MIN, F_MAX in *. lra.
  - rewrite Hs. unfold effectiveSize, orElse.
    destruct (Req_dec_T _ 0); lra.
Qed.

Lemma blend_modes_present_witness :
  let st := constructed 600 400 in
  let pr := Renderer.params st in
  let modes := activeModes st in
  let N := length modes in
  let p := blendPosition pr N in
  let i0 := Z.to_nat (Math.floor p) in
  let i1 := Nat.min (i0 + 1) (N - 1) in
  let fBase := driveFrequency pr * effectiveSize pr * effectiveSize pr in
  let bi := computeBlendInfo st in
  0 <= p <= INR N - 1 /\
  INR i0 <= p < INR i0 + 1 /\
  (i0 < N)%nat /\ (i1 < N)%nat /\
  BlendInfo.mode0 bi = nth_error modes i0 /\
  BlendInfo.mode1 bi = nth_error modes i1 /\
  (exists m0 m1 : Mode.t,
     nth_error modes i0 = Some m0 /\ nth_error modes i1 = Some m1) /\
  BlendObject.mode0 (computeBlendObject st)
  = Some (ModeRef.mk (Params.shape pr) i0) /\
  BlendObject.mode1 (computeBlendObject st)
  = Some (ModeRef.mk (Params.shape pr) i1) /\
  BlendInfo.alpha bi = p - INR i0 /\
  0 <= BlendInfo.alpha bi < 1 /\
  (20 <= fBase <= 20000 ->
   p = (ln fBase - ln 20) / (ln 20000 - ln 20) * (INR N - 1)) /\
  20 <= BlendInfo.freqHz bi <= 20000 /\
  BlendInfo.plateSize bi <> 0.
Proof.
  apply (blend_modes_present (constructed 600 400)).
  unfold activeModes, constructed.
  cbn [Renderer.params Params.shape Renderer.squareModes].
  intros E. pose proof (proj1 catalogs_length) as H. rewrite E in H. discriminate H.
Defined.

(** X2.  For a non-empty catalog: when the projected frequency
    [driveHz * L * L] is at most 20 the descriptor is the first catalog
    entry with [alpha = 0]; when it is at least 20000 both modes are the last
    catalog entry and [alpha = 0]. *)
Theorem blend_saturates (st : Renderer.t) :
  activeModes st <> [] ->
  let pr := Renderer.params st in
  let fBase := driveFrequency pr * effectiveSize pr * effectiveSize pr in
  let modes := activeModes st in
  let bi := computeBlendInfo st in
  (fBase <= 20 ->
   BlendInfo.alpha bi = 0 /\ BlendInfo.mode0 bi = nth_error modes 0) /\
  (20000 <= fBase ->
   BlendInfo.alpha bi = 0 /\
   BlendInfo.mode0 bi = nth_error modes (length modes - 1) /\
   BlendInfo.mode1 bi = nth_error modes (length modes - 1)).
Proof.
  intros Hne pr fBase modes bi.
  destruct (computeBlendInfo_nonempty st Hne) as (Ha & H0 & H1 & _).
  assert (HN : (1 <= length (activeModes st))%nat).
  { destruct (activeModes st); [contradiction | cbn; lia]. }
  fold modes bi pr in Ha, H0, H1, HN.
  destruct (blendPosition_of_base pr (length modes)) as (Hlow & Hhigh & _).
  fold fBase in Hlow, Hhigh.
  split; intros Hf.
  - rewrite (Hlow Hf) in Ha, H0.
    change 0 with (INR 0) in Ha at 2. change 0 with (INR 0) in H0.
    rewrite floor_INR in Ha, H0. cbn in Ha.
    split; [lra | exact H0].
  - rewrite (Hhigh Hf) in Ha, H0, H1. rewrite floor_INR_pred in Ha, H0, H1 by exact HN.
    split; [rewrite Ha, minus_IZR, <- INR_IZR_INZ; lra |].
    split.
    + rewrite H0, at_index_nth by lia. f_equal. lia.
    + rewrite H1, at_index_nth by lia. f_equal. lia.
Qed.

Lemma blend_saturates_witness :
  let st := circleAt20 600 400 320 in
  let pr := Renderer.params st in
  let fBase := driveFrequency pr * effectiveSize pr * effectiveSize pr in
  let modes := activeModes st in
  let bi := computeBlendInfo st in
  (fBase <= 20 ->
   BlendInfo.alpha bi = 0 /\ BlendInfo.mode0 bi = nth_error modes 0) /\
  (20000 <= fBase ->
   BlendInfo.alpha bi = 0 /\
   BlendInfo.mode0 bi = nth_error modes (length modes - 1) /\
   BlendInfo.mode1 bi = nth_error modes (length modes - 1)).
Proof.
  apply (blend_saturates (circleAt20 600 400 320)).
  unfold activeModes, circleAt20. cbn [Renderer.params Params.shape Renderer.circleModes].
  intros E. pose proof (proj2 catalogs_length) as H. rewrite E in H. discriminate H.
Defined.

Lemma activeModes_withParams (st : Renderer.t) (pr : Params.t) :
  activeModes (withParams st pr)
  = match Params.shape pr with
    | square => Renderer.squareModes st
    | circle => Renderer.circleModes st
    end.
Proof. reflexivity. Qed.

(** X3.  For a non-empty catalog a driving frequency outside [20, 20000]
    gives the descriptor of the nearest end of the range: the descriptor of
    [f] is the descriptor of [max(20, min(20000, f))]. *)
Theorem out_of_range_frequency_clamped (st : Renderer.t) (sh : Shape) (L f : R) :
  activeModes (withParams st (Params.mk sh L f)) <> [] ->
  computeBlendInfo (withParams st (Params.mk sh L f))
  = computeBlendInfo
      (withParams st (Params.mk sh L (Math.max 20 (Math.min 20000 f)))).
Proof.
  intros Hne. unfold computeBlendInfo.
  rewrite !activeModes_withParams in *. cbn [Params.shape] in *.
  set (modes := match sh with
                | square => Renderer.squareModes st
                | circle => Renderer.circleModes st
                end) in *.
  destruct (length modes =? 0)%nat eqn:E.
  { apply Nat.eqb_eq in E. destruct modes; [contradiction | discriminate]. }
  cbn [withParams Renderer.params Params.shape].
  assert (Hd : driveFrequency (Params.mk sh L (Math.max 20 (Math.min 20000 f)))
               = driveFrequency (Params.mk sh L f)).
  { unfold driveFrequency, F_MIN, F_MAX. cbn [Params.freqHz].
    apply clamp_idempotent. lra. }
  assert (Hp : blendPosition (Params.mk sh L (Math.max 20 (Math.min 20000 f)))
                 (length modes)
               = blendPosition (Params.mk sh L f) (length modes)).
  { unfold blendPosition. now rewrite Hd. }
  rewrite Hp, Hd. reflexivity.
Qed.

Lemma out_of_range_frequency_clamped_witness :
  computeBlendInfo (withParams (circleAt20 600 400 320) (Params.mk circle 1 5))
  = computeBlendInfo
      (withParams (circleAt20 600 400 320)
         (Params.mk circle 1 (Math.max 20 (Math.min 20000 5)))).
Proof.
  apply (out_of_range_frequency_clamped (circleAt20 600 400 320) circle 1 5).
  rewrite activeModes_withParams. cbn [Params.shape circleAt20 Renderer.circleModes].
  intros E. pose proof (proj2 catalogs_length) as H. rewrite E in H. discriminate H.
Defined.

Lemma blendPosition_le (pr1 pr2 : Params.t) (N : nat) :
  (1 <= N)%nat ->
  driveFrequency pr1 * effectiveSize pr1 * effectiveSize pr1
    <= driveFrequency pr2 * effectiveSize pr2 * effectiveSize pr2 ->
  blendPosition pr1 N <= blendPosition pr2 N.
Proof.
  intros HN Hf. unfold blendPosition.
  assert (HN0 : 0 <= INR N - 1) by (apply le_INR in HN; cbn in HN; lra).
  apply Rmult_le_compat_r; [exact HN0 |].
  apply clamp_le.
  apply Rmult_le_compat_r; [left; apply Rinv_0_lt_compat, log_span_pos |].
  apply Rplus_le_compat_r. apply log_le.
  - pose proof (clamp_lower F_MIN F_MAX
      (driveFrequency pr1 * effectiveSize pr1 * effectiveSize pr1)) as Hlo.
    unfold F_MIN in *. lra.
  - now apply clamp_le.
Qed.

Lemma driveFrequency_pos (pr : Params.t) : 20 <= driveFrequency pr <= 20000.
Proof.
  unfold driveFrequency.
  pose proof (clamp_bounds F_MIN F_MAX (Params.freqHz pr)).
  unfold F_MIN, F_MAX in *. lra.
Qed.

(** X4.  With the frequency fixed, a larger plate never lowers the
    interpolation index [p]; the sign of the size does not matter; and a
    size of [0] acts as the size [1]. *)
Theorem blendPosition_plate_size (sh : Shape) (f L1 L2 : R) (N : nat) :
  (1 <= N)%nat -> 0 < L1 <= L2 ->
  blendPosition (Params.mk sh L1 f) N <= blendPosition (Params.mk sh L2 f) N /\
  blendPosition (Params.mk sh (- L1) f) N = blendPosition (Params.mk sh L1 f) N /\
  blendPosition (Params.mk sh 0 f) N = blendPosition (Params.mk sh 1 f) N.
Proof.
  intros HN [H1 H2]. split; [| split].
  - apply blendPosition_le; [exact HN |].
    unfold effectiveSize, driveFrequency. cbn [Params.plateSize Params.freqHz].
    rewrite !orElse_nonzero by lra.
    pose proof (driveFrequency_pos (Params.mk sh L1 f)) as Hd.
    unfold driveFrequency in Hd. cbn [Params.freqHz] in Hd.
    set (d := Math.max F_MIN (Math.min F_MAX f)) in *.
    rewrite !Rmult_assoc. apply Rmult_le_compat_l; nra.
  - unfold blendPosition, effectiveSize, driveFrequency.
    cbn [Params.plateSize Params.freqHz]. rewrite !orElse_nonzero by lra.
    set (d := Math.max F_MIN (Math.min F_MAX f)).
    replace (d * - L1 * - L1) with (d * L1 * L1) by ring. reflexivity.
  - unfold blendPosition, effectiveSize, driveFrequency, orElse.
    cbn [Params.plateSize Params.freqHz].
    destruct (Req_dec_T 0 0) as [_ | H]; [| contradiction].
    destruct (Req_dec_T 1 0) as [H | _]; [lra | reflexivity].
Qed.

Lemma blendPosition_plate_size_witness :
  blendPosition (Params.mk square 0.6 440) 42
    <= blendPosition (Params.mk square 1.2 440) 42 /\
  blendPosition (Params.mk square (Ropp 0.6) 440) 42
    = blendPosition (Params.mk square 0.6 440) 42 /\
  blendPosition (Params.mk square 0 440) 42
    = blendPosition (Params.mk square 1 440) 42.
Proof.
  apply (blendPosition_plate_size square 440 0.6 1.2 42); [lia | lra].
Defined.

Lemma baseFreqAt_range (N k : nat) :
  (1 < N)%nat -> (k < N)%nat ->
  0 <= INR k / (INR N - 1) <= 1 /\
  baseFreqAt N k = exp (ln 20 + INR k / (INR N - 1) * (ln 20000 - ln 20)) /\
  20 <= baseFreqAt N k <= 20000.
Proof.
  intros HN Hk. pose proof log_span_pos as Hspan.
  unfold LOG_F_MAX, LOG_F_MIN, Math.log, F_MAX, F_MIN in Hspan.
  assert (HN1 : 0 < INR N - 1) by (apply lt_INR in HN; cbn in HN; lra).
  assert (Hk0 : 0 <= INR k) by apply pos_INR.
  assert (Hk1 : INR k <= INR N - 1).
  { assert (k <= N - 1)%nat as H by lia. apply le_INR in H.
    rewrite minus_INR in H by lia. cbn in H. lra. }
  assert (Ht : 0 <= INR k / (INR N - 1) <= 1).
  { split.
    - apply Rmult_le_pos; [lra | left; now apply Rinv_0_lt_compat].
    - apply (Rmult_le_reg_r (INR N - 1)); [lra |].
      unfold Rdiv. rewrite Rmult_assoc, Rinv_l by lra. lra. }
  assert (Hf : baseFreqAt N k
               = exp (ln 20 + INR k / (INR N - 1) * (ln 20000 - ln 20)))
    by (apply baseFreqAt_formula; lia).
  split; [exact Ht |]. split; [exact Hf |].
  rewrite Hf. set (t := INR k / (INR N - 1)) in *.
  rewrite <- (exp_ln 20) at 1 by lra. rewrite <- (exp_ln 20000) at 3 by lra.
  split.
  - destruct (Req_dec_T t 0) as [-> | Hne].
    + right. f_equal. ring.
    + left. apply exp_increasing. nra.
  - destruct (Req_dec_T t 1) as [-> | Hne].
    + right. f_equal. ring.
    + left. apply exp_increasing. nra.
Qed.

Lemma ratio_in_unit (u d : R) : 0 <= u < d -> 0 <= u / d < 1.
Proof.
  intros [H0 H1]. assert (Hd : 0 < d) by lra. split.
  - apply Rmult_le_pos; [exact H0 | left; now apply Rinv_0_lt_compat].
  - apply (Rmult_lt_reg_r d); [exact Hd |].
    unfold Rdiv. rewrite Rmult_assoc, Rinv_l by lra. lra.
Qed.

(** Between the base frequencies of two consecutive catalog entries, [p]
    is the position of the first one plus the position of the projected
    frequency between the two, on a logarithmic scale. *)
Lemma blendPosition_between (pr : Params.t) (N k : nat) :
  let fBase := driveFrequency pr * effectiveSize pr * effectiveSize pr in
  let w := (ln fBase - ln (baseFreqAt N k))
           / (ln (baseFreqAt N (k + 1)) - ln (baseFreqAt N k)) in
  (k + 1 < N)%nat ->
  baseFreqAt N k <= fBase < baseFreqAt N (k + 1) ->
  0 <= w < 1 /\ blendPosition pr N = INR k + w.
Proof.
  intros fBase w Hk [Hlo Hhi].
  destruct (baseFreqAt_range N k) as (_ & Ea & Ra); [lia | lia |].
  destruct (baseFreqAt_range N (k + 1)) as (_ & Eb & Rb); [lia | lia |].
  pose proof log_span_pos as Hspan.
  unfold LOG_F_MAX, LOG_F_MIN, Math.log, F_MAX, F_MIN in Hspan.
  assert (HD : 0 < INR N - 1).
  { assert (1 < N)%nat as H by lia. apply lt_INR in H. cbn in H. lra. }
  assert (Hw : 0 <= w < 1).
  { apply ratio_in_unit. split.
    - assert (ln (baseFreqAt N k) <= ln fBase) by (apply log_le; lra). lra.
    - assert (ln fBase < ln (baseFreqAt N (k + 1)))
        by (apply ln_increasing; lra).
      lra. }
  split; [exact Hw |].
  destruct (blendPosition_of_base pr N) as (_ & _ & Hmid).
  fold fBase in Hmid. destruct Hmid as (_ & ->); [lra |].
  unfold w. rewrite Ea, Eb, !ln_exp. rewrite plus_INR. cbn [INR].
  field. lra.
Qed.

(** X5.  The blend is a cross-fade between consecutive catalog modes, linear
    in the logarithm of the frequency.  When the projected frequency
    [driveHz * L * L] lies between the base frequencies of the catalog
    entries at the positions [k] and [k + 1] (base frequencies as the
    builders assign them), the blended displacement [recomputeField]
    samples is, at every point, [(1 - w) * u_k + w * u_(k+1)], where [u_k]
    and [u_(k+1)] are the displacements of these two entries and
    [w = (ln fBase - ln f_k) / (ln f_(k+1) - ln f_k)], with [0 <= w < 1]. *)
Theorem blend_between_catalog_frequencies (st : Renderer.t) (k : nat)
    (a b : Mode.t) :
  let pr := Renderer.params st in
  let modes := activeModes st in
  let fBase := driveFrequency pr * effectiveSize pr * effectiveSize pr in
  let w := (ln fBase - ln (Mode.baseFreq a))
           / (ln (Mode.baseFreq b) - ln (Mode.baseFreq a)) in
  let bi := computeBlendInfo st in
  nth_error modes k = Some a ->
  nth_error modes (k + 1) = Some b ->
  Mode.baseFreq a = baseFreqAt (length modes) k ->
  Mode.baseFreq b = baseFreqAt (length modes) (k + 1) ->
  Mode.baseFreq a <= fBase < Mode.baseFreq b ->
  0 <= w < 1 /\
  exists m0 m1 : Mode.t,
    BlendInfo.mode0 bi = Some m0 /\
    BlendInfo.mode1 bi = Some m1 /\
    forall xNorm yNorm : R,
      blendedValue (BlendInfo.shape bi) m0 m1 (BlendInfo.alpha bi) xNorm yNorm
      = match Params.shape pr with
        | square =>
            (1 - w) * squareModeDisplacement xNorm yNorm (Mode.m a) (Mode.n a)
            + w * squareModeDisplacement xNorm yNorm (Mode.m b) (Mode.n b)
        | circle =>
            (1 - w) * circleModeDisplacement xNorm yNorm (Mode.m a) (Mode.nRadial a)
            + w * circleModeDisplacement xNorm yNorm (Mode.m b) (Mode.nRadial b)
        end.
Proof.
  intros pr modes fBase w bi Ha Hb Ea Eb Hf.
  assert (Hk : (k + 1 < length modes)%nat) by (apply nth_error_Some; congruence).
  assert (Hne : activeModes st <> []).
  { intros E. unfold modes in Hk. rewrite E in Hk. cbn in Hk. lia. }
  destruct (computeBlendInfo_nonempty st Hne) as (Hal & H0 & H1 & Hsh & _).
  fold pr modes bi in Hal, H0, H1, Hsh.
  destruct (blendPosition_between pr (length modes) k Hk) as (Hw & Hp).
  { fold fBase. rewrite <- Ea, <- Eb. exact Hf. }
  fold fBase in Hw, Hp. rewrite <- Ea, <- Eb in Hw, Hp. fold w in Hw, Hp.
  assert (Hfl : Math.floor (blendPosition pr (length modes)) = Z.of_nat k).
  { unfold Math.floor. apply Zfloor_eq. rewrite <- INR_IZR_INZ. lra. }
  rewrite Hfl in Hal, H0, H1.
  replace (Z.min (Z.of_nat k + 1) (Z.of_nat (length modes) - 1))
    with (Z.of_nat (k + 1)) in H1 by lia.
  rewrite at_index_nth, Nat2Z.id in H0, H1 by lia.
  split; [exact Hw |].
  exists a, b. split; [congruence |]. split; [congruence |].
  intros xNorm yNorm. rewrite Hsh, Hal, Hp, <- INR_IZR_INZ.
  replace (INR k + w - INR k) with w by ring.
  unfold blendedValue. destruct (Params.shape pr); reflexivity.
Qed.

(** [20 * 1000^(9/41) <= 100 < 20 * 1000^(10/41)], from
    [2^27 <= 5^14] and [5^11 < 2^30]. *)
Lemma baseFreqAt_around_100 : baseFreqAt 42 9 <= 100 < baseFreqAt 42 10.
Proof.
  rewrite !baseFreqAt_formula by lia.
  assert (H2 : 0 < 2) by lra. assert (H5 : 0 < 5) by lra.
  assert (E20 : ln 20 = 2 * ln 2 + ln 5).
  { replace 20 with (2 * (2 * 5)) by lra. rewrite !ln_mult by lra. ring. }
  assert (E20000 : ln 20000 = 5 * ln 2 + 4 * ln 5).
  { replace 20000 with (2 * (2 * (2 * (2 * (2 * (5 * (5 * (5 * 5)))))))) by lra.
    rewrite !ln_mult by lra. ring. }
  assert (E100 : ln 100 = 2 * ln 2 + 2 * ln 5).
  { replace 100 with (2 * (2 * (5 * 5))) by lra. rewrite !ln_mult by lra. ring. }
  assert (Hlo : 27 * ln 2 <= 14 * ln 5).
  { assert (H : ln (2 ^ 27) <= ln (5 ^ 14)).
    { apply log_le; [apply pow_lt; lra |].
      rewrite !pow_IZR. apply IZR_le. vm_compute. discriminate. }
    rewrite !ln_pow in H by lra.
    replace (INR 27) with 27 in H by (rewrite INR_IZR_INZ; reflexivity).
    replace (INR 14) with 14 in H by (rewrite INR_IZR_INZ; reflexivity).
    exact H. }
  assert (Hhi : 11 * ln 5 < 30 * ln 2).
  { assert (H : ln (5 ^ 11) < ln (2 ^ 30)).
    { apply ln_increasing; [apply pow_lt; lra |].
      rewrite !pow_IZR. apply IZR_lt. vm_compute. reflexivity. }
    rewrite !ln_pow in H by lra.
    replace (INR 11) with 11 in H by (rewrite INR_IZR_INZ; reflexivity).
    replace (INR 30) with 30 in H by (rewrite INR_IZR_INZ; reflexivity).
    exact H. }
  replace (INR 42) with 42 by (rewrite INR_IZR_INZ; reflexivity).
  replace (INR 9) with 9 by (rewrite INR_IZR_INZ; reflexivity).
  replace (INR 10) with 10 by (rewrite INR_IZR_INZ; reflexivity).
  assert (E : exp (2 * ln 2 + 2 * ln 5) = 100)
    by (rewrite <- E100; apply exp_ln; lra).
  rewrite <- E, E20, E20000.
  split.
  - destruct (Rle_lt_or_eq_dec _ _ Hlo) as [Hlt | Heq].
    + left. apply exp_increasing. lra.
    + right. f_equal. lra.
  - apply exp_increasing. lra.
Qed.

(** The constructor's renderer on the square plate of size [1] driven at
    100 Hz: the projected frequency lies between the base frequencies of the
    entries 9 and 10 of the square catalog, the modes (4, 2) and (3, 4). *)
Lemma blend_between_catalog_frequencies_witness :
  let st := withParams (constructed 600 400) (Params.mk square 1 100) in
  let a := catalogMode 42 9 4 2 in
  let b := catalogMode 42 10 3 4 in
  let w := (ln (100 * 1 * 1) - ln (Mode.baseFreq a))
           / (ln (Mode.baseFreq b) - ln (Mode.baseFreq a)) in
  let bi := computeBlendInfo st in
  0 <= w < 1 /\
  exists m0 m1 : Mode.t,
    BlendInfo.mode0 bi = Some m0 /\
    BlendInfo.mode1 bi = Some m1 /\
    forall xNorm yNorm : R,
      blendedValue (BlendInfo.shape bi) m0 m1 (BlendInfo.alpha bi) xNorm yNorm
      = (1 - w) * squareModeDisplacement xNorm yNorm 4 2
        + w * squareModeDisplacement xNorm yNorm 3 4.
Proof.
  assert (Hd : driveFrequency (Params.mk square 1 100) = 100).
  { unfold driveFrequency. cbn [Params.freqHz].
    apply clamp_inside. unfold F_MIN, F_MAX. lra. }
  assert (He : effectiveSize (Params.mk square 1 100) = 1).
  { unfold effectiveSize. cbn [Params.plateSize]. apply orElse_nonzero. lra. }
  pose proof (blend_between_catalog_frequencies
                (withParams (constructed 600 400) (Params.mk square 1 100))
                9 (catalogMode 42 9 4 2) (catalogMode 42 10 3 4)) as H.
  cbv zeta in H.
  change (Renderer.params
            (withParams (constructed 600 400) (Params.mk square 1 100)))
    with (Params.mk square 1 100) in H.
  change (activeModes
            (withParams (constructed 600 400) (Params.mk square 1 100)))
    with (buildSquareModes 7 7) in H.
  rewrite Hd, He in H. rewrite (proj1 catalogs_length) in H.
  cbn [Params.shape] in H.
  apply H.
  - rewrite buildSquareModes_pairs.
    apply (catalog_of_pairs_nth (sortPairs (squarePairs 7 7)) 9 (4, 2)%Z).
    vm_compute. reflexivity.
  - rewrite buildSquareModes_pairs.
    apply (catalog_of_pairs_nth (sortPairs (squarePairs 7 7)) 10 (3, 4)%Z).
    vm_compute. reflexivity.
  - reflexivity.
  - reflexivity.
  - replace (100 * 1 * 1) with 100 by lra. exact baseFreqAt_around_100.
Defined.

(* ================================================================= *)
(** * Further properties of the catalogs *)

Lemma range_In (lo : Z) (hi : nat) (z : Z) :
  In z (range lo hi) <-> (lo <= z <= Z.of_nat hi)%Z.
Proof.
  unfold range. rewrite in_map_iff. split.
  - intros [k [<- Hk]]. apply in_seq in Hk. lia.
  - intros H. exists (Z.to_nat (z - lo)). split; [lia |].
    apply in_seq. lia.
Qed.

Lemma range_NoDup (lo : Z) (hi : nat) : NoDup (range lo hi).
Proof.
  unfold range. apply NoDup_map_NoDup_ForallPairs; [| apply seq_NoDup].
  intros a b _ _ H. lia.
Qed.

Lemma flat_map_NoDup {A B : Type} (f : A -> list B) (l : list A) :
  NoDup l ->
  (forall a, In a l -> NoDup (f a)) ->
  (forall a a' b, In a l -> In a' l -> In b (f a) -> In b (f a') -> a = a') ->
  NoDup (flat_map f l).
Proof.
  induction 1 as [| x l Hx Hl IH]; intros Hf Hd; cbn; [constructor |].
  apply NoDup_app.
  - apply Hf. now left.
  - apply IH.
    + intros a Ha. apply Hf. now right.
    + intros a a' b Ha Ha'. apply Hd; now right.
  - intros b Hb Hb'. apply in_flat_map in Hb'. destruct Hb' as [a' [Ha' Hb']].
    assert (x = a') by (apply (Hd x a' b); auto; [now left | now right]).
    subst a'. contradiction.
Qed.

Lemma squarePairs_In (maxM maxN : nat) (m n : Z) :
  In (m, n) (squarePairs maxM maxN)
  <-> (1 <= m <= Z.of_nat maxM /\ 1 <= n <= Z.of_nat maxN /\ m <> n)%Z.
Proof.
  unfold squarePairs. rewrite in_flat_map. split.
  - intros [m' [Hm H]]. apply in_flat_map in H. destruct H as [n' [Hn H]].
    apply range_In in Hm, Hn.
    destruct (m' =? n')%Z eqn:E; [contradiction |].
    apply Z.eqb_neq in E. destruct H as [H | []]. injection H as <- <-. lia.
  - intros (Hm & Hn & Hne). exists m. split; [now apply range_In |].
    apply in_flat_map. exists n. split; [now apply range_In |].
    apply Z.eqb_neq in Hne. rewrite Hne. now left.
Qed.

Lemma circlePairs_In (maxM maxRadial : nat) (m nr : Z) :
  In (m, nr) (circlePairs maxM maxRadial)
  <-> (0 <= m <= Z.of_nat maxM /\ 1 <= nr <= Z.of_nat maxRadial)%Z.
Proof.
  unfold circlePairs. rewrite in_flat_map. split.
  - intros [m' [Hm H]]. apply in_flat_map in H. destruct H as [n' [Hn H]].
    apply range_In in Hm, Hn. destruct H as [H | []]. injection H as <- <-. lia.
  - intros (Hm & Hn). exists m. split; [now apply range_In |].
    apply in_flat_map. exists nr. split; [now apply range_In | now left].
Qed.

Lemma squarePairs_NoDup (maxM maxN : nat) : NoDup (squarePairs maxM maxN).
Proof.
  unfold squarePairs. apply flat_map_NoDup; [apply range_NoDup | |].
  - intros m _. apply flat_map_NoDup; [apply range_NoDup | |].
    + intros n _. destruct (m =? n)%Z; repeat constructor. intros [].
    + intros n n' b _ _ Hb Hb'.
      destruct (m =? n)%Z; [contradiction |].
      destruct (m =? n')%Z; [contradiction |].
      destruct Hb as [<- | []]. destruct Hb' as [H | []]. now injection H.
  - intros m m' b _ _ Hb Hb'.
    apply in_flat_map in Hb, Hb'.
    destruct Hb as [n [_ Hb]], Hb' as [n' [_ Hb']].
    destruct (m =? n)%Z; [contradiction |].
    destruct (m' =? n')%Z; [contradiction |].
    destruct Hb as [<- | []]. destruct Hb' as [H | []]. now injection H.
Qed.

Lemma circlePairs_NoDup (maxM maxRadial : nat) : NoDup (circlePairs maxM maxRadial).
Proof.
  unfold circlePairs. apply flat_map_NoDup; [apply range_NoDup | |].
  - intros m _. apply flat_map_NoDup; [apply range_NoDup | |].
    + intros n _. repeat constructor. intros [].
    + intros n n' b _ _ Hb Hb'.
      destruct Hb as [<- | []]. destruct Hb' as [H | []]. now injection H.
  - intros m m' b _ _ Hb Hb'.
    apply in_flat_map in Hb, Hb'.
    destruct Hb as [n [_ Hb]], Hb' as [n' [_ Hb']].
    destruct Hb as [<- | []]. destruct Hb' as [H | []]. now injection H.
Qed.

Lemma insertPair_perm (x : Z * Z) (l : list (Z * Z)) :
  Permutation (x :: l) (insertPair x l).
Proof.
  induction l as [| y r IH]; cbn; [reflexivity |].
  destruct (_ <=? _)%Z; [reflexivity |].
  rewrite perm_swap. now constructor.
Qed.

Lemma sortPairs_perm (l : list (Z * Z)) : Permutation l (sortPairs l).
Proof.
  induction l as [| x r IH]; cbn; [constructor |].
  rewrite <- insertPair_perm. now constructor.
Qed.

Lemma buildSquareModes_indices (maxM maxN : nat) :
  map (fun md => (Mode.m md, Mode.n md)) (buildSquareModes maxM maxN)
  = sortPairs (squarePairs maxM maxN).
Proof. now rewrite buildSquareModes_pairs, catalog_of_pairs_indices. Qed.

Lemma buildCircleModes_indices (maxM maxRadial : nat) :
  map (fun md => (Mode.m md, Mode.nRadial md)) (buildCircleModes maxM maxRadial)
  = sortPairs (circlePairs maxM maxRadial).
Proof.
  rewrite buildCircleModes_pairs.
  change (fun md => (Mode.m md, Mode.nRadial md))
    with (fun md => (Mode.m md, Mode.n md)).
  apply catalog_of_pairs_indices.
Qed.

(** X6.  The square catalog holds exactly the index pairs [(m, n)] with
    [1 <= m <= maxM], [1 <= n <= maxN] and [m <> n], and the circular one
    exactly the pairs [(m, nRadial)] with [0 <= m <= maxM] and
    [1 <= nRadial <= maxRadial]; no pair occurs twice.  In particular no
    square catalog entry is the degenerate mode [m = n]. *)
Theorem catalog_index_pairs (maxM maxN : nat) :
  (forall m n : Z,
     In (m, n) (map (fun md => (Mode.m md, Mode.n md)) (buildSquareModes maxM maxN))
     <-> (1 <= m <= Z.of_nat maxM /\ 1 <= n <= Z.of_nat maxN /\ m <> n)%Z) /\
  NoDup (map (fun md => (Mode.m md, Mode.n md)) (buildSquareModes maxM maxN)) /\
  (forall m nr : Z,
     In (m, nr)
        (map (fun md => (Mode.m md, Mode.nRadial md)) (buildCircleModes maxM maxN))
     <-> (0 <= m <= Z.of_nat maxM /\ 1 <= nr <= Z.of_nat maxN)%Z) /\
  NoDup (map (fun md => (Mode.m md, Mode.nRadial md)) (buildCircleModes maxM maxN)).
Proof.
  rewrite buildSquareModes_indices, buildCircleModes_indices.
  pose proof (sortPairs_perm (squarePairs maxM maxN)) as Ps.
  pose proof (sortPairs_perm (circlePairs maxM maxN)) as Pc.
  split; [| split; [| split]].
  - intros m n. rewrite <- squarePairs_In. split; apply Permutation_in;
      [now apply Permutation_sym | exact Ps].
  - apply (Permutation_NoDup Ps), squarePairs_NoDup.
  - intros m nr. rewrite <- circlePairs_In. split; apply Permutation_in;
      [now apply Permutation_sym | exact Pc].
  - apply (Permutation_NoDup Pc), circlePairs_NoDup.
Qed.

Lemma baseFreqAt_increasing (N i j : nat) :
  (i < j)%nat -> (j < N)%nat -> baseFreqAt N i < baseFreqAt N j.
Proof.
  intros Hij HjN.
  destruct (baseFreqAt_range N i) as (_ & -> & _); [lia | lia |].
  destruct (baseFreqAt_range N j) as (_ & -> & _); [lia | lia |].
  pose proof log_span_pos as Hspan.
  unfold LOG_F_MAX, LOG_F_MIN, Math.log, F_MAX, F_MIN in Hspan.
  assert (HN1 : 0 < INR N - 1).
  { assert (1 < N)%nat as H by lia. apply lt_INR in H. cbn in H. lra. }
  apply exp_increasing. apply Rplus_lt_compat_l.
  apply Rmult_lt_compat_r; [lra |].
  apply Rmult_lt_compat_r; [now apply Rinv_0_lt_compat |].
  now apply lt_INR.
Qed.

Lemma assignFrequencies_nth (tmp : list Entry.t) (i : nat) (md : Mode.t) :
  nth_error (assignFrequencies tmp) i = Some md ->
  (i < length (assignFrequencies tmp))%nat /\
  Mode.baseFreq md = baseFreqAt (length (assignFrequencies tmp)) i.
Proof.
  intros H. split; [apply nth_error_Some; congruence |].
  unfold assignFrequencies in *. rewrite assignFrom_length.
  apply assignFrom_nth in H. now destruct H.
Qed.

Lemma assignFrequencies_increasing (tmp : list Entry.t) :
  let catalog := assignFrequencies tmp in
  (forall i j a b, (i < j)%nat ->
     nth_error catalog i = Some a -> nth_error catalog j = Some b ->
     Mode.baseFreq a < Mode.baseFreq b) /\
  (forall a, In a catalog -> 20 <= Mode.baseFreq a <= 20000) /\
  (forall a, (1 < length catalog)%nat ->
     nth_error catalog 0 = Some a -> Mode.baseFreq a = 20) /\
  (forall a, (1 < length catalog)%nat ->
     nth_error catalog (length catalog - 1) = Some a -> Mode.baseFreq a = 20000).
Proof.
  intros catalog. split; [| split; [| split]].
  - intros i j a b Hij Ha Hb.
    apply assignFrequencies_nth in Ha, Hb. fold catalog in Ha, Hb.
    destruct Ha as [_ ->], Hb as [Hj ->]. now apply baseFreqAt_increasing.
  - intros a Ha. apply In_nth_error in Ha. destruct Ha as [i Hi].
    apply assignFrequencies_nth in Hi. fold catalog in Hi. destruct Hi as [Hi ->].
    destruct (Nat.eq_dec (length catalog) 1) as [E | E].
    + rewrite E in *. assert (i = 0%nat) as -> by lia.
      rewrite baseFreqAt_single. lra.
    + apply baseFreqAt_range; lia.
  - intros a HN Ha. apply assignFrequencies_nth in Ha. fold catalog in Ha.
    destruct Ha as [_ ->]. now apply baseFreqAt_ends.
  - intros a HN Ha. apply assignFrequencies_nth in Ha. fold catalog in Ha.
    destruct Ha as [_ ->]. now apply baseFreqAt_ends.
Qed.

(** X7.  In the catalog of either shape the base frequencies increase
    strictly along the catalog and lie in [20, 20000]; when the catalog has
    more than one mode, the first base frequency is 20 and the last one is
    20000. *)
Theorem catalog_frequencies_increase (maxM maxN : nat) (catalog : list Mode.t) :
  catalog = buildSquareModes maxM maxN \/ catalog = buildCircleModes maxM maxN ->
  (forall i j a b, (i < j)%nat ->
     nth_error catalog i = Some a -> nth_error catalog j = Some b ->
     Mode.baseFreq a < Mode.baseFreq b) /\
  (forall a, In a catalog -> 20 <= Mode.baseFreq a <= 20000) /\
  (forall a, (1 < length catalog)%nat ->
     nth_error catalog 0 = Some a -> Mode.baseFreq a = 20) /\
  (forall a, (1 < length catalog)%nat ->
     nth_error catalog (length catalog - 1) = Some a -> Mode.baseFreq a = 20000).
Proof.
  intros [-> | ->]; apply assignFrequencies_increasing.
Qed.

Lemma catalog_frequencies_increase_witness :
  Mode.baseFreq (catalogMode 56 0 0 1) < Mode.baseFreq (catalogMode 56 1 1 1).
Proof.
  destruct (catalog_frequencies_increase 7 7 (buildCircleModes 7 7) (or_intror eq_refl))
    as (H & _).
  apply (H 0%nat 1%nat); [lia | apply circle_catalog_head ..].
Defined.

(* ================================================================= *)
(** * Further properties of the displacement functions *)

(** X8.  The square displacement changes sign when the two mode indices
    are exchanged and when the two coordinates are exchanged; so it vanishes
    on the diagonal [yNorm = xNorm] for every pair of indices. *)
Theorem squareModeDisplacement_antisymmetric (x y : R) (m n : Z) :
  squareModeDisplacement x y n m = - squareModeDisplacement x y m n /\
  squareModeDisplacement y x m n = - squareModeDisplacement x y m n /\
  squareModeDisplacement x x m n = 0.
Proof.
  unfold squareModeDisplacement. rewrite (Z.eqb_sym n m).
  destruct (m =? n)%Z; repeat split; ring.
Qed.

Lemma abs_mul_cos_le_1 (a b : R) : Math.abs (cos a * cos b) <= 1.
Proof.
  unfold Math.abs. rewrite Rabs_mult.
  pose proof (abs_cos_le_1 a) as Ha. pose proof (abs_cos_le_1 b) as Hb.
  unfold Math.abs in *.
  pose proof (Rabs_pos (cos a)). pose proof (Rabs_pos (cos b)). nra.
Qed.

Lemma squareModeDisplacement_bound (x y : R) (m n : Z) :
  Math.abs (squareModeDisplacement x y m n) <= 2.
Proof.
  unfold squareModeDisplacement. destruct (m =? n)%Z.
  - unfold Math.abs. rewrite Rabs_R0. lra.
  - cbv zeta.
    pose proof (abs_mul_cos_le_1 (IZR n * PI * ((x + 1) * 0.5))
                  (IZR m * PI * ((y + 1) * 0.5))) as H1.
    pose proof (abs_mul_cos_le_1 (IZR m * PI * ((x + 1) * 0.5))
                  (IZR n * PI * ((y + 1) * 0.5))) as H2.
    unfold Math.abs in *. unfold Rminus.
    eapply Rle_trans; [apply Rabs_triang |]. rewrite Rabs_Ropp. lra.
Qed.

Lemma circleModeDisplacement_bound (x y : R) (m nr : Z) :
  Math.abs (circleModeDisplacement x y m nr) <= 1.
Proof.
  unfold circleModeDisplacement, radialMode.
  destruct (Rlt_dec 1 (Math.hypot x y)) as [Hout | Hin].
  - unfold Math.abs. rewrite Rabs_R0. lra.
  - set (r := Math.hypot x y).
    assert (He : exp (- 1.2 * r * r) <= 1).
    { rewrite <- exp_0. destruct (Req_dec_T (r * r) 0) as [E | E].
      - right. f_equal. replace (- 1.2 * r * r) with (- 1.2 * (r * r)) by ring.
        rewrite E. ring.
      - left. apply exp_increasing. nra. }
    pose proof (exp_pos (- 1.2 * r * r)) as He0.
    pose proof (abs_cos_le_1 (IZR nr * PI * r)) as H1.
    pose proof (abs_cos_le_1 (IZR m * Math.atan2 y x)) as H2.
    unfold Math.abs in *. rewrite !Rabs_mult.
    rewrite (Rabs_pos_eq (exp _)) by lra.
    pose proof (Rabs_pos (cos (IZR nr * PI * r))) as P1.
    pose proof (Rabs_pos (cos (IZR m * Math.atan2 y x))) as P2.
    set (A := Rabs (cos (IZR nr * PI * r))) in *.
    set (B := Rabs (cos (IZR m * Math.atan2 y x))) in *.
    set (e := exp (- 1.2 * r * r)) in *.
    assert (Hae : A * e <= 1) by nra.
    assert (Hae0 : 0 <= A * e) by nra.
    assert (Haeb : A * e * B <= A * e * 1) by (apply Rmult_le_compat_l; lra).
    lra.
Qed.

Lemma atan2_origin : Math.atan2 0 0 = 0.
Proof.
  unfold Math.atan2.
  destruct (Rlt_dec 0 0) as [H | _]; [lra |].
  destruct (Rlt_dec 0 0) as [H | _]; [lra | reflexivity].
Qed.

(** The cosine of a whole multiple of [PI] is [1] or [-1]. *)
Lemma abs_cos_multiple_PI (k : Z) : Rabs (cos (IZR k * PI)) = 1.
Proof.
  assert (Hs : sin (IZR k * PI) = 0) by (apply sin_eq_0_1; now exists k).
  pose proof (sin2_cos2 (IZR k * PI)) as H. rewrite Hs in H.
  unfold Rsqr in H. set (c := cos (IZR k * PI)) in *.
  assert (Hc : (c - 1) * (c + 1) = 0) by lra.
  apply Rmult_integral in Hc. destruct Hc as [Hc | Hc].
  - replace c with 1 by lra. apply Rabs_R1.
  - replace c with (Ropp 1) by lra. rewrite Rabs_Ropp. apply Rabs_R1.
Qed.

(** X9.  The circular displacement never exceeds 1 in absolute value.  At
    the centre of the plate it has absolute value 1 for every mode, so the
    centre is an antinode of every circular mode; this holds for each of
    the angles [0], [PI] and [- PI] that [Math.atan2] returns at the origin
    (the last two when the zero abscissa is a negative zero), the value
    being [1] for the angle [0].  The square displacement never exceeds 2
    in absolute value. *)
Theorem displacement_bounds (x y : R) (m n : Z) :
  Math.abs (circleModeDisplacement x y m n) <= 1 /\
  Math.abs (circleModeDisplacement 0 0 m n) = 1 /\
  (forall theta : R, theta = 0 \/ theta = PI \/ theta = - PI ->
     Math.abs (radialMode (Math.hypot 0 0) n * cos (IZR m * theta)) = 1) /\
  radialMode (Math.hypot 0 0) n * cos (IZR m * 0) = 1 /\
  Math.abs (squareModeDisplacement x y m n) <= 2.
Proof.
  assert (Hr : radialMode (Math.hypot 0 0) n = 1).
  { unfold radialMode. rewrite hypot_0_0, !Rmult_0_r, cos_0, exp_0. ring. }
  split; [apply circleModeDisplacement_bound |].
  split.
  { unfold circleModeDisplacement. rewrite Hr, hypot_0_0.
    destruct (Rlt_dec 1 0) as [H | _]; [lra |].
    rewrite atan2_origin, Rmult_0_r, cos_0, Rmult_1_r. apply Rabs_R1. }
  split.
  { intros theta Ht. rewrite Hr, Rmult_1_l. unfold Math.abs.
    destruct Ht as [-> | [-> | ->]].
    - rewrite Rmult_0_r, cos_0. apply Rabs_R1.
    - apply abs_cos_multiple_PI.
    - replace (IZR m * - PI) with (- (IZR m * PI)) by ring.
      rewrite cos_neg. apply abs_cos_multiple_PI. }
  split; [rewrite Hr, Rmult_0_r, cos_0; ring |].
  apply squareModeDisplacement_bound.
Qed.

Lemma atan2_mirror (x y : R) :
  Math.atan2 (- y) x = - Math.atan2 y x \/ Math.atan2 (- y) x = Math.atan2 y x.
Proof.
  unfold Math.atan2.
  replace (- y / x) with (- (y / x)) by (unfold Rdiv; ring).
  rewrite atan_opp.
  destruct (Rlt_dec 0 x); [left; reflexivity |].
  destruct (Rlt_dec x 0).
  - destruct (Rle_dec 0 (- y)), (Rle_dec 0 y).
    + assert (y = 0) as -> by lra. right.
      unfold Rdiv. rewrite Rmult_0_l, atan_0. ring.
    + left. ring.
    + left. ring.
    + lra.
  - destruct (Rlt_dec 0 (- y)), (Rlt_dec 0 y); try lra.
    + destruct (Rlt_dec y 0); [left; ring | lra].
    + destruct (Rlt_dec (- y) 0); [left; ring | lra].
    + destruct (Rlt_dec (- y) 0), (Rlt_dec y 0); lra.
Qed.

(** X10.  The circular displacement is symmetric about the horizontal axis,
    [u(x, -y) = u(x, y)], for every mode; and for the angular order [m = 0]
    it depends on the point only through its distance from the centre. *)
Theorem circleModeDisplacement_symmetry (x y : R) (m nr : Z) :
  circleModeDisplacement x (- y) m nr = circleModeDisplacement x y m nr /\
  (forall x' y' : R,
     Math.hypot x' y' = Math.hypot x y ->
     circleModeDisplacement x' y' 0 nr = circleModeDisplacement x y 0 nr).
Proof.
  split.
  - unfold circleModeDisplacement.
    assert (Hh : Math.hypot x (- y) = Math.hypot x y)
      by (unfold Math.hypot; f_equal; ring).
    rewrite Hh. destruct (Rlt_dec 1 (Math.hypot x y)); [reflexivity |].
    f_equal. destruct (atan2_mirror x y) as [-> | ->]; [| reflexivity].
    replace (IZR m * - Math.atan2 y x) with (- (IZR m * Math.atan2 y x)) by ring.
    apply cos_neg.
  - intros x' y' H. unfold circleModeDisplacement. rewrite H.
    destruct (Rlt_dec 1 (Math.hypot x y)); [reflexivity |].
    now rewrite !Rmult_0_l.
Qed.

Lemma eigen_key_le (m n m' n' : Z) :
  (m * m + n * n <= m' * m' + n' * n')%Z ->
  0 <= sqrt (IZR m * IZR m + IZR n * IZR n)
    <= sqrt (IZR m' * IZR m' + IZR n' * IZR n').
Proof.
  intros H. split; [apply sqrt_pos |].
  apply sqrt_le_1_alt. apply IZR_le in H.
  rewrite !plus_IZR, !mult_IZR in H. exact H.
Qed.

(** X11.  The two eigenfrequency estimates of physics.js fall when the
    plate grows and rise with the sum of the squares of the two indices;
    the square one is symmetric in its indices. *)
Theorem eigenFreq_monotone (m n m' n' : Z) (L1 L2 : R) :
  0 < L1 <= L2 ->
  (m * m + n * n <= m' * m' + n' * n')%Z ->
  squareEigenFreq m n L2 <= squareEigenFreq m n L1 /\
  squareEigenFreq m n L1 <= squareEigenFreq m' n' L1 /\
  squareEigenFreq n m L1 = squareEigenFreq m n L1 /\
  circleEigenFreq m n L2 <= circleEigenFreq m n L1 /\
  circleEigenFreq m n L1 <= circleEigenFreq m' n' L1.
Proof.
  intros [H1 H2] Hk.
  destruct (eigen_key_le m n m' n' Hk) as [Hk0 Hkk].
  unfold squareEigenFreq, circleEigenFreq, F0_SQUARE, F0_CIRCLE. cbv zeta.
  set (k := sqrt (IZR m * IZR m + IZR n * IZR n)) in *.
  set (k' := sqrt (IZR m' * IZR m' + IZR n' * IZR n')) in *.
  assert (Hi1 : 0 < / L1) by (apply Rinv_0_lt_compat; lra).
  assert (Hi2 : / L2 <= / L1) by (apply Rinv_le_contravar; lra).
  unfold Rdiv. repeat split.
  - apply Rmult_le_compat_l; [nra | exact Hi2].
  - apply Rmult_le_compat_r; [lra | nra].
  - replace (IZR n * IZR n + IZR m * IZR m)
      with (IZR m * IZR m + IZR n * IZR n) by ring.
    reflexivity.
  - apply Rmult_le_compat_l; [nra | exact Hi2].
  - apply Rmult_le_compat_r; [lra | nra].
Qed.

Lemma eigenFreq_monotone_witness :
  squareEigenFreq 1 2 1.2 <= squareEigenFreq 1 2 0.6 /\
  squareEigenFreq 1 2 0.6 <= squareEigenFreq 2 3 0.6 /\
  squareEigenFreq 2 1 0.6 = squareEigenFreq 1 2 0.6 /\
  circleEigenFreq 1 2 1.2 <= circleEigenFreq 1 2 0.6 /\
  circleEigenFreq 1 2 0.6 <= circleEigenFreq 2 3 0.6.
Proof.
  apply (eigenFreq_monotone 1 2 2 3 0.6 1.2); [lra | lia].
Defined.

(* ================================================================= *)
(** * Further properties of the field sampler *)

Lemma computeBlendInfo_alpha_range (st : Renderer.t) :
  0 <= BlendInfo.alpha (computeBlendInfo st) < 1.
Proof.
  destruct (activeModes st) as [| a l] eqn:E.
  - rewrite (computeBlendInfo_empty st E). cbn. lra.
  - assert (Hne : activeModes st <> []) by congruence.
    destruct (computeBlendInfo_nonempty st Hne) as (-> & _).
    pose proof (Zfloor_bound
                  (blendPosition (Renderer.params st) (length (activeModes st)))).
    unfold Math.floor. lra.
Qed.

Lemma fieldPass_inv (st : Renderer.t) (ps : Pass.t) :
  fieldPass st = Some ps ->
  exists mode0 mode1 : Mode.t,
    BlendInfo.mode0 (computeBlendInfo st) = Some mode0 /\
    BlendInfo.mode1 (computeBlendInfo st) = Some mode1 /\
    Renderer.clientWidth st <> 0%Z /\
    Renderer.clientHeight st <> 0%Z /\
    ps = samplingPass st (computeBlendInfo st) mode0 mode1.
Proof.
  unfold fieldPass. intros H.
  destruct (Renderer.clientWidth st =? 0)%Z eqn:Ew; [discriminate |].
  destruct (Renderer.clientHeight st =? 0)%Z eqn:Eh; [discriminate |].
  cbn [orb] in H.
  destruct (BlendInfo.mode0 (computeBlendInfo st)) as [m0 |]; [| discriminate].
  destruct (BlendInfo.mode1 (computeBlendInfo st)) as [m1 |]; [| discriminate].
  injection H as <-. exists m0, m1.
  apply Z.eqb_neq in Ew, Eh. repeat split; assumption.
Qed.

Lemma blendedValue_bound (shape : Shape) (mode0 mode1 : Mode.t) (alpha x y : R) :
  0 <= alpha <= 1 ->
  Math.abs (blendedValue shape mode0 mode1 alpha x y)
  <= match shape with square => 2 | circle => 1 end.
Proof.
  intros Ha. unfold blendedValue.
  assert (Hmix : forall v0 v1 B : R,
            Math.abs v0 <= B -> Math.abs v1 <= B ->
            Math.abs ((1 - alpha) * v0 + alpha * v1) <= B).
  { intros v0 v1 B H0 H1. unfold Math.abs in *.
    eapply Rle_trans; [apply Rabs_triang |].
    rewrite !Rabs_mult, (Rabs_pos_eq (1 - alpha)), (Rabs_pos_eq alpha) by lra.
    pose proof (Rabs_pos v0). pose proof (Rabs_pos v1). nra. }
  destruct shape; apply Hmix;
    first [apply squareModeDisplacement_bound | apply circleModeDisplacement_bound].
Qed.

Lemma sampleValue_bound (shape : Shape) (mode0 mode1 : Mode.t) (alpha : R)
    (res : nat) (ji : nat * nat) :
  0 <= alpha <= 1 ->
  Math.abs (sampleValue shape mode0 mode1 alpha res ji)
  <= match shape with square => 2 | circle => 1 end.
Proof.
  intros Ha. unfold sampleValue. destruct (insidePlate _ _ _).
  - now apply blendedValue_bound.
  - unfold Math.abs. rewrite Rabs_R0. destruct shape; lra.
Qed.

(** X12.  In every sampling pass of [recomputeField] no stored amplitude
    exceeds, in absolute value, 2 on the square plate and 1 on the circular
    plate; so [0 <= maxAbs <= 2] (respectively [<= 1]). *)
Theorem pass_amplitudes_bounded (st : Renderer.t) (ps : Pass.t) :
  fieldPass st = Some ps ->
  let bound := match Params.shape (Renderer.params st) with
               | square => 2
               | circle => 1
               end in
  (forall a, In a (Pass.amplitudes ps) -> Math.abs a <= bound) /\
  0 <= Pass.maxAbs ps <= bound.
Proof.
  intros Hp bound.
  destruct (fieldPass_inv st ps Hp) as (m0 & m1 & _ & _ & _ & _ & ->).
  destruct (samplingPass_fields st (computeBlendInfo st) m0 m1)
    as (Ha & HM & _).
  rewrite computeBlendInfo_shape in Ha, HM.
  destruct (samplePass_spec (Params.shape (Renderer.params st)) m0 m1
              (BlendInfo.alpha (computeBlendInfo st)) (Renderer.resolution st))
    as (Hv & H0 & _ & Hat).
  rewrite <- Ha in Hv, Hat. rewrite <- HM in H0, Hat.
  pose proof (computeBlendInfo_alpha_range st) as Halpha.
  assert (Hall : forall a,
            In a (Pass.amplitudes
                    (samplingPass st (computeBlendInfo st) m0 m1)) ->
            Math.abs a <= bound).
  { intros a Hin. rewrite Hv in Hin. apply in_map_iff in Hin.
    destruct Hin as [ji [<- _]]. apply sampleValue_bound. lra. }
  split; [exact Hall |]. split; [exact H0 |].
  destruct Hat as [-> | [a [Hin <-]]]; [unfold bound; destruct (Params.shape _); lra |].
  now apply Hall.
Qed.

Lemma pass_amplitudes_bounded_witness :
  exists ps : Pass.t,
    fieldPass (circleAt20 600 400 320) = Some ps /\
    (forall a, In a (Pass.amplitudes ps) -> Math.abs a <= 1) /\
    0 <= Pass.maxAbs ps <= 1.
Proof.
  assert (Hp : fieldPass (circleAt20 600 400 320)
               = Some (samplingPass (circleAt20 600 400 320)
                         (computeBlendInfo (circleAt20 600 400 320))
                         (catalogMode 56 0 0 1) (catalogMode 56 1 1 1))).
  { apply fieldPass_sampling.
    - cbn [circleAt20 Renderer.clientWidth]. lia.
    - cbn [circleAt20 Renderer.clientHeight]. lia.
    - now rewrite computeBlendInfo_circleAt20.
    - now rewrite computeBlendInfo_circleAt20. }
  eexists. split; [exact Hp |].
  exact (pass_amplitudes_bounded (circleAt20 600 400 320) _ Hp).
Defined.

Lemma rows_length (c : nat) (rows : list nat) :
  length (flat_map (fun j => map (fun i => (j, i)) (seq 0 c)) rows)
  = (length rows * c)%nat.
Proof.
  induction rows as [| r0 rows IH]; [reflexivity |].
  cbn [flat_map length]. rewrite length_app, IH, length_map, length_seq. lia.
Qed.

Lemma gridIndices_length (res : nat) : length (gridIndices res) = (res * res)%nat.
Proof. unfold gridIndices. now rewrite rows_length, length_seq. Qed.

Lemma flat_map_ext_on {A B : Type} (f g : A -> list B) (l : list A) :
  (forall a, In a l -> f a = g a) -> flat_map f l = flat_map g l.
Proof.
  induction l as [| a l IH]; intros H; [reflexivity |].
  cbn. rewrite (H a) by now left. rewrite IH; [reflexivity |].
  intros b Hb. apply H. now right.
Qed.

Lemma flat_map_filter {A B : Type} (p : A -> bool) (g : A -> list B) (l : list A) :
  flat_map (fun a => if p a then g a else []) l = flat_map g (filter p l).
Proof.
  induction l as [| a l IH]; [reflexivity |].
  cbn. destruct (p a); cbn; now rewrite IH.
Qed.

Lemma grid_amplitude (f : nat * nat -> R) (res : nat) (ji : nat * nat) :
  In ji (gridIndices res) ->
  nth_error (map f (gridIndices res)) (fst ji * res + snd ji) = Some (f ji).
Proof.
  destruct ji as [j i]. intros H. apply gridIndices_In in H.
  cbn [fst snd]. rewrite nth_error_map, gridIndices_nth by lia. reflexivity.
Qed.

Lemma collectPass_nodalGrid (f : nat * nat -> R) (threshold cx cy half : R)
    (res : nat) :
  collectPass (map f (gridIndices res)) threshold cx cy half res
  = flat_map (fun ji => [fst (canvasPoint cx cy half res ji);
                         snd (canvasPoint cx cy half res ji)])
      (nodalGrid (map f (gridIndices res)) threshold res).
Proof.
  rewrite collectPass_spec. unfold nodalGrid.
  rewrite <- flat_map_filter. apply flat_map_ext_on.
  intros ji Hji. rewrite (grid_amplitude f res ji Hji). reflexivity.
Qed.

Lemma recomputeField_nodalGrid (st : Renderer.t) (ps : Pass.t) :
  fieldPass st = Some ps ->
  length (Pass.amplitudes ps)
  = (Renderer.resolution st * Renderer.resolution st)%nat /\
  Renderer.nodalPoints (recomputeField st)
  = flat_map
      (fun ji =>
         [fst (canvasPoint (Pass.cx ps) (Pass.cy ps) (Pass.halfPlatePix ps)
                 (Renderer.resolution st) ji);
          snd (canvasPoint (Pass.cx ps) (Pass.cy ps) (Pass.halfPlatePix ps)
                 (Renderer.resolution st) ji)])
      (nodalGrid (Pass.amplitudes ps) (Pass.threshold ps) (Renderer.resolution st)).
Proof.
  intros Hp. destruct (recomputeField_pass st ps Hp) as (-> & _).
  destruct (fieldPass_inv st ps Hp) as (m0 & m1 & _ & _ & _ & _ & ->).
  destruct (samplingPass_fields st (computeBlendInfo st) m0 m1)
    as (Ha & _ & _ & Hn & _).
  destruct (samplePass_spec (BlendInfo.shape (computeBlendInfo st)) m0 m1
              (BlendInfo.alpha (computeBlendInfo st)) (Renderer.resolution st))
    as (Hv & _).
  rewrite <- Ha in Hv, Hn. rewrite Hn, Hv. split.
  - now rewrite length_map, gridIndices_length.
  - apply collectPass_nodalGrid.
Qed.

Lemma pairs_length {A : Type} (f g : A -> R) (l : list A) :
  length (flat_map (fun a => [f a; g a]) l) = (2 * length l)%nat.
Proof. induction l as [| a l IH]; cbn [flat_map length app]; lia. Qed.

Lemma nodalGrid_length (amplitudes : list R) (threshold : R) (res : nat) :
  (length (nodalGrid amplitudes threshold res) <= res * res)%nat.
Proof.
  unfold nodalGrid. rewrite <- gridIndices_length. apply filter_length_le.
Qed.

(** X13.  After a sampling pass on a grid of resolution at least 2 the
    amplitude array has one entry per grid point, and the nodal point array holds, in grid order and two numbers
    each, the canvas positions of exactly the grid points whose stored
    amplitude is within the threshold; so it has an even length, at most
    twice the number of grid points. *)
Theorem nodal_points_are_threshold_grid_points (st : Renderer.t) (ps : Pass.t) :
  (2 <= Renderer.resolution st)%nat ->
  fieldPass st = Some ps ->
  let res := Renderer.resolution st in
  let nodal := nodalGrid (Pass.amplitudes ps) (Pass.threshold ps) res in
  length (Pass.amplitudes ps) = (res * res)%nat /\
  Renderer.nodalPoints (recomputeField st)
  = flat_map
      (fun ji =>
         [fst (canvasPoint (Pass.cx ps) (Pass.cy ps) (Pass.halfPlatePix ps) res ji);
          snd (canvasPoint (Pass.cx ps) (Pass.cy ps) (Pass.halfPlatePix ps) res ji)])
      nodal /\
  length (Renderer.nodalPoints (recomputeField st)) = (2 * length nodal)%nat /\
  (length nodal <= res * res)%nat.
Proof.
  intros _ Hp res nodal.
  destruct (recomputeField_nodalGrid st ps Hp) as (Hl & Hn).
  fold res in Hl, Hn. fold nodal in Hn.
  split; [exact Hl |]. split; [exact Hn |].
  split; [rewrite Hn; apply pairs_length | apply nodalGrid_length].
Qed.

Lemma circleAt20_resolution :
  (2 <= Renderer.resolution (circleAt20 600 400 320))%nat.
Proof. cbn [circleAt20 Renderer.resolution]. lia. Qed.

Lemma circleAt20_pass :
  fieldPass (circleAt20 600 400 320)
  = Some (samplingPass (circleAt20 600 400 320)
            (computeBlendInfo (circleAt20 600 400 320))
            (catalogMode 56 0 0 1) (catalogMode 56 1 1 1)).
Proof.
  apply fieldPass_sampling.
  - cbn [circleAt20 Renderer.clientWidth]. lia.
  - cbn [circleAt20 Renderer.clientHeight]. lia.
  - now rewrite computeBlendInfo_circleAt20.
  - now rewrite computeBlendInfo_circleAt20.
Qed.

Lemma nodal_points_are_threshold_grid_points_witness :
  exists ps : Pass.t,
    fieldPass (circleAt20 600 400 320) = Some ps /\
    length (Renderer.nodalPoints (recomputeField (circleAt20 600 400 320)))
    = (2 * length (nodalGrid (Pass.amplitudes ps) (Pass.threshold ps)
                     (Renderer.resolution (circleAt20 600 400 320))))%nat.
Proof.
  eexists. split; [exact circleAt20_pass |].
  exact (proj1 (proj2 (proj2
           (nodal_points_are_threshold_grid_points
              (circleAt20 600 400 320) _ circleAt20_resolution circleAt20_pass)))).
Defined.

Lemma fillRects_pairs {A : Type} (dot : R) (f g : A -> R) (l : list A) :
  fillRects dot (flat_map (fun a => [f a; g a]) l)
  = map (fun a => Rect.mk (f a - dot * 0.5) (g a - dot * 0.5) dot dot) l.
Proof.
  induction l as [| a l IH]; [reflexivity |].
  cbn [flat_map app fillRects map]. now rewrite IH.
Qed.

(** X14.  After a sampling pass on a grid of resolution at least 2,
    [drawNodalPoints] fills exactly one square
    of side [dotSize] per grid point whose stored amplitude is within the
    threshold, in grid order, centred on the canvas position of that grid
    point. *)
Theorem drawNodalPoints_after_pass (dot : R) (st : Renderer.t) (ps : Pass.t) :
  (2 <= Renderer.resolution st)%nat ->
  fieldPass st = Some ps ->
  drawNodalPoints dot (recomputeField st)
  = map (fun ji =>
           Rect.mk
             (fst (canvasPoint (Pass.cx ps) (Pass.cy ps) (Pass.halfPlatePix ps)
                     (Renderer.resolution st) ji) - dot * 0.5)
             (snd (canvasPoint (Pass.cx ps) (Pass.cy ps) (Pass.halfPlatePix ps)
                     (Renderer.resolution st) ji) - dot * 0.5)
             dot dot)
      (nodalGrid (Pass.amplitudes ps) (Pass.threshold ps) (Renderer.resolution st)).
Proof.
  intros _ Hp. unfold drawNodalPoints.
  destruct (recomputeField_nodalGrid st ps Hp) as (_ & ->).
  apply fillRects_pairs.
Qed.

Lemma drawNodalPoints_after_pass_witness :
  exists ps : Pass.t,
    fieldPass (circleAt20 600 400 320) = Some ps /\
    drawNodalPoints 1.4 (recomputeField (circleAt20 600 400 320))
    = map (fun ji =>
             Rect.mk
               (fst (canvasPoint (Pass.cx ps) (Pass.cy ps) (Pass.halfPlatePix ps)
                       (Renderer.resolution (circleAt20 600 400 320)) ji) - 1.4 * 0.5)
               (snd (canvasPoint (Pass.cx ps) (Pass.cy ps) (Pass.halfPlatePix ps)
                       (Renderer.resolution (circleAt20 600 400 320)) ji) - 1.4 * 0.5)
               1.4 1.4)
        (nodalGrid (Pass.amplitudes ps) (Pass.threshold ps)
           (Renderer.resolution (circleAt20 600 400 320))).
Proof.
  eexists. split; [exact circleAt20_pass |].
  exact (drawNodalPoints_after_pass 1.4 (circleAt20 600 400 320) _
           circleAt20_resolution circleAt20_pass).
Defined.

Lemma blend_modes_exist (st : Renderer.t) :
  activeModes st <> [] ->
  exists m0 m1 : Mode.t,
    BlendInfo.mode0 (computeBlendInfo st) = Some m0 /\
    BlendInfo.mode1 (computeBlendInfo st) = Some m1.
Proof.
  intros Hne.
  destruct (computeBlendInfo_nonempty st Hne) as (_ & H0 & H1 & _).
  assert (HN : (1 <= length (activeModes st))%nat).
  { destruct (activeModes st); [contradiction | cbn; lia]. }
  pose proof (blendPosition_bounds (Renderer.params st) _ HN) as Hp.
  set (p := blendPosition (Renderer.params st) (length (activeModes st))) in *.
  pose proof (Zfloor_bound p) as Hfl.
  assert (Hi0 : (0 <= Math.floor p <= Z.of_nat (length (activeModes st)) - 1)%Z).
  { unfold Math.floor. split.
    - apply Zfloor_lub. lra.
    - apply le_IZR. rewrite minus_IZR, <- INR_IZR_INZ. lra. }
  destruct (nth_error_present (activeModes st) (Z.to_nat (Math.floor p)))
    as (m0 & Hm0 & _); [lia |].
  destruct (nth_error_present (activeModes st)
              (Z.to_nat (Z.min (Math.floor p + 1)
                           (Z.of_nat (length (activeModes st)) - 1))))
    as (m1 & Hm1 & _); [lia |].
  exists m0, m1. rewrite H0, H1, !at_index_nth by lia. now split.
Qed.

Lemma fieldPass_exists (st : Renderer.t) :
  activeModes st <> [] ->
  Renderer.clientWidth st <> 0%Z -> Renderer.clientHeight st <> 0%Z ->
  exists ps : Pass.t, fieldPass st = Some ps.
Proof.
  intros Hne Hw Hh. destruct (blend_modes_exist st Hne) as (m0 & m1 & H0 & H1).
  eexists. now apply (fieldPass_sampling st m0 m1).
Qed.

Lemma pairs_nth {A : Type} (f g : A -> R) (l : list A) (k : nat) :
  nth_error (flat_map (fun a => [f a; g a]) l) (2 * k)
  = option_map f (nth_error l k) /\
  nth_error (flat_map (fun a => [f a; g a]) l) (2 * k + 1)
  = option_map g (nth_error l k).
Proof.
  revert k. induction l as [| a l IH]; intros k.
  - cbn. destruct (2 * k)%nat, (2 * k + 1)%nat; split; destruct k; reflexivity.
  - destruct k as [| k].
    + split; reflexivity.
    + replace (2 * S k)%nat with (S (S (2 * k))) by lia.
      replace (S (S (2 * k)) + 1)%nat with (S (S (2 * k + 1))) by lia.
      cbn [flat_map app nth_error]. apply IH.
Qed.

Lemma pairs_holdsPoint {A : Type} (f g : A -> R) (l : list A) (px py : R) :
  holdsPoint (flat_map (fun a => [f a; g a]) l) px py
  <-> exists k a, nth_error l k = Some a /\ px = f a /\ py = g a.
Proof.
  unfold holdsPoint. split.
  - intros [k [Hx Hy]]. destruct (pairs_nth f g l k) as [Ex Ey].
    rewrite Ex in Hx. rewrite Ey in Hy.
    destruct (nth_error l k) as [a |] eqn:E; [| discriminate].
    cbn in Hx, Hy. exists k, a. split; [exact E |]. split; congruence.
  - intros (k & a & Ha & -> & ->). exists k.
    destruct (pairs_nth f g l k) as [Ex Ey]. rewrite Ex, Ey, Ha. now split.
Qed.

Lemma pass_threshold_nonneg (st : Renderer.t) (ps : Pass.t) :
  fieldPass st = Some ps -> 0 <= Renderer.nodeThreshold st ->
  0 <= Pass.threshold ps.
Proof.
  intros Hp Ht. destruct (fieldPass_inv st ps Hp) as (m0 & m1 & _ & _ & _ & _ & ->).
  destruct (samplingPass_fields st (computeBlendInfo st) m0 m1)
    as (_ & _ & -> & _).
  apply thresholdOf_nonneg; [exact Ht |].
  apply (samplePass_spec (BlendInfo.shape (computeBlendInfo st)) m0 m1
           (BlendInfo.alpha (computeBlendInfo st)) (Renderer.resolution st)).
Qed.

(** A grid point whose stored amplitude is [0] is a nodal point, for a
    non-negative threshold fraction. *)
Lemma zero_amplitude_is_nodal (st : Renderer.t) (ps : Pass.t) (j i : nat) :
  fieldPass st = Some ps -> 0 <= Renderer.nodeThreshold st ->
  (j < Renderer.resolution st)%nat -> (i < Renderer.resolution st)%nat ->
  nth_error (Pass.amplitudes ps) (j * Renderer.resolution st + i) = Some 0 ->
  holdsPoint (Renderer.nodalPoints (recomputeField st))
    (Renderer.cx (recomputeField st)
     + gridCoord (Renderer.resolution st) i * Renderer.halfPlatePix (recomputeField st))
    (Renderer.cy (recomputeField st)
     - gridCoord (Renderer.resolution st) j * Renderer.halfPlatePix (recomputeField st)).
Proof.
  intros Hp Ht Hj Hi Hz.
  pose proof (pass_threshold_nonneg st ps Hp Ht) as Hthr.
  destruct (recomputeField_nodalGrid st ps Hp) as (_ & Hn).
  destruct (recomputeField_pass st ps Hp) as (_ & -> & -> & ->).
  rewrite Hn. apply pairs_holdsPoint.
  assert (Hin : In (j, i) (nodalGrid (Pass.amplitudes ps) (Pass.threshold ps)
                             (Renderer.resolution st))).
  { unfold nodalGrid. apply filter_In. split; [now apply gridIndices_In |].
    cbn [fst snd]. rewrite Hz. apply Rleb_true.
    unfold Math.abs. now rewrite Rabs_R0. }
  apply In_nth_error in Hin. destruct Hin as [k Hk].
  exists k, (j, i). split; [exact Hk |]. split; reflexivity.
Qed.

Lemma pass_amplitude_at (st : Renderer.t) (ps : Pass.t) (j i : nat) :
  fieldPass st = Some ps ->
  (j < Renderer.resolution st)%nat -> (i < Renderer.resolution st)%nat ->
  exists m0 m1 : Mode.t,
    BlendInfo.mode0 (computeBlendInfo st) = Some m0 /\
    BlendInfo.mode1 (computeBlendInfo st) = Some m1 /\
    nth_error (Pass.amplitudes ps) (j * Renderer.resolution st + i)
    = Some (sampleValue (Params.shape (Renderer.params st)) m0 m1
              (BlendInfo.alpha (computeBlendInfo st)) (Renderer.resolution st) (j, i)).
Proof.
  intros Hp Hj Hi.
  destruct (fieldPass_inv st ps Hp) as (m0 & m1 & H0 & H1 & _ & _ & ->).
  exists m0, m1. split; [exact H0 |]. split; [exact H1 |].
  destruct (samplingPass_fields st (computeBlendInfo st) m0 m1) as (-> & _).
  destruct (samplePass_spec (BlendInfo.shape (computeBlendInfo st)) m0 m1
              (BlendInfo.alpha (computeBlendInfo st)) (Renderer.resolution st))
    as (-> & _).
  rewrite computeBlendInfo_shape.
  apply (grid_amplitude _ _ (j, i)). now apply gridIndices_In.
Qed.

Lemma squareModeDisplacement_diag (x : R) (m n : Z) :
  squareModeDisplacement x x m n = 0.
Proof. unfold squareModeDisplacement. destruct (m =? n)%Z; ring. Qed.

(** X15.  On the square plate, whenever the sampling pass runs (non-empty
    catalog, canvas with a client area) on a grid of resolution at least 2
    with a non-negative threshold fraction, every grid point of the diagonal [yNorm = xNorm] is a nodal
    point, whatever the frequency and the plate size are. *)
Theorem square_diagonal_is_nodal (st : Renderer.t) (i : nat) :
  Params.shape (Renderer.params st) = square ->
  activeModes st <> [] ->
  Renderer.clientWidth st <> 0%Z -> Renderer.clientHeight st <> 0%Z ->
  0 <= Renderer.nodeThreshold st ->
  (2 <= Renderer.resolution st)%nat ->
  (i < Renderer.resolution st)%nat ->
  holdsPoint (Renderer.nodalPoints (recomputeField st))
    (Renderer.cx (recomputeField st)
     + gridCoord (Renderer.resolution st) i * Renderer.halfPlatePix (recomputeField st))
    (Renderer.cy (recomputeField st)
     - gridCoord (Renderer.resolution st) i * Renderer.halfPlatePix (recomputeField st)).
Proof.
  intros Hs Hne Hw Hh Ht _ Hi.
  destruct (fieldPass_exists st Hne Hw Hh) as [ps Hp].
  apply (zero_amplitude_is_nodal st ps i i Hp Ht Hi Hi).
  destruct (pass_amplitude_at st ps i i Hp Hi Hi) as (m0 & m1 & _ & _ & ->).
  f_equal. rewrite Hs. unfold sampleValue, blendedValue. cbn [fst snd].
  destruct (insidePlate _ _ _); [| reflexivity].
  rewrite !squareModeDisplacement_diag. ring.
Qed.

Lemma constructed_nonempty : activeModes (constructed 600 400) <> [].
Proof.
  unfold activeModes, constructed.
  cbn [Renderer.params Params.shape Renderer.squareModes].
  intros E. pose proof (proj1 catalogs_length) as H. rewrite E in H. discriminate H.
Qed.

Lemma square_diagonal_is_nodal_witness :
  holdsPoint (Renderer.nodalPoints (recomputeField (constructed 600 400)))
    (Renderer.cx (recomputeField (constructed 600 400))
     + gridCoord (Renderer.resolution (constructed 600 400)) 7
       * Renderer.halfPlatePix (recomputeField (constructed 600 400)))
    (Renderer.cy (recomputeField (constructed 600 400))
     - gridCoord (Renderer.resolution (constructed 600 400)) 7
       * Renderer.halfPlatePix (recomputeField (constructed 600 400))).
Proof.
  apply (square_diagonal_is_nodal (constructed 600 400) 7).
  - reflexivity.
  - exact constructed_nonempty.
  - cbn [constructed Renderer.clientWidth]. lia.
  - cbn [constructed Renderer.clientHeight]. lia.
  - cbn [constructed Renderer.nodeThreshold]. lra.
  - cbn [constructed Renderer.resolution]. lia.
  - cbn [constructed Renderer.resolution]. lia.
Defined.

Lemma gridCoord_bounds (res k : nat) :
  (2 <= res)%nat -> (k < res)%nat -> -1 <= gridCoord res k <= 1.
Proof.
  intros Hres Hk. unfold gridCoord, gridStep.
  assert (H1 : 1 <= INR res - 1).
  { apply le_INR in Hres. cbn in Hres. lra. }
  assert (Hk0 : 0 <= INR k) by apply pos_INR.
  assert (Hk1 : INR k <= INR res - 1).
  { assert (k <= res - 1)%nat as H by lia. apply le_INR in H.
    rewrite minus_INR in H by lia. cbn in H. lra. }
  assert (Hq : 0 <= INR k * (2 / (INR res - 1)) <= 2).
  { unfold Rdiv. assert (0 < / (INR res - 1)) by (apply Rinv_0_lt_compat; lra).
    split; [apply Rmult_le_pos; nra |].
    replace 2 with ((INR res - 1) * (2 * / (INR res - 1))) at 2 by (field; lra).
    apply Rmult_le_compat_r; nra. }
  lra.
Qed.

Lemma scaled_within (c x half p : R) :
  -1 <= x <= 1 -> p = c + x * half \/ p = c - x * half ->
  Rabs (p - c) <= Rabs half.
Proof.
  intros Hx [-> | ->].
  - replace (c + x * half - c) with (x * half) by ring.
    rewrite Rabs_mult. assert (Rabs x <= 1) by (apply Rabs_le; lra).
    pose proof (Rabs_pos half). nra.
  - replace (c - x * half - c) with (- x * half) by ring.
    rewrite Rabs_mult, Rabs_Ropp. assert (Rabs x <= 1) by (apply Rabs_le; lra).
    pose proof (Rabs_pos half). nra.
Qed.

(** X16.  For a grid resolution of at least 2, every nodal point left by
    [recomputeField] lies within the outline [drawOutline] then strokes: the
    square itself on the square plate, and the square around the circle on
    the circular plate. *)
Theorem nodal_points_within_outline (st : Renderer.t) (px py : R) :
  (2 <= Renderer.resolution st)%nat ->
  holdsPoint (Renderer.nodalPoints (recomputeField st)) px py ->
  match drawOutline (recomputeField st) with
  | StrokeRect x y w h =>
      Rabs (px - (x + w / 2)) <= Rabs (w / 2) /\
      Rabs (py - (y + h / 2)) <= Rabs (h / 2)
  | StrokeArc x y radius _ _ =>
      Rabs (px - x) <= Rabs radius /\ Rabs (py - y) <= Rabs radius
  end.
Proof.
  intros Hres Hpt.
  destruct (fieldPass st) as [ps |] eqn:Hp.
  - destruct (recomputeField_nodalGrid st ps Hp) as (_ & Hn).
    rewrite Hn in Hpt. apply pairs_holdsPoint in Hpt.
    destruct Hpt as (k & [j i] & Hk & Hx & Hy).
    apply nth_error_In in Hk. unfold nodalGrid in Hk.
    apply filter_In in Hk. destruct Hk as [Hg _].
    apply gridIndices_In in Hg.
    cbn [canvasPoint fst snd] in Hx, Hy.
    pose proof (gridCoord_bounds _ i Hres (proj2 Hg)) as Bi.
    pose proof (gridCoord_bounds _ j Hres (proj1 Hg)) as Bj.
    destruct (recomputeField_pass st ps Hp) as (_ & Hcx & Hcy & Hh).
    destruct (recomputeField_catalogs st) as (_ & _ & Hpr).
    unfold drawOutline. rewrite Hcx, Hcy, Hh, Hpr.
    set (half := Pass.halfPlatePix ps) in *.
    destruct (Params.shape (Renderer.params st)).
    + replace (Pass.cx ps - half + 2 * half / 2) with (Pass.cx ps) by lra.
      replace (Pass.cy ps - half + 2 * half / 2) with (Pass.cy ps) by lra.
      replace (2 * half / 2) with half by lra.
      split;
        [ apply (scaled_within _ (gridCoord (Renderer.resolution st) i) half);
          [exact Bi | left; exact Hx]
        | apply (scaled_within _ (gridCoord (Renderer.resolution st) j) half);
          [exact Bj | right; exact Hy] ].
    + split;
        [ apply (scaled_within _ (gridCoord (Renderer.resolution st) i) half);
          [exact Bi | left; exact Hx]
        | apply (scaled_within _ (gridCoord (Renderer.resolution st) j) half);
          [exact Bj | right; exact Hy] ].
  - rewrite (recomputeField_early st Hp) in Hpt.
    destruct Hpt as [k [Hk _]]. destruct (2 * k)%nat; discriminate.
Qed.

(** On the circular plate a grid point outside the disc is a nodal point. *)
Lemma outside_point_held (st : Renderer.t) (ps : Pass.t) (j i : nat) :
  Params.shape (Renderer.params st) = circle ->
  fieldPass st = Some ps -> 0 <= Renderer.nodeThreshold st ->
  (j < Renderer.resolution st)%nat -> (i < Renderer.resolution st)%nat ->
  Math.hypot (gridCoord (Renderer.resolution st) i)
             (gridCoord (Renderer.resolution st) j) > 1 ->
  holdsPoint (Renderer.nodalPoints (recomputeField st))
    (Renderer.cx (recomputeField st)
     + gridCoord (Renderer.resolution st) i * Renderer.halfPlatePix (recomputeField st))
    (Renderer.cy (recomputeField st)
     - gridCoord (Renderer.resolution st) j * Renderer.halfPlatePix (recomputeField st)).
Proof.
  intros Hs Hp Ht Hj Hi Hout.
  apply (zero_amplitude_is_nodal st ps j i Hp Ht Hj Hi).
  destruct (pass_amplitude_at st ps j i Hp Hj Hi) as (m0 & m1 & _ & _ & ->).
  f_equal. rewrite Hs. now apply sampleValue_outside.
Qed.

Lemma circleAt20_corner_held :
  holdsPoint (Renderer.nodalPoints (recomputeField (circleAt20 600 400 320)))
    (Renderer.cx (recomputeField (circleAt20 600 400 320))
     + gridCoord 320 0 * Renderer.halfPlatePix (recomputeField (circleAt20 600 400 320)))
    (Renderer.cy (recomputeField (circleAt20 600 400 320))
     - gridCoord 320 0 * Renderer.halfPlatePix (recomputeField (circleAt20 600 400 320))).
Proof.
  apply (outside_point_held (circleAt20 600 400 320) _ 0 0 eq_refl circleAt20_pass).
  - cbn [circleAt20 Renderer.nodeThreshold]. lra.
  - cbn [circleAt20 Renderer.resolution]. lia.
  - cbn [circleAt20 Renderer.resolution]. lia.
  - cbn [circleAt20 Renderer.resolution]. rewrite gridCoord_first. exact hypot_corner.
Qed.

Lemma nodal_points_within_outline_witness :
  match drawOutline (recomputeField (circleAt20 600 400 320)) with
  | StrokeRect x y w h =>
      Rabs (Renderer.cx (recomputeField (circleAt20 600 400 320))
            + gridCoord 320 0
              * Renderer.halfPlatePix (recomputeField (circleAt20 600 400 320))
            - (x + w / 2)) <= Rabs (w / 2) /\
      Rabs (Renderer.cy (recomputeField (circleAt20 600 400 320))
            - gridCoord 320 0
              * Renderer.halfPlatePix (recomputeField (circleAt20 600 400 320))
            - (y + h / 2)) <= Rabs (h / 2)
  | StrokeArc x y radius _ _ =>
      Rabs (Renderer.cx (recomputeField (circleAt20 600 400 320))
            + gridCoord 320 0
              * Renderer.halfPlatePix (recomputeField (circleAt20 600 400 320))
            - x) <= Rabs radius /\
      Rabs (Renderer.cy (recomputeField (circleAt20 600 400 320))
            - gridCoord 320 0
              * Renderer.halfPlatePix (recomputeField (circleAt20 600 400 320))
            - y) <= Rabs radius
  end.
Proof.
  apply (nodal_points_within_outline (circleAt20 600 400 320)).
  - cbn [circleAt20 Renderer.resolution]. lia.
  - exact circleAt20_corner_held.
Defined.

Lemma min_nonzero (a b : Z) :
  a <> 0%Z -> b <> 0%Z -> Math.min (IZR a) (IZR b) <> 0.
Proof.
  intros Ha Hb. unfold Math.min, Rmin.
  destruct (Rle_dec (IZR a) (IZR b)); intros H; apply eq_IZR in H; contradiction.
Qed.

(** X17.  On the circular plate, whenever the sampling pass runs on a grid
    of resolution at least 2 with a non-negative threshold fraction, a grid point outside the unit disc is a
    nodal point whose canvas position is strictly outside the circle that
    [drawOutline] strokes. *)
Theorem outside_points_fall_outside_circle (st : Renderer.t) (j i : nat) :
  Params.shape (Renderer.params st) = circle ->
  activeModes st <> [] ->
  Renderer.clientWidth st <> 0%Z -> Renderer.clientHeight st <> 0%Z ->
  0 <= Renderer.nodeThreshold st ->
  (2 <= Renderer.resolution st)%nat ->
  (j < Renderer.resolution st)%nat -> (i < Renderer.resolution st)%nat ->
  Math.hypot (gridCoord (Renderer.resolution st) i)
             (gridCoord (Renderer.resolution st) j) > 1 ->
  let st' := recomputeField st in
  let px := Renderer.cx st'
            + gridCoord (Renderer.resolution st) i * Renderer.halfPlatePix st' in
  let py := Renderer.cy st'
            - gridCoord (Renderer.resolution st) j * Renderer.halfPlatePix st' in
  holdsPoint (Renderer.nodalPoints st') px py /\
  match drawOutline st' with
  | StrokeArc x y radius _ _ =>
      radius * radius < (px - x) * (px - x) + (py - y) * (py - y)
  | StrokeRect _ _ _ _ => False
  end.
Proof.
  intros Hs Hne Hw Hh Ht _ Hj Hi Hout st' px py.
  destruct (fieldPass_exists st Hne Hw Hh) as [ps Hp].
  split; [now apply (outside_point_held st ps j i) |].
  destruct (recomputeField_catalogs st) as (_ & _ & Hpr).
  unfold drawOutline. fold st'. unfold st' at 1. rewrite Hpr, Hs.
  subst px py.
  set (half := Renderer.halfPlatePix st').
  assert (Hhalf : half <> 0).
  { unfold half, st'. destruct (recomputeField_pass st ps Hp) as (_ & _ & _ & ->).
    destruct (fieldPass_inv st ps Hp) as (m0 & m1 & _ & _ & _ & _ & ->).
    destruct (samplingPass_fields st (computeBlendInfo st) m0 m1)
      as (_ & _ & _ & _ & _ & _ & ->).
    pose proof (min_nonzero _ _ Hw Hh) as Hmin.
    destruct (computeBlendInfo_nonempty st Hne) as (_ & _ & _ & _ & ->).
    assert (Hsz : effectiveSize (Renderer.params st) <> 0).
    { unfold effectiveSize, orElse. destruct (Req_dec_T _ 0); lra. }
    apply Rmult_integral_contrapositive_currified; [| exact Hsz].
    apply Rmult_integral_contrapositive_currified; [lra | exact Hmin]. }
  set (x := gridCoord (Renderer.resolution st) i) in *.
  set (y := gridCoord (Renderer.resolution st) j) in *.
  pose proof (hypot_sqr x y) as Hsq. pose proof (hypot_nonneg x y) as Hnn.
  assert (Hr : 1 < x * x + y * y) by nra.
  assert (Hh2 : 0 < half * half) by nra.
  replace ((Renderer.cx st' + x * half - Renderer.cx st')
           * (Renderer.cx st' + x * half - Renderer.cx st')
           + (Renderer.cy st' - y * half - Renderer.cy st')
             * (Renderer.cy st' - y * half - Renderer.cy st'))
    with ((x * x + y * y) * (half * half)) by ring.
  nra.
Qed.

Lemma circleAt20_nonempty (w h : Z) (res : nat) : activeModes (circleAt20 w h res) <> [].
Proof.
  unfold activeModes, circleAt20.
  cbn [Renderer.params Params.shape Renderer.circleModes].
  intros E. pose proof (proj2 catalogs_length) as H. rewrite E in H. discriminate H.
Qed.

Lemma outside_points_fall_outside_circle_witness :
  let st' := recomputeField (circleAt20 600 400 320) in
  let px := Renderer.cx st'
            + gridCoord (Renderer.resolution (circleAt20 600 400 320)) 0
              * Renderer.halfPlatePix st' in
  let py := Renderer.cy st'
            - gridCoord (Renderer.resolution (circleAt20 600 400 320)) 0
              * Renderer.halfPlatePix st' in
  holdsPoint (Renderer.nodalPoints st') px py /\
  match drawOutline st' with
  | StrokeArc x y radius _ _ =>
      radius * radius < (px - x) * (px - x) + (py - y) * (py - y)
  | StrokeRect _ _ _ _ => False
  end.
Proof.
  apply (outside_points_fall_outside_circle (circleAt20 600 400 320) 0 0).
  - reflexivity.
  - apply circleAt20_nonempty.
  - cbn [circleAt20 Renderer.clientWidth]. lia.
  - cbn [circleAt20 Renderer.clientHeight]. lia.
  - cbn [circleAt20 Renderer.nodeThreshold]. lra.
  - exact circleAt20_resolution.
  - cbn [circleAt20 Renderer.resolution]. lia.
  - cbn [circleAt20 Renderer.resolution]. lia.
  - cbn [circleAt20 Renderer.resolution]. rewrite gridCoord_first. exact hypot_corner.
Defined.

Lemma recomputeField_inputs (st : Renderer.t) :
  computeBlendInfo (recomputeField st) = computeBlendInfo st /\
  fieldPass (recomputeField st) = fieldPass st.
Proof.
  unfold recomputeField.
  destruct (fieldPass st) eqn:E; (split; [reflexivity | rewrite <- E; reflexivity]).
Qed.

Lemma recomputeField_object (st : Renderer.t) :
  computeBlendObject (recomputeField st) = computeBlendObject st.
Proof. unfold recomputeField. destruct (fieldPass st); reflexivity. Qed.

(** X18.  [recomputeField] reads nothing of what it writes: running it a
    second time, with no change of parameters, canvas or catalogs in
    between, leaves the renderer as the first run left it (same blend
    descriptor, centre, half extent and nodal points). *)
Theorem recomputeField_idempotent (st : Renderer.t) :
  recomputeField (recomputeField st) = recomputeField st.
Proof.
  destruct (recomputeField_inputs st) as [_ Hp].
  pose proof (recomputeField_object st) as Hb.
  unfold recomputeField at 1. rewrite Hb, Hp.
  unfold recomputeField. destruct (fieldPass st); reflexivity.
Qed.

(* ================================================================= *)
(** * Further properties of the renderer's operations *)

Lemma rescale_rescale (s1 s2 : R) (md : Mode.t) :
  rescale s2 (rescale s1 md) = rescale s2 md.
Proof. reflexivity. Qed.

Lemma map_rescale_rescale (s1 s2 : R) (l : list Mode.t) :
  map (rescale s2) (map (rescale s1) l) = map (rescale s2) l.
Proof. rewrite map_map. apply map_ext. intros md. apply rescale_rescale. Qed.

(** The descriptor follows a rescaling: with the plate size changed from
    [0.9] to [1.2], the [mode0] read through the stored descriptor has
    [eigenFreq = 20 / 0.9^2] before [updateModeFrequencies] and
    [20 / 1.2^2] after it. *)
Lemma stored_descriptor_follows_rescaling :
  let st := withParams (tieState 0.25) (Params.mk square 1.2 440) in
  let st' := updateModeFrequencies st in
  exists md md' : Mode.t,
    storedBlend st
    = Some (BlendInfo.mk square 440 0.9 (Some md) (Some tieMode1) 0.25) /\
    storedBlend st'
    = Some (BlendInfo.mk square 440 0.9 (Some md')
              (Some (rescale (1 / (1.2 * 1.2)) tieMode1)) 0.25) /\
    Mode.eigenFreq md = 20 / 0.9 ^ 2 /\
    Mode.eigenFreq md' = 20 / 1.2 ^ 2 /\
    Mode.eigenFreq md' <> Mode.eigenFreq md.
Proof.
  intros st st'.
  destruct (tieState_modes 0.25) as [H0 H1].
  assert (Hb : baseFreqAt 42 0 = 20) by (apply baseFreqAt_ends; lia).
  assert (M0 : modeAt st (ModeRef.mk square 0) = Some tieMode0) by exact H0.
  assert (M1 : modeAt st (ModeRef.mk square 1) = Some tieMode1) by exact H1.
  assert (L : orElse (Params.plateSize (Renderer.params st)) 1 = 1.2).
  { unfold st, withParams. cbn [Renderer.params Params.plateSize].
    apply orElse_nonzero. lra. }
  pose proof (modeAt_updateModeFrequencies st (ModeRef.mk square 0)) as N0.
  pose proof (modeAt_updateModeFrequencies st (ModeRef.mk square 1)) as N1.
  cbv zeta in N0, N1. rewrite L in N0, N1. rewrite M0 in N0. rewrite M1 in N1.
  cbn [option_map] in N0, N1. fold st' in N0, N1.
  exists tieMode0, (rescale (1 / (1.2 * 1.2)) tieMode0).
  split; [| split; [| split; [| split]]].
  - unfold storedBlend.
    change (Renderer.blendInfo st)
      with (Some (BlendObject.mk square 440 0.9
                    (Some (ModeRef.mk square 0)) (Some (ModeRef.mk square 1))
                    0.25)).
    unfold readBlend.
    cbn [BlendObject.shape BlendObject.freqHz BlendObject.plateSize
         BlendObject.mode0 BlendObject.mode1 BlendObject.alpha readMode].
    now rewrite M0, M1.
  - unfold storedBlend.
    change (Renderer.blendInfo st')
      with (Some (BlendObject.mk square 440 0.9
                    (Some (ModeRef.mk square 0)) (Some (ModeRef.mk square 1))
                    0.25)).
    unfold readBlend.
    cbn [BlendObject.shape BlendObject.freqHz BlendObject.plateSize
         BlendObject.mode0 BlendObject.mode1 BlendObject.alpha readMode].
    now rewrite N0, N1.
  - unfold tieMode0. cbn [Mode.eigenFreq]. now rewrite Hb.
  - unfold rescale, tieMode0. cbn [Mode.eigenFreq Mode.baseFreq].
    rewrite Hb. lra.
  - unfold rescale, tieMode0. cbn [Mode.eigenFreq Mode.baseFreq].
    rewrite Hb. lra.
Qed.

(** X19.  Rescaling does not accumulate: the catalogs after a rescaling
    depend on the base frequencies and on the current plate size only, so
    rescaling for a new size after any earlier rescaling gives what rescaling
    for the new size alone gives, and rescaling twice for the same size is
    rescaling once.  For the plate size [0] the size [1] is used, and
    [eigenFreq] becomes [baseFreq]. *)
Theorem updateModeFrequencies_no_drift (st : Renderer.t) (pr : Params.t) :
  updateModeFrequencies (withParams (updateModeFrequencies st) pr)
  = updateModeFrequencies (withParams st pr) /\
  updateModeFrequencies (updateModeFrequencies st) = updateModeFrequencies st /\
  (Params.plateSize pr = 0 ->
   forall md, In md (Renderer.squareModes (updateModeFrequencies (withParams st pr)))
              \/ In md (Renderer.circleModes (updateModeFrequencies (withParams st pr))) ->
              Mode.eigenFreq md = Mode.baseFreq md).
Proof.
  split; [| split].
  - unfold updateModeFrequencies, withParams. cbn.
    now rewrite !map_rescale_rescale.
  - unfold updateModeFrequencies. cbn. now rewrite !map_rescale_rescale.
  - intros H0 md Hmd. unfold updateModeFrequencies, withParams in Hmd.
    cbn in Hmd. rewrite H0 in Hmd. unfold orElse in Hmd.
    destruct (Req_dec_T 0 0) as [_ | H]; [| contradiction].
    destruct Hmd as [Hmd | Hmd]; apply in_map_iff in Hmd;
      destruct Hmd as [old [<- _]]; cbn; field.
Qed.

Lemma updateParams_plateSize_witness :
  let st := constructed 600 400 in
  let np := NewParams.mk None (Some 1.2) None in
  let st' := updateParams st np in
  Params.plateSize (Renderer.params st') = 1.2 /\
  (1.2 <> Params.plateSize (Renderer.params st) ->
   Forall2 (rescaled 1.2) (Renderer.squareModes st) (Renderer.squareModes st') /\
   Forall2 (rescaled 1.2) (Renderer.circleModes st) (Renderer.circleModes st')) /\
  (1.2 = Params.plateSize (Renderer.params st) ->
   Renderer.squareModes st' = Renderer.squareModes st /\
   Renderer.circleModes st' = Renderer.circleModes st).
Proof.
  apply (updateParams_plateSize (constructed 600 400)
           (NewParams.mk None (Some 1.2) None) 1.2); [reflexivity | lra].
Defined.

Lemma summary_fields (st : Renderer.t) :
  let s := getActiveModeSummary st in
  let bi := currentBlend st in
  Summary.shape s = BlendInfo.shape bi /\
  Summary.freqHz s = BlendInfo.freqHz bi /\
  Summary.plateSize s = BlendInfo.plateSize bi /\
  Summary.alpha s = BlendInfo.alpha bi /\
  Summary.mode0 s = BlendInfo.mode0 bi /\
  Summary.mode1 s = BlendInfo.mode1 bi.
Proof.
  cbv zeta. unfold getActiveModeSummary.
  destruct (fold_left _ _ _) as [closest bestDiff].
  destruct (labelModes _ _ _) as [primary secondary].
  cbn. repeat split; reflexivity.
Qed.

Lemma recomputeField_blendInfo (st : Renderer.t) :
  storedBlend (recomputeField st) = Some (computeBlendInfo (recomputeField st)).
Proof.
  rewrite (proj1 (recomputeField_inputs st)).
  apply storedBlend_recomputeField.
Qed.

Lemma updateParams_params (st : Renderer.t) (np : NewParams.t) :
  Renderer.params (updateParams st np) = assignParams (Renderer.params st) np.
Proof.
  unfold updateParams.
  destruct (NewParams.plateSize np) as [s |];
    [destruct (Req_dec_T s _) |];
    rewrite (proj2 (proj2 (recomputeField_catalogs _))); reflexivity.
Qed.

(** X21.  After the three controls are synchronised into the renderer, the
    stored blend descriptor is the one of the new parameters and of the
    catalogs as they are now, and the summary reports it: the new shape, the
    frequency clamped to [20, 20000] and the size with [0] replaced by [1]
    (for a non-empty catalog), and the blend of the new parameters. *)
Theorem summary_after_sync (st : Renderer.t) (sh : Shape) (L f : R) :
  let st' := syncParamsToRenderer st sh L f in
  let s := getActiveModeSummary st' in
  Renderer.params st' = Params.mk sh L f /\
  storedBlend st' = Some (computeBlendInfo st') /\
  Summary.shape s = sh /\
  Summary.alpha s = BlendInfo.alpha (computeBlendInfo st') /\
  Summary.mode0 s = BlendInfo.mode0 (computeBlendInfo st') /\
  Summary.mode1 s = BlendInfo.mode1 (computeBlendInfo st') /\
  (activeModes st' <> [] ->
   Summary.freqHz s = Math.max 20 (Math.min 20000 f) /\
   Summary.plateSize s = orElse L 1).
Proof.
  intros st' s.
  assert (Hpr : Renderer.params st' = Params.mk sh L f).
  { unfold st', syncParamsToRenderer. now rewrite updateParams_params. }
  assert (Hbi : storedBlend st' = Some (computeBlendInfo st')).
  { unfold st', syncParamsToRenderer, updateParams. apply recomputeField_blendInfo. }
  assert (Hcur : currentBlend st' = computeBlendInfo st').
  { unfold currentBlend. now rewrite Hbi. }
  destruct (summary_fields st') as (Hs & Hf & Hz & Ha & H0 & H1).
  fold s in Hs, Hf, Hz, Ha, H0, H1. rewrite Hcur in Hs, Hf, Hz, Ha, H0, H1.
  split; [exact Hpr |]. split; [exact Hbi |].
  split; [rewrite Hs, computeBlendInfo_shape, Hpr; reflexivity |].
  split; [exact Ha |]. split; [exact H0 |]. split; [exact H1 |].
  intros Hne. rewrite Hf, Hz. unfold computeBlendInfo.
  destruct (length (activeModes st') =? 0)%nat eqn:E.
  { apply Nat.eqb_eq in E. destruct (activeModes st'); [contradiction | discriminate]. }
  cbn [BlendInfo.freqHz BlendInfo.plateSize]. rewrite Hpr. split; reflexivity.
Qed.

Lemma closest_fold (f : R) (l : list Mode.t) (c0 : Mode.t) :
  exists c : Mode.t,
    fold_left (closestStep f) l (Some c0, Some (detuningOf f c0))
    = (Some c, Some (detuningOf f c)) /\
    ((c = c0 /\ forall m, In m l -> detuningOf f c0 <= detuningOf f m) \/
     (exists l1 l2,
        l = l1 ++ c :: l2 /\
        detuningOf f c < detuningOf f c0 /\
        (forall m, In m l1 -> detuningOf f c < detuningOf f m) /\
        (forall m, In m l2 -> detuningOf f c <= detuningOf f m))).
Proof.
  revert c0. induction l as [| x l IH]; intros c0.
  - exists c0. split; [reflexivity |]. left. split; [reflexivity | intros m []].
  - cbn [fold_left]. unfold closestStep at 2. fold (detuningOf f x).
    destruct (Rlt_dec (detuningOf f x) (detuningOf f c0)) as [Hlt | Hge].
    + destruct (IH x) as (c & Hc & [[-> Hall] | (l1 & l2 & -> & Hcx & H1 & H2)]).
      * exists x. split; [exact Hc |]. right. exists [], l.
        repeat split; auto. intros m [].
      * exists c. split; [exact Hc |]. right. exists (x :: l1), l2.
        repeat split; [lra | | exact H2].
        intros m [<- | Hm]; [exact Hcx | now apply H1].
    + destruct (IH c0) as (c & Hc & [[-> Hall] | (l1 & l2 & -> & Hcx & H1 & H2)]).
      * exists c0. split; [exact Hc |]. left. split; [reflexivity |].
        intros m [<- | Hm]; [lra | now apply Hall].
      * exists c. split; [exact Hc |]. right. exists (x :: l1), l2.
        repeat split; [exact Hcx | | exact H2].
        intros m [<- | Hm]; [lra | now apply H1].
Qed.

Lemma closest_scan (f : R) (modes : list Mode.t) :
  (modes = [] /\ fold_left (closestStep f) modes (None, None) = (None, None)) \/
  (exists l1 c l2,
     modes = l1 ++ c :: l2 /\
     fold_left (closestStep f) modes (None, None) = (Some c, Some (detuningOf f c)) /\
     (forall m, In m l1 -> detuningOf f c < detuningOf f m) /\
     (forall m, In m l2 -> detuningOf f c <= detuningOf f m)).
Proof.
  destruct modes as [| x l]; [left; now split | right].
  cbn [fold_left]. unfold closestStep at 2. fold (detuningOf f x).
  destruct (closest_fold f l x) as (c & Hc & [[-> Hall] | (l1 & l2 & -> & Hcx & H1 & H2)]).
  - exists [], x, l. repeat split; auto. intros m [].
  - exists (x :: l1), c, l2. repeat split; auto.
    intros m [<- | Hm]; [exact Hcx | now apply H1].
Qed.

(** X22.  The summary's closest mode is the first entry of the scanned
    catalog at which [|eigenFreq - freqHz|] is smallest: every earlier entry
    is strictly farther from the drive frequency and no later entry is
    nearer; [closestEigenFreq] is its eigenfrequency and [detuning] is that
    smallest distance.  For an empty catalog all three are absent. *)
Theorem summary_closest_mode (st : Renderer.t) :
  let s := getActiveModeSummary st in
  let f := BlendInfo.freqHz (currentBlend st) in
  (summaryModes st = [] /\
   Summary.closestMode s = None /\
   Summary.closestEigenFreq s = None /\
   Summary.detuning s = None) \/
  (exists l1 c l2,
     summaryModes st = l1 ++ c :: l2 /\
     Summary.closestMode s = Some c /\
     Summary.closestEigenFreq s = Some (Mode.eigenFreq c) /\
     Summary.detuning s = Some (detuningOf f c) /\
     (forall m, In m l1 -> detuningOf f c < detuningOf f m) /\
     (forall m, In m l2 -> detuningOf f c <= detuningOf f m)).
Proof.
  intros s f. subst s. unfold getActiveModeSummary. fold f.
  fold (summaryModes st).
  destruct (closest_scan f (summaryModes st))
    as [[E Hf] | (l1 & c & l2 & E & Hf & H1 & H2)]; rewrite Hf.
  - left. destruct (labelModes _ _ _). cbn. repeat split. exact E.
  - right. exists l1, c, l2. destruct (labelModes _ _ _). cbn.
    repeat split; auto.
Qed.

(* ================================================================= *)
(** * The animation loop and the canvas *)

Lemma last_cons_default {A : Type} (a d : A) (l : list A) :
  last (a :: l) d = last l a.
Proof.
  revert a d. induction l as [| b l IH]; intros a d; [reflexivity |].
  change (last (a :: b :: l) d) with (last (b :: l) d).
  now rewrite (IH b d), (IH b a).
Qed.

Lemma loop_fields (an : Animation.t) (t : R) (h : Z) :
  Animation.time (fst (loop an t h))
  = Animation.time an
    + (t - match Animation.lastTimestamp an with None => t | Some l => l end) / 1000 /\
  Animation.lastTimestamp (fst (loop an t h)) = Some t /\
  Animation.animationFrameId (fst (loop an t h)) = Some h.
Proof. unfold loop. cbn [fst Animation.time Animation.lastTimestamp Animation.animationFrameId]. auto. Qed.

Lemma frames_cons (an : Animation.t) (th : R * Z) (fired : list (R * Z)) :
  frames an (th :: fired) = frames (fst (loop an (fst th) (snd th))) fired.
Proof. reflexivity. Qed.

Lemma frames_running (fired : list (R * Z)) (an : Animation.t) (l0 : R) (h0 : Z) :
  Animation.lastTimestamp an = Some l0 ->
  Animation.animationFrameId an = Some h0 ->
  Animation.time (frames an fired)
  = Animation.time an + (last (map fst fired) l0 - l0) / 1000 /\
  Animation.lastTimestamp (frames an fired) = Some (last (map fst fired) l0) /\
  Animation.animationFrameId (frames an fired) = Some (last (map snd fired) h0).
Proof.
  revert an l0 h0. induction fired as [| [t1 h1] fired IH]; intros an l0 h0 Hl Hh.
  - unfold frames. cbn [fold_left map last]. repeat split; [lra | exact Hl | exact Hh].
  - rewrite frames_cons. cbn [fst snd map].
    destruct (loop_fields an t1 h1) as (Ht & Hs & Hi). rewrite Hl in Ht.
    destruct (IH (fst (loop an t1 h1)) t1 h1 Hs Hi) as (Ht' & Hs' & Hi').
    rewrite !last_cons_default. rewrite Ht', Hs', Hi', Ht.
    repeat split. lra.
Qed.

(** X23.  The frame clock: after the frames with timestamps [t1, ..., tn]
    have run, [time] has grown by [(tn - t0) / 1000], the seconds from the
    last timestamp seen before them, or from [t1] itself when there was
    none; [lastTimestamp] is [tn] and exactly the handle of the last request
    is stored. *)
Theorem frame_clock (an : Animation.t) (t1 : R) (h1 : Z) (rest : list (R * Z)) :
  let t0 := match Animation.lastTimestamp an with None => t1 | Some l => l end in
  let tn := last (map fst rest) t1 in
  let an' := frames an ((t1, h1) :: rest) in
  Animation.time an' = Animation.time an + (tn - t0) / 1000 /\
  Animation.lastTimestamp an' = Some tn /\
  Animation.animationFrameId an' = Some (last (map snd rest) h1).
Proof.
  intros t0 tn an'. subst an'. rewrite frames_cons. cbn [fst snd].
  destruct (loop_fields an t1 h1) as (Ht & Hs & Hi). fold t0 in Ht.
  destruct (frames_running rest (fst (loop an t1 h1)) t1 h1 Hs Hi)
    as (Ht' & Hs' & Hi').
  fold tn in Ht', Hs'. rewrite Ht', Hs', Hi', Ht. repeat split. lra.
Qed.

(** X24.  [start] on a running loop requests no second frame and changes
    nothing; [stop] cancels exactly the stored handle and a second [stop]
    does nothing; and after [stop] and [start] the first frame adds nothing
    to [time], so the pause is not counted. *)
Theorem start_stop_protocol (an : Animation.t) (h1 h2 h3 : Z) (t : R) :
  let running := fst (start an h1) in
  let stopped := fst (stop running) in
  let resumed := fst (start stopped h2) in
  Animation.animationFrameId running <> None /\
  start running h2 = (running, []) /\
  snd (stop running)
  = match Animation.animationFrameId running with
    | Some id => [CancelAnimationFrame id]
    | None => []
    end /\
  stop stopped = (stopped, []) /\
  snd (start stopped h2) = [RequestAnimationFrame] /\
  Animation.animationFrameId resumed = Some h2 /\
  Animation.time (fst (loop resumed t h3)) = Animation.time an.
Proof.
  unfold start, stop.
  destruct (Animation.animationFrameId an) as [id |] eqn:E.
  - cbn [fst snd]. rewrite E. cbn [fst snd Animation.animationFrameId].
    repeat split; try discriminate.
    cbn [loop fst Animation.time Animation.lastTimestamp].
    unfold loop. cbn [fst Animation.time Animation.lastTimestamp]. lra.
  - cbn [fst snd Animation.animationFrameId].
    repeat split; try discriminate.
    unfold loop. cbn [fst Animation.time Animation.lastTimestamp]. lra.
Qed.

Lemma held_point_offsets (st : Renderer.t) (px py : R) :
  (2 <= Renderer.resolution st)%nat ->
  holdsPoint (Renderer.nodalPoints (recomputeField st)) px py ->
  exists (ps : Pass.t) (x y : R),
    fieldPass st = Some ps /\
    -1 <= x <= 1 /\ -1 <= y <= 1 /\
    px = Pass.cx ps + x * Pass.halfPlatePix ps /\
    py = Pass.cy ps - y * Pass.halfPlatePix ps.
Proof.
  intros Hres Hpt. destruct (fieldPass st) as [ps |] eqn:Hp.
  - destruct (recomputeField_nodalGrid st ps Hp) as (_ & Hn).
    rewrite Hn in Hpt. apply pairs_holdsPoint in Hpt.
    destruct Hpt as (k & [j i] & Hk & Hx & Hy).
    apply nth_error_In in Hk. unfold nodalGrid in Hk.
    apply filter_In in Hk. destruct Hk as [Hg _]. apply gridIndices_In in Hg.
    cbn [canvasPoint fst snd] in Hx, Hy.
    exists ps, (gridCoord (Renderer.resolution st) i),
           (gridCoord (Renderer.resolution st) j).
    split; [reflexivity |].
    split; [apply gridCoord_bounds; [exact Hres | apply Hg] |].
    split; [apply gridCoord_bounds; [exact Hres | apply Hg] |].
    split; assumption.
  - rewrite (recomputeField_early st Hp) in Hpt.
    destruct Hpt as [k [Hk _]]. destruct (2 * k)%nat; discriminate.
Qed.

(** X25.  For a grid resolution of at least 2, a canvas with a client area
    and a plate size of absolute value at most [10/9], every nodal point
    lies inside the client rectangle of the canvas,
    [0 <= px <= clientWidth] and [0 <= py <= clientHeight]. *)
Theorem nodal_points_inside_canvas (st : Renderer.t) (px py : R) :
  (2 <= Renderer.resolution st)%nat ->
  (0 < Renderer.clientWidth st)%Z -> (0 < Renderer.clientHeight st)%Z ->
  Rabs (Params.plateSize (Renderer.params st)) <= 10 / 9 ->
  holdsPoint (Renderer.nodalPoints (recomputeField st)) px py ->
  0 <= px <= IZR (Renderer.clientWidth st) /\
  0 <= py <= IZR (Renderer.clientHeight st).
Proof.
  intros Hres Hw Hh HL Hpt.
  destruct (held_point_offsets st px py Hres Hpt)
    as (ps & x & y & Hp & Hx & Hy & -> & ->).
  destruct (fieldPass_inv st ps Hp) as (m0 & m1 & H0 & _ & _ & _ & ->).
  destruct (samplingPass_fields st (computeBlendInfo st) m0 m1)
    as (_ & _ & _ & _ & -> & -> & ->).
  assert (Hne : activeModes st <> []).
  { intros E. rewrite (computeBlendInfo_empty st E) in H0. discriminate H0. }
  destruct (computeBlendInfo_nonempty st Hne) as (_ & _ & _ & _ & ->).
  apply IZR_lt in Hw, Hh.
  set (w := IZR (Renderer.clientWidth st)) in *.
  set (h := IZR (Renderer.clientHeight st)) in *.
  assert (Hmin : 0 < Math.min w h <= w /\ Math.min w h <= h).
  { unfold Math.min, Rmin. destruct (Rle_dec w h); lra. }
  set (mn := Math.min w h) in *.
  assert (Hs : Rabs (effectiveSize (Renderer.params st)) <= 10 / 9).
  { unfold effectiveSize, orElse. destruct (Req_dec_T _ 0); [| exact HL].
    rewrite Rabs_R1. lra. }
  set (L := effectiveSize (Renderer.params st)) in *.
  assert (HLb : - (10 / 9) <= L <= 10 / 9).
  { pose proof (Rle_abs L). pose proof (Rle_abs (- L)) as Hn.
    rewrite Rabs_Ropp in Hn. lra. }
  assert (Hhalf : - (mn / 2) <= 0.45 * mn * L <= mn / 2) by nra.
  set (half := 0.45 * mn * L) in *.
  assert (Hxh : - (mn / 2) <= x * half <= mn / 2) by nra.
  assert (Hyh : - (mn / 2) <= y * half <= mn / 2) by nra.
  lra.
Qed.

Lemma nodal_points_inside_canvas_witness :
  0 <= Renderer.cx (recomputeField (circleAt20 600 400 320))
       + gridCoord 320 0 * Renderer.halfPlatePix (recomputeField (circleAt20 600 400 320))
    <= IZR (Renderer.clientWidth (circleAt20 600 400 320)) /\
  0 <= Renderer.cy (recomputeField (circleAt20 600 400 320))
       - gridCoord 320 0 * Renderer.halfPlatePix (recomputeField (circleAt20 600 400 320))
    <= IZR (Renderer.clientHeight (circleAt20 600 400 320)).
Proof.
  apply (nodal_points_inside_canvas (circleAt20 600 400 320)).
  - cbn [circleAt20 Renderer.resolution]. lia.
  - cbn [circleAt20 Renderer.clientWidth]. lia.
  - cbn [circleAt20 Renderer.clientHeight]. lia.
  - cbn [circleAt20 Renderer.params Params.plateSize]. rewrite Rabs_R1. lra.
  - exact circleAt20_corner_held.
Defined.

(** A positive number below [2^31] is stored rounded down. *)
Lemma setDimension_floor (default : Z) (x : R) :
  0 <= x < 2147483648 -> setDimension default x = Math.floor x.
Proof.
  intros [H0 H1]. unfold setDimension, toUnsignedLong, Math.floor.
  destruct (Rle_dec 0 x) as [_ | H]; [| contradiction].
  pose proof (Zfloor_bound x) as Hb.
  assert (Hlo : (0 <= Zfloor x)%Z) by (apply Zfloor_lub; exact H0).
  assert (Hhi : (Zfloor x < 2147483648)%Z) by (apply lt_IZR; lra).
  rewrite Z.mod_small by (split; [exact Hlo | change (2 ^ 32)%Z with 4294967296%Z; lia]).
  destruct (Zfloor x <=? 2147483647)%Z eqn:E; [reflexivity |].
  apply Z.leb_gt in E. lia.
Qed.

(** The style size used for a client size: a whole number of at least 1. *)
Lemma cssSize_whole (client : Z) (d : Z) :
  (0 <= client)%Z -> (1 <= d)%Z ->
  exists z : Z, orElse (IZR client) (IZR d) = IZR z /\ (1 <= z)%Z.
Proof.
  intros Hc Hd. unfold orElse. destruct (Req_dec_T (IZR client) 0) as [E | E].
  - now exists d.
  - exists client. split; [reflexivity |].
    assert (client <> 0%Z) by (intros ->; now apply E). lia.
Qed.

Lemma stored_dimension (default client d : Z) (pixelRatio : R) :
  (0 <= client)%Z -> (1 <= d)%Z -> 1 <= pixelRatio ->
  orElse (IZR client) (IZR d) * pixelRatio < 2147483648 ->
  let css := orElse (IZR client) (IZR d) in
  let stored := setDimension default (css * pixelRatio) in
  stored = Math.floor (css * pixelRatio) /\
  1 <= css <= IZR stored /\
  IZR stored <= css * pixelRatio < IZR stored + 1.
Proof.
  intros Hc Hd Hp Hx css stored.
  destruct (cssSize_whole client d Hc Hd) as (z & Ez & Hz).
  fold css in Ez, Hx.
  assert (Hz1 : 1 <= IZR z) by (apply IZR_le in Hz; exact Hz).
  assert (Hprod : css <= css * pixelRatio).
  { rewrite <- (Rmult_1_r css) at 1. apply Rmult_le_compat_l; lra. }
  assert (Hs : stored = Math.floor (css * pixelRatio)).
  { apply setDimension_floor. lra. }
  split; [exact Hs |].
  rewrite Hs. unfold Math.floor.
  split; [| apply Zfloor_bound].
  split; [lra |].
  rewrite Ez in *. apply IZR_le, Zfloor_lub. exact Hprod.
Qed.

(** X26.  On a display whose pixel ratio is at least 1 (a ratio of [0] is
    replaced by [1]), for a canvas whose style size times the ratio stays
    below [2^31]: [updateCanvasSize] gives the backing store the style width
    and height (the client size, or 600 and 400 for a client size of [0])
    times the ratio, rounded down to whole pixels; the store is at least as
    large as the style size, hence never empty; and the scale left on the
    context is the ratio in both directions. *)
Theorem canvas_backing_store (clientWidth clientHeight : Z) (devicePixelRatio : R) :
  let pixelRatio := pixelRatioOf devicePixelRatio in
  let cssWidth := orElse (IZR clientWidth) 600 in
  let cssHeight := orElse (IZR clientHeight) 400 in
  let c := updateCanvasSize clientWidth clientHeight pixelRatio in
  (0 <= clientWidth)%Z -> (0 <= clientHeight)%Z ->
  1 <= pixelRatio ->
  cssWidth * pixelRatio < 2147483648 ->
  cssHeight * pixelRatio < 2147483648 ->
  Canvas.width c = Math.floor (cssWidth * pixelRatio) /\
  Canvas.height c = Math.floor (cssHeight * pixelRatio) /\
  1 <= cssWidth <= IZR (Canvas.width c) /\
  1 <= cssHeight <= IZR (Canvas.height c) /\
  IZR (Canvas.width c) <= cssWidth * Canvas.scaleX c < IZR (Canvas.width c) + 1 /\
  IZR (Canvas.height c) <= cssHeight * Canvas.scaleY c < IZR (Canvas.height c) + 1 /\
  Canvas.scaleX c = pixelRatio /\
  Canvas.scaleY c = pixelRatio /\
  (devicePixelRatio = 0 -> pixelRatio = 1).
Proof.
  intros pixelRatio cssWidth cssHeight c Hw Hh Hp Hxw Hxh.
  destruct (stored_dimension 300 clientWidth 600 pixelRatio Hw ltac:(lia) Hp Hxw)
    as (Ew & Bw & Fw).
  destruct (stored_dimension 150 clientHeight 400 pixelRatio Hh ltac:(lia) Hp Hxh)
    as (Eh & Bh & Fh).
  unfold c, updateCanvasSize.
  cbn [Canvas.width Canvas.height Canvas.scaleX Canvas.scaleY].
  fold cssWidth cssHeight. rewrite !Rmult_1_l.
  split; [exact Ew |]. split; [exact Eh |].
  split; [exact Bw |]. split; [exact Bh |].
  split; [exact Fw |]. split; [exact Fh |].
  split; [reflexivity |]. split; [reflexivity |].
  intros H0. unfold pixelRatio, pixelRatioOf, orElse.
  destruct (Req_dec_T devicePixelRatio 0); [reflexivity | contradiction].
Qed.

(** A 601 x 400 canvas at a pixel ratio of 1.25. *)
Lemma canvas_backing_store_witness :
  let c := updateCanvasSize 601 400 (pixelRatioOf 1.25) in
  Canvas.width c = Math.floor (orElse 601 600 * pixelRatioOf 1.25) /\
  Canvas.height c = Math.floor (orElse 400 400 * pixelRatioOf 1.25) /\
  1 <= orElse 601 600 <= IZR (Canvas.width c) /\
  1 <= orElse 400 400 <= IZR (Canvas.height c) /\
  IZR (Canvas.width c) <= orElse 601 600 * Canvas.scaleX c < IZR (Canvas.width c) + 1 /\
  IZR (Canvas.height c) <= orElse 400 400 * Canvas.scaleY c < IZR (Canvas.height c) + 1 /\
  Canvas.scaleX c = pixelRatioOf 1.25 /\
  Canvas.scaleY c = pixelRatioOf 1.25 /\
  (1.25 = 0 -> pixelRatioOf 1.25 = 1).
Proof.
  assert (Hr : pixelRatioOf 1.25 = 1.25)
    by (unfold pixelRatioOf; apply orElse_nonzero; lra).
  apply (canvas_backing_store 601 400 1.25).
  - lia.
  - lia.
  - rewrite Hr. lra.
  - rewrite Hr, orElse_nonzero by lra. lra.
  - rewrite Hr, orElse_nonzero by lra. lra.
Defined.

(** The store is in whole pixels: 601 style pixels at a ratio of 1.25 give
    751, not 751.25; and below a ratio of 1 the store can be empty, 3 style
    pixels at a ratio of 0.25 giving 0. *)
Lemma updateCanvasSize_truncates :
  Canvas.width (updateCanvasSize 601 400 1.25) = 751%Z /\
  Canvas.width (updateCanvasSize 3 3 0.25) = 0%Z.
Proof.
  unfold updateCanvasSize. cbn [Canvas.width].
  rewrite !orElse_nonzero by lra.
  rewrite !setDimension_floor by lra.
  unfold Math.floor. split; apply Zfloor_eq; lra.
Qed.

(** On the square plate a grid point of the diagonal is a nodal point. *)
Lemma diagonal_point_held (st : Renderer.t) (ps : Pass.t) (i : nat) :
  Params.shape (Renderer.params st) = square ->
  fieldPass st = Some ps -> 0 <= Renderer.nodeThreshold st ->
  (i < Renderer.resolution st)%nat ->
  holdsPoint (Renderer.nodalPoints (recomputeField st))
    (Renderer.cx (recomputeField st)
     + gridCoord (Renderer.resolution st) i * Renderer.halfPlatePix (recomputeField st))
    (Renderer.cy (recomputeField st)
     - gridCoord (Renderer.resolution st) i * Renderer.halfPlatePix (recomputeField st)).
Proof.
  intros Hs Hp Ht Hi.
  apply (zero_amplitude_is_nodal st ps i i Hp Ht Hi Hi).
  destruct (pass_amplitude_at st ps i i Hp Hi Hi) as (m0 & m1 & _ & _ & ->).
  f_equal. rewrite Hs. unfold sampleValue, blendedValue. cbn [fst snd].
  destruct (insidePlate _ _ _); [| reflexivity].
  rewrite !squareModeDisplacement_diag. ring.
Qed.

(** X27.  The bound [10/9] is sharp: on the square plate, for a plate size
    above [10/9] (the size control goes up to 1.2), whenever the sampling
    pass runs on a grid of resolution at least 2 with a non-negative
    threshold fraction, the first grid corner
    is a nodal point that lies outside the client rectangle of the
    canvas. *)
Theorem large_plate_overflows_canvas (st : Renderer.t) :
  Params.shape (Renderer.params st) = square ->
  activeModes st <> [] ->
  (0 < Renderer.clientWidth st)%Z -> (0 < Renderer.clientHeight st)%Z ->
  0 <= Renderer.nodeThreshold st ->
  (2 <= Renderer.resolution st)%nat ->
  10 / 9 < Params.plateSize (Renderer.params st) ->
  let st' := recomputeField st in
  let px := Renderer.cx st'
            + gridCoord (Renderer.resolution st) 0 * Renderer.halfPlatePix st' in
  let py := Renderer.cy st'
            - gridCoord (Renderer.resolution st) 0 * Renderer.halfPlatePix st' in
  holdsPoint (Renderer.nodalPoints st') px py /\
  (px < 0 \/ IZR (Renderer.clientHeight st) < py).
Proof.
  intros Hs Hne Hw Hh Ht Hres HL st' px py.
  assert (Hw' : Renderer.clientWidth st <> 0%Z) by lia.
  assert (Hh' : Renderer.clientHeight st <> 0%Z) by lia.
  destruct (fieldPass_exists st Hne Hw' Hh') as [ps Hp].
  split; [apply (diagonal_point_held st ps 0); auto; lia |].
  subst px py st'. rewrite gridCoord_first.
  destruct (recomputeField_pass st ps Hp) as (_ & -> & -> & ->).
  destruct (fieldPass_inv st ps Hp) as (m0 & m1 & _ & _ & _ & _ & ->).
  destruct (samplingPass_fields st (computeBlendInfo st) m0 m1)
    as (_ & _ & _ & _ & -> & -> & ->).
  destruct (computeBlendInfo_nonempty st Hne) as (_ & _ & _ & _ & ->).
  unfold effectiveSize. rewrite orElse_nonzero by lra.
  apply IZR_lt in Hw, Hh.
  set (w := IZR (Renderer.clientWidth st)) in *.
  set (h := IZR (Renderer.clientHeight st)) in *.
  set (L := Params.plateSize (Renderer.params st)) in *.
  unfold Math.min, Rmin. destruct (Rle_dec w h); [left | right]; nra.
Qed.

Lemma large_plate_overflows_canvas_witness :
  let st := withParams (constructed 600 400) (Params.mk square 1.2 440) in
  let st' := recomputeField st in
  let px := Renderer.cx st'
            + gridCoord (Renderer.resolution st) 0 * Renderer.halfPlatePix st' in
  let py := Renderer.cy st'
            - gridCoord (Renderer.resolution st) 0 * Renderer.halfPlatePix st' in
  holdsPoint (Renderer.nodalPoints st') px py /\
  (px < 0 \/ IZR (Renderer.clientHeight st) < py).
Proof.
  apply (large_plate_overflows_canvas
           (withParams (constructed 600 400) (Params.mk square 1.2 440))).
  - reflexivity.
  - exact constructed_nonempty.
  - cbn [withParams constructed Renderer.clientWidth]. lia.
  - cbn [withParams constructed Renderer.clientHeight]. lia.
  - cbn [withParams constructed Renderer.nodeThreshold]. lra.
  - cbn [withParams constructed Renderer.resolution]. lia.
  - cbn [withParams Renderer.params Params.plateSize]. lra.
Defined.
